(** * LinguaLens detection pipeline: shallow embedding and verification

    The development embeds [DetectionPipeline] (the aspect-scoring /
    class-lock variant of the filter, the one the application calls on every
    rendered frame) and proves the properties its specification states.  It
    then embeds the state the application keeps around that filter (the
    label smoother, the vocabulary, the quiz counters, a turn of the
    processing loop) and the earlier pipeline of [detector.js], and proves
    what the code shows of them.

    Conventions of the embedding.
    - JavaScript numbers are rationals ([Q]) with exact arithmetic: rounding,
      [NaN] and the infinities are outside the model.  Comparisons are the
      boolean ones of [Q], so they do not depend on how a rational is written.
    - A bounding box is the four-element array [[x, y, w, h]].  A detection
      whose [bbox] property is missing carries [None]; reading an index of it
      throws, which the model renders as [TypeError] in the monad [Res].
    - [candidates] is a plain object iterated with [for ... in]: its keys are
      non-numeric strings, so the iteration order is the insertion order and
      the object is an association list.  A key
      [`${class}_${round(x/40)}_${round(y/40)}_${Date.now()}`] is the tuple of
      its four components.
    - [Date.now()] is read at most once per resolved detection; the model
      takes the readings as a function [clock] of the detection's position in
      the resolved list, with no assumption on its values.
    - [DICT] and [SIZE_RANGES] are globals of the class dictionary, which is
      a separate script: they are parameters of the development.
    - [smoothed] and [state.vocab] are plain objects keyed by class name,
      association lists in insertion order as well: a class name is not a
      numeric string and not the name of a property every object inherits. *)

From Stdlib Require Import String List ZArith QArith Qminmax Qround Bool Lia Lqa.
From Stdlib Require Import Permutation.
Import ListNotations.
Open Scope Q_scope.

(** ** Exceptions *)

Inductive Res (A : Type) : Type :=
| Ok (a : A)
| TypeError.
Arguments Ok {A} a.
Arguments TypeError {A}.

Definition bind {A B : Type} (m : Res A) (f : A -> Res B) : Res B :=
  match m with
  | Ok a => f a
  | TypeError => TypeError
  end.

Notation "x <- m ;; k" := (bind m (fun x => k))
  (at level 61, m at next level, right associativity).
Notation "' pat <- m ;; k" := (bind m (fun x => match x with pat => k end))
  (at level 61, pat pattern, m at next level, right associativity).

Fixpoint mapM {A B : Type} (f : A -> Res B) (l : list A) : Res (list B) :=
  match l with
  | [] => Ok []
  | a :: l' => b <- f a ;; bs <- mapM f l' ;; Ok (b :: bs)
  end.

Fixpoint filterM {A : Type} (f : A -> Res bool) (l : list A) : Res (list A) :=
  match l with
  | [] => Ok []
  | a :: l' => keep <- f a ;; r <- filterM f l' ;; Ok (if keep then a :: r else r)
  end.

(** ** Numbers *)

(** [a > b], [a < b] and [a >= b] of the source. *)
Definition Qgtb (a b : Q) : bool := negb (Qle_bool a b).
Definition Qltb (a b : Q) : bool := negb (Qle_bool b a).
Definition Qgeb (a b : Q) : bool := Qle_bool b a.

(** [Math.round]: nearest integer, halves towards plus infinity. *)
Definition Math_round (x : Q) : Z := Qfloor (x + (1 # 2)).

(** [v || 1.0] on a number: the default replaces a zero. *)
Definition orOne (v : Q) : Q := if Qeq_bool v 0 then 1 else v.

(** ** Data *)

Record BBox : Type := mkBBox { box_x : Q; box_y : Q; box_w : Q; box_h : Q }.

(** Reading an index of [bbox]: throws when the property is undefined. *)
Definition index (bbox : option BBox) : Res BBox :=
  match bbox with
  | Some b => Ok b
  | None => TypeError
  end.

(** What the detector hands to [filter]. *)
Record RawDetection : Type := mkRaw {
  raw_class : string;
  raw_bbox : option BBox;
  raw_score : Q
}.

(** A detection after step 1: [{...p, score, _origScore, _aspectScore}]. *)
Record Pred : Type := mkPred {
  class : string;
  bbox : option BBox;
  score : Q;
  _origScore : Q;
  _aspectScore : Q
}.

Module AspectHint.
Record t : Type := mk { min : Q; max : Q; weight : Q }.
End AspectHint.

Module Candidate.
Record t : Type := mk { cls : string; score : Q; frames : Z; bbox : option BBox }.
End Candidate.

(** The class dictionary's entry, as far as the pipeline reads it, and a
    size range. *)
Record DictEntry : Type := mkEntry { size : option string }.
Record SizeRange : Type := mkRange { range_min : Q; range_max : Q }.

(** A candidate key: class, the two binned coordinates, the clock reading. *)
Record Key : Type := mkKey { key_class : string; key_x : Z; key_y : Z; key_now : Z }.

Definition key_eqb (a b : Key) : bool :=
  String.eqb (key_class a) (key_class b) && Z.eqb (key_x a) (key_x b)
  && Z.eqb (key_y a) (key_y b) && Z.eqb (key_now a) (key_now b).

Definition Candidates : Type := list (Key * Candidate.t).

(** Object property lookup on an association list. *)
Fixpoint assoc {A K : Type} (eqb : K -> K -> bool) (k : K) (l : list (K * A)) : option A :=
  match l with
  | [] => None
  | (k', a) :: l' => if eqb k k' then Some a else assoc eqb k l'
  end.

Module DetectionPipeline.

(** ** Configuration *)

Definition CONFIRM_FRAMES : Z := 8.
Definition NMS_THRESHOLD : Q := 0.35.
Definition CONFUSION_THRESHOLD : Q := 0.3.
Definition DECAY_RATE : Z := 2.
Definition CLASS_LOCK_FRAMES : Z := 12.

Definition CONFUSE_GROUPS : list (list string) :=
  [ ["cell phone"; "remote"; "mouse"; "hair drier"];
    ["cup"; "bowl"; "vase"; "bottle"];
    ["knife"; "scissors"; "fork"];
    ["couch"; "bed"];
    ["skateboard"; "surfboard"];
    ["laptop"; "tv"; "book"; "keyboard"];
    ["backpack"; "handbag"; "suitcase"];
    ["car"; "truck"; "bus"];
    ["dining table"; "desk"];
    ["potted plant"; "broccoli"] ]%string.

(** [confuseMap[c] = g] for every class of every group, later groups
    overwriting earlier ones.  A group is identified by its position in
    [CONFUSE_GROUPS], which is what [rGrp === grp] compares. *)
Fixpoint confuseMapFrom (i : nat) (groups : list (list string)) (c : string)
  : option nat :=
  match groups with
  | [] => None
  | g :: gs =>
      match confuseMapFrom (S i) gs c with
      | Some j => Some j
      | None => if existsb (String.eqb c) g then Some i else None
      end
  end.

Definition confuseMap (c : string) : option nat := confuseMapFrom 0 CONFUSE_GROUPS c.

Definition ASPECT_HINTS : list (string * AspectHint.t) :=
  [ ("cell phone"%string, AspectHint.mk 1.3 2.8 0.25);
    ("remote"%string, AspectHint.mk 2.2 6.0 0.25);
    ("mouse"%string, AspectHint.mk 0.5 1.3 0.20);
    ("bottle"%string, AspectHint.mk 1.8 5.0 0.25);
    ("cup"%string, AspectHint.mk 0.6 1.6 0.20);
    ("bowl"%string, AspectHint.mk 0.3 0.9 0.20);
    ("vase"%string, AspectHint.mk 1.2 3.5 0.15);
    ("laptop"%string, AspectHint.mk 0.5 1.1 0.20);
    ("tv"%string, AspectHint.mk 0.4 0.9 0.20);
    ("book"%string, AspectHint.mk 0.8 1.8 0.10);
    ("knife"%string, AspectHint.mk 2.0 8.0 0.20);
    ("scissors"%string, AspectHint.mk 0.8 2.5 0.15);
    ("keyboard"%string, AspectHint.mk 0.15 0.55 0.20);
    ("hair drier"%string, AspectHint.mk 0.6 1.5 0.15);
    ("fork"%string, AspectHint.mk 3.0 10.0 0.20);
    ("spoon"%string, AspectHint.mk 2.5 8.0 0.15) ].

(** ** Bounding box intersection *)

Definition iou (a b : BBox) : Q :=
  let x1 := Qmax (box_x a) (box_x b) in
  let y1 := Qmax (box_y a) (box_y b) in
  let x2 := Qmin (box_x a + box_w a) (box_x b + box_w b) in
  let y2 := Qmin (box_y a + box_h a) (box_y b + box_h b) in
  if Qle_bool x2 x1 || Qle_bool y2 y1 then 0
  else
    let inter := (x2 - x1) * (y2 - y1) in
    inter / (box_w a * box_h a + box_w b * box_h b - inter).

(** [iou(p.bbox, k.bbox)] on properties that may be undefined. *)
Definition iouJS (a b : option BBox) : Res Q :=
  a' <- index a ;; b' <- index b ;; Ok (iou a' b').

(** ** Aspect ratio scoring *)

Definition aspectScore (cls : string) (bbox : option BBox) : Res Q :=
  match assoc String.eqb cls ASPECT_HINTS with
  | None => Ok 1.0
  | Some hint =>
      b <- index bbox ;;
      let w := box_w b in
      let h := box_h b in
      if Qeq_bool w 0 then Ok 0.5
      else
        let aspect := h / w in
        if Qgeb aspect (AspectHint.min hint) && Qle_bool aspect (AspectHint.max hint)
        then Ok 1.0
        else
          let dist :=
            if Qltb aspect (AspectHint.min hint)
            then (AspectHint.min hint - aspect) / AspectHint.min hint
            else (aspect - AspectHint.max hint) / AspectHint.max hint in
          Ok (Qmax 0.3 (1.0 - dist * AspectHint.weight hint * 3))
  end.

Section Pipeline.

(** The globals of the class dictionary; [None] is a falsy (undefined)
    global, which [validateSize] tests for. *)
Variable DICT : option (string -> option DictEntry).
Variable SIZE_RANGES : option (string -> option SizeRange).

(** ** Reject invalid sizes

    [boxArea / videoArea] with [videoArea = 0] is an infinity or [NaN] in the
    source, and then neither bound of a range holds: that case is written out,
    since a rational has no such value. *)
Definition validateSize (pred : Pred) (videoArea : Q) : Res bool :=
  match DICT, SIZE_RANGES with
  | Some dict, Some ranges =>
      match dict (class pred) with
      | None => Ok true
      | Some entry =>
          match size entry with
          | None => Ok true
          | Some sz =>
              if String.eqb sz "" then Ok true
              else
                b <- index (bbox pred) ;;
                let boxArea := box_w b * box_h b in
                match ranges sz with
                | None => Ok true
                | Some range =>
                    if Qeq_bool videoArea 0 then Ok false
                    else
                      let ratio := boxArea / videoArea in
                      Ok (Qgeb ratio (range_min range * 0.5)
                          && Qle_bool ratio (range_max range * 2))
                end
          end
      end
  | _, _ => Ok true
  end.

(** ** The per-frame pipeline (steps 1 to 6 of [filter]) *)

(** Step 1, one item. *)
Definition scoreOne (p : RawDetection) : Res Pred :=
  aScore <- aspectScore (raw_class p) (raw_bbox p) ;;
  Ok {| class := raw_class p; bbox := raw_bbox p;
        score := raw_score p * aScore;
        _origScore := raw_score p; _aspectScore := aScore |}.

(** Step 2: [preds.sort((a, b) => b.score - a.score)].  The sort is stable;
    with a comparator that is a total preorder its result is the one of an
    insertion sort that puts an item before the first one it does not rank
    strictly below. *)
Fixpoint insertDesc (p : Pred) (l : list Pred) : list Pred :=
  match l with
  | [] => [p]
  | q :: l' => if Qltb (score p) (score q) then q :: insertDesc p l' else p :: q :: l'
  end.

Fixpoint sortDesc (l : list Pred) : list Pred :=
  match l with
  | [] => []
  | p :: l' => insertDesc p (sortDesc l')
  end.

(** Step 4. *)
Definition scoreFloor (p : Pred) : bool := Qgeb (score p) 0.45.

(** Step 5: the inner loop over [kept], and the outer loop. *)
Fixpoint nmsDominated (p : Pred) (kept : list Pred) : Res bool :=
  match kept with
  | [] => Ok false
  | k :: ks =>
      v <- iouJS (bbox p) (bbox k) ;;
      if Qgtb v NMS_THRESHOLD then Ok true else nmsDominated p ks
  end.

Fixpoint nms (preds kept : list Pred) : Res (list Pred) :=
  match preds with
  | [] => Ok kept
  | p :: ps =>
      dominated <- nmsDominated p kept ;;
      nms ps (if dominated then kept else kept ++ [p])
  end.

(** Step 6.  [fit] is the tie-break value; the inner loop returns whether [p]
    was dominated and the array after the replacement.  The entry [r] that
    the loop stands on is the one [resolved.indexOf(r)] finds: every element
    of [resolved] is a different object. *)
Definition fit (p : Pred) : Q := orOne (_aspectScore p) * _origScore p.

Fixpoint confusionScan (p : Pred) (grp : nat) (resolved : list Pred)
  : Res (bool * list Pred) :=
  match resolved with
  | [] => Ok (false, [])
  | r :: rs =>
      hit <- match confuseMap (class r) with
             | Some rGrp =>
                 if Nat.eqb rGrp grp
                 then v <- iouJS (bbox p) (bbox r) ;; Ok (Qgtb v CONFUSION_THRESHOLD)
                 else Ok false
             | None => Ok false
             end ;;
      if hit then Ok (true, (if Qgtb (fit p) (fit r) then p else r) :: rs)
      else '(dominated, rs') <- confusionScan p grp rs ;; Ok (dominated, r :: rs')
  end.

Fixpoint confusion (kept resolved : list Pred) : Res (list Pred) :=
  match kept with
  | [] => Ok resolved
  | p :: ps =>
      match confuseMap (class p) with
      | Some grp =>
          '(dominated, resolved') <- confusionScan p grp resolved ;;
          confusion ps (if dominated then resolved' else resolved' ++ [p])
      | None => confusion ps (resolved ++ [p])
      end
  end.

Definition pipeline (rawPreds : list RawDetection) (videoWidth videoHeight : Q)
  : Res (list Pred) :=
  let videoArea := videoWidth * videoHeight in
  preds <- mapM scoreOne rawPreds ;;
  let preds := sortDesc preds in
  preds <- filterM (fun p => validateSize p videoArea) preds ;;
  let preds := List.filter scoreFloor preds in
  kept <- nms preds [] ;;
  confusion kept [].

(** ** Temporal consistency (step 7 of [filter]) *)

(** [`${p.class}_${Math.round(p.bbox[0] / 40)}_${Math.round(p.bbox[1] / 40)}_${Date.now()}`] *)
Definition freshKey (p : Pred) (now : Z) : Res Key :=
  b <- index (bbox p) ;;
  Ok (mkKey (class p) (Math_round (box_x b / 40)) (Math_round (box_y b / 40)) now).

(** The search [for (const key in candidates)]: the exact match stops the
    loop; the first spatial match seen before that is remembered. *)
Fixpoint findMatch (p : Pred) (cands : Candidates) (matchedKeyByLocation : option Key)
  : Res (option Key * option Key) :=
  match cands with
  | [] => Ok (None, matchedKeyByLocation)
  | (key, c) :: rest =>
      exact <- (if String.eqb (Candidate.cls c) (class p)
                then v <- iouJS (Candidate.bbox c) (bbox p) ;; Ok (Qgtb v 0.25)
                else Ok false) ;;
      if exact then Ok (Some key, matchedKeyByLocation)
      else
        v <- iouJS (Candidate.bbox c) (bbox p) ;;
        findMatch p rest
          (match matchedKeyByLocation with
           | None => if Qgtb v 0.4 then Some key else None
           | Some _ => matchedKeyByLocation
           end)
  end.

(** In-place update of the object stored under [k]. *)
Fixpoint update (k : Key) (f : Candidate.t -> Candidate.t) (cands : Candidates)
  : Candidates :=
  match cands with
  | [] => []
  | (k', c) :: rest =>
      if key_eqb k k' then (k', f c) :: rest else (k', c) :: update k f rest
  end.

(** [delete candidates[k]] *)
Definition delete (k : Key) (cands : Candidates) : Candidates :=
  List.filter (fun kc => negb (key_eqb k (fst kc))) cands.

Definition has (k : Key) (nowKeys : list Key) : bool := existsb (key_eqb k) nowKeys.

(** [nowKeys.add(k)] *)
Definition add (k : Key) (nowKeys : list Key) : list Key :=
  if has k nowKeys then nowKeys else nowKeys ++ [k].

(** What the loop over [resolved] changes. *)
Record Tracking : Type := mkTracking {
  candidates : Candidates;
  nowKeys : list Key;
  confirmed : list Pred
}.

(** [{ ...p, class: existing.cls, score: existing.score }] *)
Definition withClassScore (p : Pred) (cls : string) (s : Q) : Pred :=
  {| class := cls; bbox := bbox p; score := s;
     _origScore := _origScore p; _aspectScore := _aspectScore p |}.

(** The exact match: [c.frames++; c.score = c.score * 0.6 + p.score * 0.4;
    c.bbox = p.bbox]. *)
Definition bump (p : Pred) (c : Candidate.t) : Candidate.t :=
  Candidate.mk (Candidate.cls c)
    (Candidate.score c * 0.6 + score p * 0.4)
    (Candidate.frames c + 1)
    (bbox p).

(** The established candidate keeps the region: [existing.bbox = p.bbox;
    existing.score = existing.score * 0.7 + p._origScore * 0.3]. *)
Definition keepClass (p : Pred) (existing : Candidate.t) : Candidate.t :=
  Candidate.mk (Candidate.cls existing)
    (Candidate.score existing * 0.7 + _origScore p * 0.3)
    (Candidate.frames existing)
    (bbox p).

(** The class-lock test of a location match: [Some] of the updated candidate
    when the established candidate keeps the region, [None] when the code
    falls through to the creation of a new candidate. *)
Definition classLock (p : Pred) (existing : Candidate.t) : Res (option Candidate.t) :=
  if Z.geb (Candidate.frames existing) CLASS_LOCK_FRAMES then
    aExisting <- aspectScore (Candidate.cls existing) (bbox p) ;;
    let existingFit := aExisting * Candidate.score existing in
    aNew <- aspectScore (class p) (bbox p) ;;
    let newFit := aNew * score p in
    if Qltb newFit (existingFit * 1.3) then Ok (Some (keepClass p existing))
    else Ok None
  else Ok None.

(** The tail of the loop body: [if (candidates[rKey].frames >= CONFIRM_FRAMES)
    confirmed.push(p)].  The entry is there when the body gets here: it has
    just been created or updated ([confirmIf_created], [trackOne_total]). *)
Definition confirmIf (rKey : Key) (p : Pred) (t : Tracking) : Res Tracking :=
  match assoc key_eqb rKey (candidates t) with
  | Some c =>
      Ok (if Z.geb (Candidate.frames c) CONFIRM_FRAMES
          then mkTracking (candidates t) (nowKeys t) (confirmed t ++ [p])
          else t)
  | None => TypeError
  end.

(** [{ cls: p.class, score: p.score, frames: 1, bbox: p.bbox }] *)
Definition newCandidate (p : Pred) : Candidate.t :=
  Candidate.mk (class p) (score p) 1 (bbox p).

Definition create (rKey : Key) (p : Pred) (t : Tracking) : Tracking :=
  mkTracking
    (candidates t ++ [(rKey, newCandidate p)])
    (nowKeys t) (confirmed t).

(** The body of [for (const p of resolved)]; [now] is what [Date.now()]
    returns if the body reads it. *)
Definition trackOne (now : Z) (t : Tracking) (p : Pred) : Res Tracking :=
  '(matchedKey, matchedKeyByLocation) <- findMatch p (candidates t) None ;;
  rKey <- match matchedKey with
          | Some k => Ok k
          | None => freshKey p now
          end ;;
  let t := mkTracking (candidates t) (add rKey (nowKeys t)) (confirmed t) in
  match assoc key_eqb rKey (candidates t) with
  | None =>
      match matchedKeyByLocation, matchedKey with
      | Some kLoc, None =>
          match assoc key_eqb kLoc (candidates t) with
          | Some existing =>
              locked <- classLock p existing ;;
              match locked with
              | Some existing' =>
                  let t := mkTracking (update kLoc (fun _ => existing') (candidates t))
                                      (add kLoc (nowKeys t)) (confirmed t) in
                  Ok (if Z.geb (Candidate.frames existing') CONFIRM_FRAMES
                      then mkTracking (candidates t) (nowKeys t)
                             (confirmed t ++
                              [withClassScore p (Candidate.cls existing')
                                 (Candidate.score existing')])
                      else t)
              | None => confirmIf rKey p (create rKey p t)
              end
          | None => TypeError
          end
      | _, _ => confirmIf rKey p (create rKey p t)
      end
  | Some _ =>
      confirmIf rKey p
        (mkTracking (update rKey (bump p) (candidates t)) (nowKeys t) (confirmed t))
  end.

(** The loop [for (const p of resolved)].  The body throws, if it does,
    before it has changed anything for [p]; the loop then stops with what the
    earlier detections have done.  The flag tells whether the loop ran to its
    end. *)
Fixpoint trackLoop (clock : nat -> Z) (i : nat) (resolved : list Pred) (t : Tracking)
  : Tracking * bool :=
  match resolved with
  | [] => (t, true)
  | p :: ps =>
      match trackOne (clock i) t p with
      | Ok t' => trackLoop clock (S i) ps t'
      | TypeError => (t, false)
      end
  end.

(** Decay of the candidates that no detection of the call touched. *)
Fixpoint decay (nowKeys : list Key) (cands : Candidates) : Candidates :=
  match cands with
  | [] => []
  | (key, c) :: rest =>
      if has key nowKeys then (key, c) :: decay nowKeys rest
      else
        let c' := Candidate.mk (Candidate.cls c) (Candidate.score c)
                    (Candidate.frames c - DECAY_RATE) (Candidate.bbox c) in
        if Z.leb (Candidate.frames c') 0 then decay nowKeys rest
        else (key, c') :: decay nowKeys rest
  end.

(** ** Primary filtering logic

    [filter cands clock rawPreds videoWidth videoHeight] is a call of
    [filter(rawPreds, videoWidth, videoHeight)] on the candidate map [cands]:
    the confirmed list it returns, or the exception that ends it, and the
    candidate map the call leaves behind in either case. *)
Definition filter (cands : Candidates) (clock : nat -> Z)
    (rawPreds : list RawDetection) (videoWidth videoHeight : Q)
  : Res (list Pred) * Candidates :=
  match pipeline rawPreds videoWidth videoHeight with
  | Ok resolved =>
      let '(t, completed) := trackLoop clock 0 resolved (mkTracking cands [] []) in
      if completed
      then (Ok (confirmed t), decay (nowKeys t) (candidates t))
      else (TypeError, candidates t)
  | TypeError => (TypeError, cands)
  end.

End Pipeline.

(** ** Reset tracking state *)
Definition reset (cands : Candidates) : Candidates :=
  fold_left (fun acc kc => delete (fst kc) acc) cands cands.

End DetectionPipeline.

Import DetectionPipeline.

(** * The application

    The first script of the page keeps the state that the confirmed
    detections drive: the smoothed label positions, the vocabulary and its
    copy in [localStorage], the quiz counters.  The canvas, the DOM and the
    speech engine are outside the model: their calls are taken to return,
    and of what the script hands to them only the numbers are kept. *)

Module App.

(** ** Positioning helpers *)

Definition SMOOTH : Q := 0.12.
Definition GRACE : Z := 15.

(** An entry of [smoothed]: [{ x, y, w, h, age, n }]. *)
Module Smooth.
Record t : Type := mk { x : Q; y : Q; w : Q; h : Q; age : Z; n : Z }.
End Smooth.

(** [smoothed], [state.vocab]: objects keyed by class name. *)
Definition Smoothed : Type := list (string * Smooth.t).

Definition lerp (a b t : Q) : Q := a + (b - a) * t.

(** In-place update of the object stored under the property [k]. *)
Fixpoint alter {V : Type} (k : string) (f : V -> V) (m : list (string * V))
  : list (string * V) :=
  match m with
  | [] => []
  | (k', v) :: rest =>
      if String.eqb k k' then (k', f v) :: rest else (k', v) :: alter k f rest
  end.

Definition updateSmooth (cls : string) (rx ry rw rh : Q) (smoothed : Smoothed)
  : Smoothed :=
  let smoothed :=
    match assoc String.eqb cls smoothed with
    | None => smoothed ++ [(cls, Smooth.mk rx ry rw rh 0 0)]
    | Some _ =>
        alter cls
          (fun s => Smooth.mk (lerp (Smooth.x s) rx SMOOTH) (lerp (Smooth.y s) ry SMOOTH)
                      (lerp (Smooth.w s) rw SMOOTH) (lerp (Smooth.h s) rh SMOOTH)
                      (Smooth.age s) (Smooth.n s))
          smoothed
    end in
  alter cls
    (fun s => Smooth.mk (Smooth.x s) (Smooth.y s) (Smooth.w s) (Smooth.h s)
                0 (Smooth.n s + 1))
    smoothed.

Fixpoint ageSmooth (smoothed : Smoothed) : Smoothed :=
  match smoothed with
  | [] => []
  | (c, s) :: rest =>
      let s' := Smooth.mk (Smooth.x s) (Smooth.y s) (Smooth.w s) (Smooth.h s)
                  (Smooth.age s + 1) (Smooth.n s) in
      if Z.gtb (Smooth.age s') (GRACE + 15) then ageSmooth rest
      else (c, s') :: ageSmooth rest
  end.

(** [delete smoothed[c]], and [for (const c in smoothed) delete smoothed[c]]. *)
Definition remove (c : string) (smoothed : Smoothed) : Smoothed :=
  List.filter (fun e => negb (String.eqb c (fst e))) smoothed.

Definition clearSmooth (smoothed : Smoothed) : Smoothed :=
  fold_left (fun acc cs => remove (fst cs) acc) smoothed smoothed.

(** ** Render labels to canvas *)

Definition HDR : Q := 48.
Definition LH : Q := 68.
Definition LW : Q := 130.

(** What the draw loop hands to the canvas and to the label of a class: the
    opacity factor, the box, the length of the corner accents, and the
    position of the label. *)
Record Label : Type := mkLabel {
  label_cls : string;
  label_fade : Q;
  label_box : BBox;
  label_corner : Q;
  label_left : Q;
  label_top : Q
}.

(** [s.age === 0 ? 1 : Math.max(0, 1 - s.age / GRACE)] *)
Definition fade (s : Smooth.t) : Q :=
  if Z.eqb (Smooth.age s) 0 then 1
  else Qmax 0 (1 - inject_Z (Smooth.age s) / inject_Z GRACE).

Definition labelOf (cw ch : Q) (cls : string) (s : Smooth.t) : Label :=
  let x := Smooth.x s in
  let y := Smooth.y s in
  let w := Smooth.w s in
  let h := Smooth.h s in
  let cl := Qmin 15 (Qmin (w * 0.13) (h * 0.13)) in
  let lx := Qmax 6 (Qmin x (cw - LW - 6)) in
  let ly := y - 6 in
  let ly := if Qltb (ly - LH) (HDR + 2) then y + h + 6 + LH else ly in
  let ly := if Qgtb ly (ch - 6) then ch - 6 else ly in
  mkLabel cls (fade s) (mkBBox x y w h) cl lx ly.

(** The [forEach] that feeds the raw positions into the smoother, mirrored
    and scaled to the canvas.  It stops at a detection whose [bbox] cannot
    be destructured; the flag tells whether it ran to its end. *)
Fixpoint feedSmooth (vw sc ox oy : Q) (preds : list Pred) (smoothed : Smoothed)
  : Smoothed * bool :=
  match preds with
  | [] => (smoothed, true)
  | p :: ps =>
      match bbox p with
      | Some b =>
          let bx := vw - box_x b - box_w b in
          feedSmooth vw sc ox oy ps
            (updateSmooth (class p) (bx * sc + ox) (box_y b * sc + oy)
               (box_w b * sc) (box_h b * sc) smoothed)
      | None => (smoothed, false)
      end
  end.

(** ** App state *)

(** An entry of [state.vocab]: [{ discovered, count }]. *)
Module Word.
Record t : Type := mk { discovered : Z; count : Z }.
End Word.

Definition Vocab : Type := list (string * Word.t).

(** [state.vocab] and the item [ll_vocab] of [localStorage], parsed. *)
Record Store : Type := mkStore { vocab : Vocab; ll_vocab : option Vocab }.

(** The quiz counters of [state]. *)
Record Quiz : Type := mkQuiz { quizMode : bool; quizCorrect : Z; quizTotal : Z }.

(** The rest of [state] that the processing loop writes, with the candidate
    map inside [DetectionPipeline] ([tracked]) and [smoothed]. *)
Record State : Type := mkState {
  tracked : Candidates;
  currentDetections : list Pred;
  smoothed : Smoothed;
  store : Store;
  frameCount : Z;
  fps : Z;
  fpsUpdateTime : Q
}.

Section Dictionary.

Variable DICT : option (string -> option DictEntry).
Variable SIZE_RANGES : option (string -> option SizeRange).

(** [DICT[cls]], which the application reads unguarded: it throws on an
    undefined [DICT]. *)
Definition lookup (cls : string) : Res (option DictEntry) :=
  match DICT with
  | Some dict => Ok (dict cls)
  | None => TypeError
  end.

(** The draw loop over [smoothed]. *)
Fixpoint draw (cw ch : Q) (smoothed : Smoothed) : Res (list Label) :=
  match smoothed with
  | [] => Ok []
  | (cls, s) :: rest =>
      if Z.gtb (Smooth.age s) GRACE then draw cw ch rest
      else
        entry <- lookup cls ;;
        match entry with
        | None => draw cw ch rest
        | Some _ => labels <- draw cw ch rest ;; Ok (labelOf cw ch cls s :: labels)
        end
  end.

(** [renderSmooth(preds)] on a video of [vw] by [vh] and a canvas of [cw] by
    [ch]: the labels drawn, or the exception, and [smoothed] as the call
    leaves it.  On a video of width or height 0 the source scales with an
    infinity, which the model does not follow: the coordinates it computes
    then are not those of the source, the ages and counters are. *)
Definition renderSmooth (vw vh cw ch : Q) (preds : list Pred) (smoothed : Smoothed)
  : Res (list Label) * Smoothed :=
  let sc := Qmax (cw / vw) (ch / vh) in
  let ox := (cw - vw * sc) / 2 in
  let oy := (ch - vh * sc) / 2 in
  let '(smoothed, completed) := feedSmooth vw sc ox oy preds smoothed in
  if completed
  then let smoothed := ageSmooth smoothed in (draw cw ch smoothed, smoothed)
  else (TypeError, smoothed).

(** ** Vocabulary persistence *)

(** [JSON.parse(localStorage.getItem('ll_vocab') || '{}')] *)
Definition loadVocab (item : option Vocab) : Store :=
  mkStore (match item with Some v => v | None => [] end) item.

(** The [forEach] of [trackVocab]; [clock] gives the readings of
    [Date.now()] by position. *)
Fixpoint trackWords (clock : nat -> Z) (i : nat) (preds : list Pred)
    (vocab : Vocab) (newWord : bool) : Vocab * bool * bool :=
  match preds with
  | [] => (vocab, newWord, true)
  | p :: ps =>
      match lookup (class p) with
      | TypeError => (vocab, newWord, false)
      | Ok entry =>
          match entry, assoc String.eqb (class p) vocab with
          | Some _, None =>
              trackWords clock (S i) ps
                (vocab ++ [(class p, Word.mk (clock i) 1)]) true
          | _, Some _ =>
              trackWords clock (S i) ps
                (alter (class p)
                   (fun w => Word.mk (Word.discovered w) (Word.count w + 1)) vocab)
                newWord
          | None, None => trackWords clock (S i) ps vocab newWord
          end
      end
  end.

Definition trackVocab (clock : nat -> Z) (preds : list Pred) (st : Store)
  : Res unit * Store :=
  let '(vocab, newWord, completed) := trackWords clock 0 preds (vocab st) false in
  if completed
  then (Ok tt, mkStore vocab (if newWord then Some vocab else ll_vocab st))
  else (TypeError, mkStore vocab (ll_vocab st)).

Definition clearVocab (st : Store) : Store := mkStore [] None.

(** ** Quiz *)

(** A click on a label; [revealed] is whether the label carries the class
    [revealed], before and after. *)
Definition clickLabel (q : Quiz) (revealed : bool) : Quiz * bool :=
  if quizMode q then
    let revealed := negb revealed in
    (mkQuiz (quizMode q)
       (if revealed then quizCorrect q + 1 else quizCorrect q)
       (quizTotal q + 1),
     revealed)
  else (q, revealed).

Definition toggleQuiz (q : Quiz) : Quiz :=
  mkQuiz (negb (quizMode q)) (quizCorrect q) (quizTotal q).

Definition resetQuiz (q : Quiz) : Quiz := mkQuiz (quizMode q) 0 0.

(** The percentage [updateStats] writes, when it writes one. *)
Definition quizScore (q : Quiz) : option Z :=
  if Z.gtb (quizTotal q) 0
  then Some (Math_round (inject_Z (quizCorrect q) / inject_Z (quizTotal q) * 100))
  else None.

(** ** Processing loop *)

(** One turn of [detectLoop] with the model loaded, after the detector has
    returned [rawPreds]: the body of the [try], left at the first
    exception. *)
Definition detectLoop (now : Q) (clock vocabClock : nat -> Z)
    (rawPreds : list RawDetection) (vw vh cw ch : Q) (st : State) : State :=
  let '(result, cands) := filter DICT SIZE_RANGES (tracked st) clock rawPreds vw vh in
  let st := mkState cands (currentDetections st) (smoothed st) (store st)
              (frameCount st) (fps st) (fpsUpdateTime st) in
  match result with
  | TypeError => st
  | Ok preds =>
      let '(drawn, sm) := renderSmooth vw vh cw ch preds (smoothed st) in
      let st := mkState (tracked st) preds sm (store st)
                  (frameCount st) (fps st) (fpsUpdateTime st) in
      match drawn with
      | TypeError => st
      | Ok _ =>
          let '(done, sto) := trackVocab vocabClock preds (store st) in
          let st := mkState (tracked st) preds sm sto
                      (frameCount st) (fps st) (fpsUpdateTime st) in
          match done with
          | TypeError => st
          | Ok _ =>
              let count := (frameCount st + 1)%Z in
              if Qgtb (now - fpsUpdateTime st) 1000
              then mkState (tracked st) preds sm sto 0 count now
              else mkState (tracked st) preds sm sto count (fps st) (fpsUpdateTime st)
          end
      end
  end.

(** The change of language: smoother and tracker start afresh. *)
Definition changeLanguage (st : State) : State :=
  mkState (reset (tracked st)) (currentDetections st)
    (clearSmooth (smoothed st))
    (store st) (frameCount st) (fps st) (fpsUpdateTime st).

End Dictionary.

End App.

(** * The pipeline of detector.js

    The script [detector.js] holds an earlier [DetectionPipeline]: no aspect
    scoring, no score floor, no class lock, other constants and confusion
    groups.  Its detections stay the objects the detector returned.  [iou]
    reads the boxes as the later script does; candidates, keys and the set
    [nowKeys] are the same data. *)

Module Detector.

Definition CONFIRM_FRAMES : Z := 5.
Definition NMS_THRESHOLD : Q := 0.45.
Definition CONFUSION_THRESHOLD : Q := 0.3.
Definition DECAY_RATE : Z := 2.

Definition CONFUSE_GROUPS : list (list string) :=
  [ ["cell phone"; "remote"; "mouse"; "hair drier"];
    ["cup"; "bowl"; "vase"];
    ["knife"; "scissors"];
    ["couch"; "bed"];
    ["skateboard"; "surfboard"];
    ["laptop"; "tv"; "book"];
    ["backpack"; "handbag"; "suitcase"] ]%string.

Definition confuseMap (c : string) : option nat := confuseMapFrom 0 CONFUSE_GROUPS c.

(** What the loop over the resolved detections changes. *)
Record Tracking : Type := mkTracking {
  candidates : Candidates;
  nowKeys : list Key;
  confirmed : list RawDetection
}.

Section Pipeline.

Variable DICT : option (string -> option DictEntry).
Variable SIZE_RANGES : option (string -> option SizeRange).

(** Size validation; the quotient by a [videoArea] of 0 is written out as in
    the later script. *)
Definition validateSize (pred : RawDetection) (videoArea : Q) : Res bool :=
  match DICT, SIZE_RANGES with
  | Some dict, Some ranges =>
      match dict (raw_class pred) with
      | None => Ok true
      | Some entry =>
          match size entry with
          | None => Ok true
          | Some sz =>
              if String.eqb sz "" then Ok true
              else
                b <- index (raw_bbox pred) ;;
                let boxArea := box_w b * box_h b in
                match ranges sz with
                | None => Ok true
                | Some range =>
                    if Qeq_bool videoArea 0 then Ok false
                    else
                      let ratio := boxArea / videoArea in
                      Ok (Qgeb ratio (range_min range * 0.5)
                          && Qle_bool ratio (range_max range * 2))
                end
          end
      end
  | _, _ => Ok true
  end.

(** Step 1: [preds.sort((a, b) => b.score - a.score)], a stable sort. *)
Fixpoint insertDesc (p : RawDetection) (l : list RawDetection) : list RawDetection :=
  match l with
  | [] => [p]
  | q :: l' =>
      if Qltb (raw_score p) (raw_score q) then q :: insertDesc p l' else p :: q :: l'
  end.

Fixpoint sortDesc (l : list RawDetection) : list RawDetection :=
  match l with
  | [] => []
  | p :: l' => insertDesc p (sortDesc l')
  end.

(** Step 3. *)
Fixpoint nmsDominated (p : RawDetection) (kept : list RawDetection) : Res bool :=
  match kept with
  | [] => Ok false
  | k :: ks =>
      v <- iouJS (raw_bbox p) (raw_bbox k) ;;
      if Qgtb v NMS_THRESHOLD then Ok true else nmsDominated p ks
  end.

Fixpoint nms (preds kept : list RawDetection) : Res (list RawDetection) :=
  match preds with
  | [] => Ok kept
  | p :: ps =>
      dominated <- nmsDominated p kept ;;
      nms ps (if dominated then kept else kept ++ [p])
  end.

(** Step 4. *)
Fixpoint confusionDominated (p : RawDetection) (grp : nat)
    (resolved : list RawDetection) : Res bool :=
  match resolved with
  | [] => Ok false
  | r :: rs =>
      hit <- match confuseMap (raw_class r) with
             | Some rGrp =>
                 if Nat.eqb rGrp grp
                 then v <- iouJS (raw_bbox p) (raw_bbox r) ;;
                      Ok (Qgtb v CONFUSION_THRESHOLD)
                 else Ok false
             | None => Ok false
             end ;;
      if hit then Ok true else confusionDominated p grp rs
  end.

Fixpoint confusion (kept resolved : list RawDetection) : Res (list RawDetection) :=
  match kept with
  | [] => Ok resolved
  | p :: ps =>
      match confuseMap (raw_class p) with
      | Some grp =>
          dominated <- confusionDominated p grp resolved ;;
          confusion ps (if dominated then resolved else resolved ++ [p])
      | None => confusion ps (resolved ++ [p])
      end
  end.

Definition pipeline (rawPreds : list RawDetection) (videoWidth videoHeight : Q)
  : Res (list RawDetection) :=
  let videoArea := videoWidth * videoHeight in
  let preds := sortDesc rawPreds in
  preds <- filterM (fun p => validateSize p videoArea) preds ;;
  kept <- nms preds [] ;;
  confusion kept [].

(** Step 5. *)
Definition freshKey (p : RawDetection) (now : Z) : Res Key :=
  b <- index (raw_bbox p) ;;
  Ok (mkKey (raw_class p) (Math_round (box_x b / 40)) (Math_round (box_y b / 40)) now).

Fixpoint findMatch (p : RawDetection) (cands : Candidates) : Res (option Key) :=
  match cands with
  | [] => Ok None
  | (key, c) :: rest =>
      exact <- (if String.eqb (Candidate.cls c) (raw_class p)
                then v <- iouJS (Candidate.bbox c) (raw_bbox p) ;; Ok (Qgtb v 0.25)
                else Ok false) ;;
      if exact then Ok (Some key) else findMatch p rest
  end.

Definition bump (p : RawDetection) (c : Candidate.t) : Candidate.t :=
  Candidate.mk (Candidate.cls c)
    (Candidate.score c * 0.6 + raw_score p * 0.4)
    (Candidate.frames c + 1)
    (raw_bbox p).

Definition newCandidate (p : RawDetection) : Candidate.t :=
  Candidate.mk (raw_class p) (raw_score p) 1 (raw_bbox p).

(** The body of [for (const p of resolved)]. *)
Definition trackOne (now : Z) (t : Tracking) (p : RawDetection) : Res Tracking :=
  matchedKey <- findMatch p (candidates t) ;;
  rKey <- match matchedKey with
          | Some k => Ok k
          | None => freshKey p now
          end ;;
  let seen := add rKey (nowKeys t) in
  let cands :=
    match assoc key_eqb rKey (candidates t) with
    | None => candidates t ++ [(rKey, newCandidate p)]
    | Some _ => update rKey (bump p) (candidates t)
    end in
  match assoc key_eqb rKey cands with
  | Some c =>
      Ok (mkTracking cands seen
            (if Z.geb (Candidate.frames c) CONFIRM_FRAMES
             then confirmed t ++ [p] else confirmed t))
  | None => TypeError
  end.

Fixpoint trackLoop (clock : nat -> Z) (i : nat) (resolved : list RawDetection)
    (t : Tracking) : Tracking * bool :=
  match resolved with
  | [] => (t, true)
  | p :: ps =>
      match trackOne (clock i) t p with
      | Ok t' => trackLoop clock (S i) ps t'
      | TypeError => (t, false)
      end
  end.

(** Decay stale candidates. *)
Fixpoint decay (seen : list Key) (cands : Candidates) : Candidates :=
  match cands with
  | [] => []
  | (key, c) :: rest =>
      if has key seen then (key, c) :: decay seen rest
      else
        let c' := Candidate.mk (Candidate.cls c) (Candidate.score c)
                    (Candidate.frames c - DECAY_RATE) (Candidate.bbox c) in
        if Z.leb (Candidate.frames c') 0 then decay seen rest
        else (key, c') :: decay seen rest
  end.

(** [filter(rawPreds, videoWidth, videoHeight)] on the candidate map
    [cands]: what it returns, or the exception, and the map it leaves. *)
Definition filter (cands : Candidates) (clock : nat -> Z)
    (rawPreds : list RawDetection) (videoWidth videoHeight : Q)
  : Res (list RawDetection) * Candidates :=
  match pipeline rawPreds videoWidth videoHeight with
  | Ok resolved =>
      let '(t, completed) := trackLoop clock 0 resolved (mkTracking cands [] []) in
      if completed
      then (Ok (confirmed t), decay (nowKeys t) (candidates t))
      else (TypeError, candidates t)
  | TypeError => (TypeError, cands)
  end.

End Pipeline.

End Detector.

(** * Specification vocabulary *)

(** A call of a number-valued function returns a number equal to [v]. *)
Definition yields (r : Res Q) (v : Q) : Prop :=
  match r with
  | Ok m => m == v
  | TypeError => False
  end.

(** [subseq l l']: [l] is [l'] with some elements left out, order kept. *)
Inductive subseq {A : Type} : list A -> list A -> Prop :=
| subseq_nil : subseq [] []
| subseq_skip (a : A) (l l' : list A) : subseq l l' -> subseq l (a :: l')
| subseq_keep (a : A) (l l' : list A) : subseq l l' -> subseq (a :: l) (a :: l').

(** Both detections carry a box and the two overlap with an IoU of at most
    [thr]. *)
Definition overlapAtMost (thr : Q) (a b : Pred) : Prop :=
  exists ba bb, bbox a = Some ba /\ bbox b = Some bb /\ iou ba bb <= thr.

(** The detection carries a bounding box. *)
Definition boxed (p : Pred) : Prop := exists b, bbox p = Some b.
Definition rawBoxed (p : RawDetection) : Prop := exists b, raw_bbox p = Some b.

(** An object has one value per key. *)
Definition uniqueKeys (cands : Candidates) : Prop := NoDup (map fst cands).

(** Every candidate of the map has a streak of at least 1. *)
Definition live (cands : Candidates) : Prop :=
  Forall (fun kc => (1 <= Candidate.frames (snd kc))%Z) cands.

(** The candidate maps the tracker can be in: the empty map of a fresh
    page, and what a call of [filter] (returning or throwing) or [reset]
    leaves. *)
Inductive reachable (DICT : option (string -> option DictEntry))
    (SIZE_RANGES : option (string -> option SizeRange)) : Candidates -> Prop :=
| reach_init : reachable DICT SIZE_RANGES []
| reach_filter (cands : Candidates) (clock : nat -> Z)
    (rawPreds : list RawDetection) (videoWidth videoHeight : Q) :
    reachable DICT SIZE_RANGES cands ->
    reachable DICT SIZE_RANGES
      (snd (filter DICT SIZE_RANGES cands clock rawPreds videoWidth videoHeight))
| reach_reset (cands : Candidates) :
    reachable DICT SIZE_RANGES cands ->
    reachable DICT SIZE_RANGES (reset cands).

(** What one turn of the loop over [resolved] does for the detection [p]:
    it creates a candidate, or updates the one [p] matches, or lets an
    established candidate keep the region. *)
Inductive stepEffect (p : Pred) (t t' : Tracking) : Prop :=
| eff_create (k : Key) :
    assoc key_eqb k (candidates t) = None ->
    candidates t' = candidates t ++ [(k, newCandidate p)] ->
    nowKeys t' = add k (nowKeys t) ->
    confirmed t' = confirmed t ->
    stepEffect p t t'
| eff_match (k : Key) (c : Candidate.t) :
    assoc key_eqb k (candidates t) = Some c ->
    candidates t' = update k (fun _ => bump p c) (candidates t) ->
    nowKeys t' = add k (nowKeys t) ->
    confirmed t' =
      (if Z.geb (Candidate.frames c + 1) CONFIRM_FRAMES
       then confirmed t ++ [p] else confirmed t) ->
    stepEffect p t t'
| eff_lock (k kNew : Key) (c : Candidate.t) :
    assoc key_eqb k (candidates t) = Some c ->
    (CLASS_LOCK_FRAMES <= Candidate.frames c)%Z ->
    candidates t' = update k (fun _ => keepClass p c) (candidates t) ->
    nowKeys t' = add k (add kNew (nowKeys t)) ->
    confirmed t' =
      confirmed t ++
      [withClassScore p (Candidate.cls c) (Candidate.score (keepClass p c))] ->
    stepEffect p t t'.

(** The operations of the tracker's interface, and a history of them. *)
Inductive Op : Type :=
| OpFilter (clock : nat -> Z) (rawPreds : list RawDetection) (videoWidth videoHeight : Q)
| OpReset.

Definition applyOp (DICT : option (string -> option DictEntry))
    (SIZE_RANGES : option (string -> option SizeRange))
    (cands : Candidates) (op : Op) : Candidates :=
  match op with
  | OpFilter clock rawPreds videoWidth videoHeight =>
      snd (filter DICT SIZE_RANGES cands clock rawPreds videoWidth videoHeight)
  | OpReset => reset cands
  end.

(** The key [k] names a candidate after each operation of the history. *)
Fixpoint presentThroughout (DICT : option (string -> option DictEntry))
    (SIZE_RANGES : option (string -> option SizeRange))
    (k : Key) (ops : list Op) (cands : Candidates) : Prop :=
  match ops with
  | [] => True
  | op :: ops' =>
      assoc key_eqb k (applyOp DICT SIZE_RANGES cands op) <> None
      /\ presentThroughout DICT SIZE_RANGES k ops' (applyOp DICT SIZE_RANGES cands op)
  end.

(** [n] consecutive calls of [filter] on the same input, the first one on the
    map [cands]: what each call returns, and the map after the last.
    [clocks call] is the clock of the call numbered [call]. *)
Fixpoint feed (DICT : option (string -> option DictEntry))
    (SIZE_RANGES : option (string -> option SizeRange))
    (clocks : nat -> nat -> Z) (n call : nat) (cands : Candidates)
    (rawPreds : list RawDetection) (videoWidth videoHeight : Q)
  : list (Res (list Pred)) * Candidates :=
  match n with
  | O => ([], cands)
  | S n' =>
      let step :=
        filter DICT SIZE_RANGES cands (clocks call) rawPreds videoWidth videoHeight in
      let rest :=
        feed DICT SIZE_RANGES clocks n' (S call) (snd step)
          rawPreds videoWidth videoHeight in
      (fst step :: fst rest, snd rest)
  end.

(** The call of [filter] returns and no detection of it touches the
    candidate under [k]: the key is not in [nowKeys] when the loop over the
    resolved detections ends. *)
Definition unmatchedCall (DICT : option (string -> option DictEntry))
    (SIZE_RANGES : option (string -> option SizeRange))
    (cands : Candidates) (call : Op) (k : Key) : Prop :=
  match call with
  | OpFilter clock rawPreds videoWidth videoHeight =>
      exists resolved t,
        pipeline DICT SIZE_RANGES rawPreds videoWidth videoHeight = Ok resolved
        /\ trackLoop clock 0 resolved (mkTracking cands [] []) = (t, true)
        /\ has k (nowKeys t) = false
  | OpReset => False
  end.

(** The streak of the candidate under [k], if there is one. *)
Definition streak (cands : Candidates) (k : Key) : option Z :=
  option_map Candidate.frames (assoc key_eqb k cands).

(** The two matches of the search over the candidates: same class and
    IoU above 0.25; IoU above 0.4 whatever the class. *)
Definition exactMatch (p : Pred) (c : Candidate.t) : Prop :=
  Candidate.cls c = class p
  /\ exists bc bp, Candidate.bbox c = Some bc /\ bbox p = Some bp /\ 0.25 < iou bc bp.

Definition spatialMatch (p : Pred) (c : Candidate.t) : Prop :=
  exists bc bp, Candidate.bbox c = Some bc /\ bbox p = Some bp /\ 0.4 < iou bc bp.

Definition candidateBoxed (kc : Key * Candidate.t) : Prop :=
  exists b, Candidate.bbox (snd kc) = Some b.

(** [(k, c)] is the first candidate, in the order of the map, that matches
    [p] spatially. *)
Definition firstSpatialMatch (p : Pred) (cands : Candidates) (k : Key)
    (c : Candidate.t) : Prop :=
  exists before after,
    cands = before ++ (k, c) :: after
    /\ spatialMatch p c
    /\ Forall (fun kc => ~ spatialMatch p (snd kc)) before.

(** ** Confusion groups and provenance *)

(** The classes of the two detections are in one confusion group. *)
Definition sameGroup (a b : Pred) : Prop :=
  exists g, confuseMap (class a) = Some g /\ confuseMap (class b) = Some g.

(** Two detections of one group overlap with an IoU of at most
    [CONFUSION_THRESHOLD]. *)
Definition confusionFree (a b : Pred) : Prop :=
  sameGroup a b -> overlapAtMost CONFUSION_THRESHOLD a b.

(** The order of step 2, and what makes the tie-break of step 6 follow it. *)
Definition ranksBefore (a b : Pred) : Prop := score b <= score a.

Definition fitIsScore (p : Pred) : Prop := fit p == score p.

(** [r] is the resolved detection [s], as it is or with class and score
    replaced by the class-lock override. *)
Definition derivedFrom (r s : Pred) : Prop :=
  r = s \/ exists cls sc, r = withClassScore s cls sc.

(** The list a call returned; empty if it threw. *)
Definition returned {A : Type} (r : Res (list A)) : list A :=
  match r with
  | Ok l => l
  | TypeError => []
  end.

(** ** A scene

    A region of aspect 0.8, inside the window of "cup" (0.6 to 1.6) and of
    "bowl" (0.3 to 0.9), on a 640 x 480 frame; a clock that stands still; no
    class dictionary loaded. *)
Definition region : BBox := mkBBox 100 100 50 40.
Definition stillClock : nat -> Z := fun _ => 0%Z.
Definition cupAt (s : Q) : RawDetection := mkRaw "cup" (Some region) s.
Definition bowlAt (s : Q) : RawDetection := mkRaw "bowl" (Some region) s.

(** A candidate locked on "cup" (streak 12, score 0.5) and the tracking
    state of a call that starts on it. *)
Definition lockedCupKey : Key := mkKey "cup" 3 3 0.
Definition lockedCup : Candidate.t := Candidate.mk "cup" 0.5 12 (Some region).
Definition lockedOnCup : Tracking := mkTracking [(lockedCupKey, lockedCup)] [] [].

(** A resolved "bowl" detection on the region, of raw score [s]. *)
Definition bowlPred (s : Q) : Pred := mkPred "bowl" (Some region) (s * 1.0) s 1.0.

(** Two objects side by side, a "cup" and a "bowl"; then a frame in which
    the detector calls the first a "laptop" and sees both shifted. *)
Definition shelf : list RawDetection :=
  [ mkRaw "cup" (Some (mkBBox 0 0 100 80)) 0.9;
    mkRaw "bowl" (Some (mkBBox 145 0 100 80)) 0.9 ].
Definition shifted : list RawDetection :=
  [ mkRaw "laptop" (Some (mkBBox 40 0 100 80)) 0.9;
    mkRaw "bowl" (Some (mkBBox 90 0 100 80)) 0.8 ].

(** A "cup" candidate that has just been confirmed, a frame in which the
    detector sees only a person elsewhere, and clocks that tick with the
    calls. *)
Definition confirmedCup : Candidate.t := Candidate.mk "cup" 0.5 8 (Some region).
Definition personOnly : Op :=
  OpFilter stillClock [mkRaw "person" (Some (mkBBox 400 200 80 200)) 0.9] 640 480.
Definition tickingClocks : nat -> nat -> Z := fun call _ => Z.of_nat (1000 + 16 * call).
Definition cupPred : Pred := mkPred "cup" (Some region) (0.5 * 1.0) 0.5 1.0.

(** ** Vocabulary of the further properties *)


(** Steps 1 to 4 of [filter]: the scored detections, sorted, that pass the
    size validation and the score floor.  [pipeline] runs steps 5 and 6 on
    this list ([pipeline_admitted]). *)
Definition admitted (DICT : option (string -> option DictEntry))
    (SIZE_RANGES : option (string -> option SizeRange))
    (rawPreds : list RawDetection) (videoWidth videoHeight : Q)
  : Res (list Pred) :=
  preds <- mapM scoreOne rawPreds ;;
  preds <- filterM (fun p => validateSize DICT SIZE_RANGES p (videoWidth * videoHeight))
             (sortDesc preds) ;;
  Ok (List.filter scoreFloor preds).


(** Consecutive calls that all leave the candidate under [k] unmatched. *)
Fixpoint unmatchedRun (DICT : option (string -> option DictEntry))
    (SIZE_RANGES : option (string -> option SizeRange))
    (cands : Candidates) (calls : list Op) (k : Key) : Prop :=
  match calls with
  | [] => True
  | call :: calls' =>
      unmatchedCall DICT SIZE_RANGES cands call k
      /\ unmatchedRun DICT SIZE_RANGES (applyOp DICT SIZE_RANGES cands call) calls' k
  end.

(** The key of every candidate records the candidate's class. *)
Definition keyed (cands : Candidates) : Prop :=
  Forall (fun kc => key_class (fst kc) = Candidate.cls (snd kc)) cands.


(** The candidate behind a confirmed detection [r]: seen in this call, of
    the class of [r], with a streak of at least [CONFIRM_FRAMES]. *)
Definition backed (t : Tracking) (r : Pred) : Prop :=
  exists k c,
    assoc key_eqb k (candidates t) = Some c
    /\ has k (nowKeys t) = true
    /\ key_class k = class r
    /\ Candidate.cls c = class r
    /\ (CONFIRM_FRAMES <= Candidate.frames c)%Z.

(** ** Vocabulary of the application *)

(** A call of [renderSmooth]: the sizes of video and canvas and the
    confirmed detections; [applyRender] is what it leaves of [smoothed]. *)
Record Render : Type := mkRender {
  r_vw : Q; r_vh : Q; r_cw : Q; r_ch : Q; r_preds : list Pred
}.

Definition applyRender (DICT : option (string -> option DictEntry))
    (sm : App.Smoothed) (r : Render) : App.Smoothed :=
  snd (App.renderSmooth DICT (r_vw r) (r_vh r) (r_cw r) (r_ch r) (r_preds r) sm).

(** The detections carry boxes and none is of the class [c]. *)
Definition withoutClass (c : string) (preds : list Pred) : Prop :=
  Forall (fun p => boxed p /\ class p <> c) preds.

(** The entry [s] after [m] more frames without an update. *)
Definition aged (m : Z) (s : App.Smooth.t) : App.Smooth.t :=
  App.Smooth.mk (App.Smooth.x s) (App.Smooth.y s) (App.Smooth.w s) (App.Smooth.h s)
    (App.Smooth.age s + m) (App.Smooth.n s).

(** The entry of a class after [updateSmooth], from the one before. *)
Definition smoothedEntry (rx ry rw rh : Q) (old : option App.Smooth.t) : App.Smooth.t :=
  match old with
  | None => App.Smooth.mk rx ry rw rh 0 1
  | Some s =>
      App.Smooth.mk (App.lerp (App.Smooth.x s) rx App.SMOOTH)
        (App.lerp (App.Smooth.y s) ry App.SMOOTH)
        (App.lerp (App.Smooth.w s) rw App.SMOOTH)
        (App.lerp (App.Smooth.h s) rh App.SMOOTH)
        0 (App.Smooth.n s + 1)
  end.

(** A frame in which the smoother sees the class [c] once, at the raw
    position given. *)
Definition smoothFrame (c : string) (rx ry rw rh : Q) (sm : App.Smoothed)
  : App.Smoothed :=
  App.ageSmooth (App.updateSmooth c rx ry rw rh sm).

(** Every entry of [smoothed] has an age from 0 to 30, and no class has two
    entries. *)
Definition agesWithin (sm : App.Smoothed) : Prop :=
  NoDup (map fst sm)
  /\ Forall (fun cs => (0 <= App.Smooth.age (snd cs) <= 30)%Z) sm.

(** The number of detections of the class [c]. *)
Definition occurrences (c : string) (preds : list Pred) : Z :=
  Z.of_nat (length (List.filter (fun p => String.eqb (class p) c) preds)).

(** How often the vocabulary has counted the class [c]. *)
Definition counted (c : string) (v : App.Vocab) : Z :=
  match assoc String.eqb c v with
  | Some w => App.Word.count w
  | None => 0
  end.

(** [stored] lists the words of [current], in order and with their dates,
    and no count of it exceeds the current one. *)
Definition snapshotOf (stored current : App.Vocab) : Prop :=
  Forall2 (fun a b => fst a = fst b
                      /\ App.Word.discovered (snd a) = App.Word.discovered (snd b)
                      /\ (App.Word.count (snd a) <= App.Word.count (snd b))%Z)
    stored current.

(** What a reload of the page would read back is a snapshot of the
    vocabulary. *)
Definition persisted (st : App.Store) : Prop :=
  snapshotOf (App.vocab (App.loadVocab (App.ll_vocab st))) (App.vocab st).

(** The states of the page: a fresh page with whatever [localStorage]
    holds, and what a turn of the processing loop, a change of language, or
    clearing the vocabulary leaves. *)
Inductive appReachable (DICT : option (string -> option DictEntry))
    (SIZE_RANGES : option (string -> option SizeRange)) : App.State -> Prop :=
| app_init (item : option App.Vocab) :
    appReachable DICT SIZE_RANGES
      (App.mkState [] [] [] (App.loadVocab item) 0 0 0)
| app_frame (now : Q) (clock vocabClock : nat -> Z) (rawPreds : list RawDetection)
    (vw vh cw ch : Q) (st : App.State) :
    appReachable DICT SIZE_RANGES st ->
    appReachable DICT SIZE_RANGES
      (App.detectLoop DICT SIZE_RANGES now clock vocabClock rawPreds vw vh cw ch st)
| app_language (st : App.State) :
    appReachable DICT SIZE_RANGES st ->
    appReachable DICT SIZE_RANGES (App.changeLanguage st)
| app_clear (st : App.State) :
    appReachable DICT SIZE_RANGES st ->
    appReachable DICT SIZE_RANGES
      (App.mkState (App.tracked st) (App.currentDetections st) (App.smoothed st)
         (App.clearVocab (App.store st))
         (App.frameCount st) (App.fps st) (App.fpsUpdateTime st)).

(** The states of the quiz: off with both counters at 0, then clicks on
    labels (revealed or not), the quiz button, and the reset. *)
Inductive quizReachable : App.Quiz -> Prop :=
| quiz_init : quizReachable (App.mkQuiz false 0 0)
| quiz_click (q : App.Quiz) (revealed : bool) :
    quizReachable q -> quizReachable (fst (App.clickLabel q revealed))
| quiz_toggle (q : App.Quiz) : quizReachable q -> quizReachable (App.toggleQuiz q)
| quiz_reset (q : App.Quiz) : quizReachable q -> quizReachable (App.resetQuiz q).

(** ** A page

    A dictionary that knows every class, a fresh page, and a "cup" entry of
    the smoother last updated in the frame before. *)
Definition everyClass : option (string -> option DictEntry) :=
  Some (fun _ => Some (mkEntry None)).
Definition freshPage : App.State := App.mkState [] [] [] (App.loadVocab None) 0 0 0.
Definition cupEntry : App.Smooth.t := App.Smooth.mk 200 100 50 40 1 1.

(** ** Vocabulary of detector.js *)



(** [n] consecutive calls of the [filter] of [detector.js] on the same
    input: what each returns, and the map after the last. *)
Fixpoint rawFeed (DICT : option (string -> option DictEntry))
    (SIZE_RANGES : option (string -> option SizeRange))
    (clocks : nat -> nat -> Z) (n call : nat) (cands : Candidates)
    (rawPreds : list RawDetection) (videoWidth videoHeight : Q)
  : list (Res (list RawDetection)) * Candidates :=
  match n with
  | O => ([], cands)
  | S n' =>
      let step :=
        Detector.filter DICT SIZE_RANGES cands (clocks call) rawPreds
          videoWidth videoHeight in
      let rest :=
        rawFeed DICT SIZE_RANGES clocks n' (S call) (snd step)
          rawPreds videoWidth videoHeight in
      (fst step :: fst rest, snd rest)
  end.

(** ** Vocabulary of scores and positions *)

(** [v] lies between [a] and [b], whichever of the two is the larger. *)
Definition between (a b v : Q) : Prop :=
  (a <= v /\ v <= b) \/ (b <= v /\ v <= a).

(** Every candidate of the map has a score of at least the floor of
    step 4. *)
Definition scoresAboveFloor (cands : Candidates) : Prop :=
  Forall (fun kc => 0.45 <= Candidate.score (snd kc)) cands.

(** A detection moved by [(dx, dy)], before and after step 1, and a result
    under a function. *)
Definition shiftBox (dx dy : Q) (b : BBox) : BBox :=
  mkBBox (box_x b + dx) (box_y b + dy) (box_w b) (box_h b).

Definition shiftRaw (dx dy : Q) (d : RawDetection) : RawDetection :=
  mkRaw (raw_class d) (option_map (shiftBox dx dy) (raw_bbox d)) (raw_score d).

Definition shiftPred (dx dy : Q) (p : Pred) : Pred :=
  mkPred (class p) (option_map (shiftBox dx dy) (bbox p)) (score p)
    (_origScore p) (_aspectScore p).

Definition mapRes {A B : Type} (f : A -> B) (r : Res A) : Res B :=
  match r with
  | Ok a => Ok (f a)
  | TypeError => TypeError
  end.

(** ** Vocabulary of the input items *)

(** [filterM] throws when the test throws on some item, and filters
    otherwise. *)
Definition returns {A B : Type} (f : A -> Res B) (a : A) : bool :=
  match f a with Ok _ => true | TypeError => false end.

Definition verdict {A : Type} (f : A -> Res bool) (a : A) : bool :=
  match f a with Ok keep => keep | TypeError => false end.

(** The steps that read the box of an item before step 5: step 1 when the
    class has an aspect hint ([!hint]), step 3 when the dictionary is loaded
    and gives the class a size ([!DICT || !SIZE_RANGES], [!entry ||
    !entry.size]). *)
Definition hinted (cls : string) : bool :=
  match assoc String.eqb cls ASPECT_HINTS with
  | Some _ => true
  | None => false
  end.

Definition sizeChecked (DICT : option (string -> option DictEntry))
    (SIZE_RANGES : option (string -> option SizeRange)) (cls : string) : bool :=
  match DICT, SIZE_RANGES with
  | Some dict, Some _ =>
      match dict cls with
      | Some entry =>
          match size entry with
          | Some sz => negb (String.eqb sz "")
          | None => false
          end
      | None => false
      end
  | _, _ => false
  end.

Definition readsBox (DICT : option (string -> option DictEntry))
    (SIZE_RANGES : option (string -> option SizeRange)) (cls : string) : bool :=
  hinted cls || sizeChecked DICT SIZE_RANGES cls.

(** ** Vocabulary of streaks *)

(** The number of raw detections a call hands to [filter]; [reset] takes
    none. *)
Definition detectionsOf (op : Op) : Z :=
  match op with
  | OpFilter _ rawPreds _ _ => Z.of_nat (length rawPreds)
  | OpReset => 0%Z
  end.

Definition detectionsIn (ops : list Op) : Z :=
  fold_right (fun op n => (detectionsOf op + n)%Z) 0%Z ops.

(** No candidate of the map has a streak above [n]. *)
Definition streaksAtMost (n : Z) (cands : Candidates) : Prop :=
  Forall (fun kc => (Candidate.frames (snd kc) <= n)%Z) cands.

(** Two people side by side, their boxes overlapping with IoU 1/3. *)
Definition twoPeople : list RawDetection :=
  [ mkRaw "person" (Some (mkBBox 0 0 100 80)) 0.9;
    mkRaw "person" (Some (mkBBox 50 0 100 80)) 0.8 ].

(** A "cup" of raw score 1 on a box of width 0. *)
Definition flatCup : RawDetection := mkRaw "cup" (Some (mkBBox 100 100 0 40)) 1.

(** * Facts about numbers, keys and lists *)

Lemma Qgtb_true (a b : Q) : Qgtb a b = true <-> b < a.
Proof.
  unfold Qgtb. rewrite negb_true_iff, <- not_true_iff_false, Qle_bool_iff.
  split; [apply Qnot_le_lt | apply Qlt_not_le].
Qed.

Lemma Qgtb_false (a b : Q) : Qgtb a b = false <-> a <= b.
Proof. unfold Qgtb. rewrite negb_false_iff. apply Qle_bool_iff. Qed.

Lemma Qltb_true (a b : Q) : Qltb a b = true <-> a < b.
Proof. apply Qgtb_true. Qed.

Lemma Qltb_false (a b : Q) : Qltb a b = false <-> b <= a.
Proof. apply Qgtb_false. Qed.

Lemma Qgeb_true (a b : Q) : Qgeb a b = true <-> b <= a.
Proof. apply Qle_bool_iff. Qed.

Lemma Qgeb_false (a b : Q) : Qgeb a b = false <-> a < b.
Proof.
  unfold Qgeb. rewrite <- not_true_iff_false, Qle_bool_iff.
  split; [apply Qnot_le_lt | apply Qlt_not_le].
Qed.

Lemma Qle_bool_false (a b : Q) : Qle_bool a b = false <-> b < a.
Proof. rewrite <- negb_true_iff. apply Qgtb_true. Qed.

Lemma assoc_In {A : Type} (k : string) (l : list (string * A)) (a : A) :
  assoc String.eqb k l = Some a -> In (k, a) l.
Proof.
  induction l as [|[k' a'] l IH]; simpl; [discriminate|].
  destruct (String.eqb_spec k k') as [-> |_].
  - intros [= ->]. now left.
  - intros H. right. now apply IH.
Qed.

(** Every hint window is a proper interval of positive ratios. *)
Lemma ASPECT_HINTS_windows :
  Forall (fun kh => 0 < AspectHint.min (snd kh)
                    /\ AspectHint.min (snd kh) < AspectHint.max (snd kh))
         ASPECT_HINTS.
Proof. repeat constructor. Qed.

Lemma hint_window (cls : string) (hint : AspectHint.t) :
  assoc String.eqb cls ASPECT_HINTS = Some hint ->
  0 < AspectHint.min hint /\ AspectHint.min hint < AspectHint.max hint.
Proof.
  intros H. apply assoc_In in H.
  exact (proj1 (Forall_forall _ _) ASPECT_HINTS_windows _ H).
Qed.

(** Case analysis on the first call of a sequence in [Res]. *)
Ltac bind_ok H :=
  match type of H with
  | bind ?m _ = Ok _ =>
      let E := fresh "E" in
      destruct m eqn:E; simpl in H; [|discriminate H]
  end.

Lemma subseq_refl {A : Type} (l : list A) : subseq l l.
Proof. induction l; constructor; assumption. Qed.

Lemma subseq_nil_l {A : Type} (l : list A) : subseq [] l.
Proof. induction l; constructor; assumption. Qed.

Lemma subseq_In {A : Type} (l l' : list A) (a : A) :
  subseq l l' -> In a l -> In a l'.
Proof.
  induction 1 as [|b l l' _ IH|b l l' _ IH]; simpl; intros H; auto.
  destruct H as [-> |H]; auto.
Qed.

Lemma subseq_trans {A : Type} (l1 l2 l3 : list A) :
  subseq l1 l2 -> subseq l2 l3 -> subseq l1 l3.
Proof.
  intros H12 H23. revert l1 H12.
  induction H23 as [|a l2 l3 _ IH|a l2 l3 _ IH]; intros l1 H12.
  - assumption.
  - constructor. now apply IH.
  - inversion H12; subst; constructor; now apply IH.
Qed.

Lemma subseq_app_tail {A : Type} (l l' : list A) (a : A) :
  subseq l l' -> subseq (l ++ [a]) (l' ++ [a]).
Proof.
  induction 1; simpl.
  - apply subseq_keep, subseq_nil.
  - now apply subseq_skip.
  - now apply subseq_keep.
Qed.

Lemma subseq_app_skip {A : Type} (l l' : list A) (a : A) :
  subseq l l' -> subseq l (l' ++ [a]).
Proof.
  induction 1; simpl.
  - apply subseq_skip, subseq_nil.
  - now apply subseq_skip.
  - now apply subseq_keep.
Qed.

Lemma filter_subseq {A : Type} (f : A -> bool) (l : list A) :
  subseq (List.filter f l) l.
Proof.
  induction l as [|a l IH]; simpl; [constructor|].
  destruct (f a); constructor; assumption.
Qed.

Lemma filterM_subseq {A : Type} (f : A -> Res bool) (l l' : list A) :
  filterM f l = Ok l' -> subseq l' l.
Proof.
  revert l'. induction l as [|a l IH]; simpl; intros l' H.
  - injection H as <-. constructor.
  - bind_ok H. bind_ok H. injection H as <-.
    destruct a0; constructor; now apply IH.
Qed.

Lemma mapM_In {A B : Type} (f : A -> Res B) (l : list A) (l' : list B) (b : B) :
  mapM f l = Ok l' -> In b l' -> exists a, In a l /\ f a = Ok b.
Proof.
  revert l'. induction l as [|a l IH]; simpl; intros l' H Hin.
  - injection H as <-. destruct Hin.
  - bind_ok H. bind_ok H. injection H as <-.
    destruct Hin as [-> |Hin].
    + exists a. auto.
    + destruct (IH _ eq_refl Hin) as (a' & Ha' & Hf). exists a'. auto.
Qed.

Lemma insertDesc_In (p q : Pred) (l : list Pred) :
  In q (insertDesc p l) <-> q = p \/ In q l.
Proof.
  induction l as [|r l IH]; simpl.
  - intuition auto.
  - destruct (Qltb (score p) (score r)); simpl; [rewrite IH|]; intuition auto.
Qed.

Lemma sortDesc_In (q : Pred) (l : list Pred) : In q (sortDesc l) <-> In q l.
Proof.
  induction l as [|p l IH]; simpl; [tauto|].
  rewrite insertDesc_In, IH. intuition auto.
Qed.

(** The inner loop of step 5 only reads; the outer loop appends to [kept] a
    subsequence of what it walks. *)
Lemma nms_shape (preds kept result : list Pred) :
  nms preds kept = Ok result ->
  exists added, result = kept ++ added /\ subseq added preds.
Proof.
  revert kept. induction preds as [|p ps IH]; simpl; intros kept H.
  - injection H as <-. exists []. rewrite app_nil_r. split; [reflexivity|constructor].
  - bind_ok H. apply IH in H as (added & -> & Hsub). destruct a.
    + exists added. split; [reflexivity|now constructor].
    + exists (p :: added). rewrite <- app_assoc. split; [reflexivity|now constructor].
Qed.

(** The inner loop of step 6 leaves every entry in place or puts [p] in the
    place of one. *)
Lemma confusionScan_In (p : Pred) (grp : nat) (resolved resolved' : list Pred)
    (dominated : bool) (q : Pred) :
  confusionScan p grp resolved = Ok (dominated, resolved') ->
  In q resolved' -> q = p \/ In q resolved.
Proof.
  revert resolved' dominated.
  induction resolved as [|r rs IH]; simpl; intros resolved' dominated H Hin.
  - injection H as <- <-. destruct Hin.
  - bind_ok H. destruct a.
    + injection H as <- <-. destruct Hin as [<-|Hin]; [|auto].
      destruct (Qgtb (fit p) (fit r)); auto.
    + bind_ok H. destruct a as [d rs']. injection H as <- <-.
      destruct Hin as [<-|Hin]; [auto|].
      destruct (IH _ _ eq_refl Hin); auto.
Qed.

Lemma confusion_In (kept resolved result : list Pred) (q : Pred) :
  confusion kept resolved = Ok result ->
  In q result -> In q resolved \/ In q kept.
Proof.
  revert resolved. induction kept as [|p ps IH]; simpl; intros resolved H Hin.
  - injection H as <-. auto.
  - destruct (confuseMap (class p)) as [grp|].
    + bind_ok H. destruct a as [dominated resolved'].
      destruct (IH _ H Hin) as [Hq|Hq]; [|auto].
      assert (Hq' : In q resolved' \/ q = p).
      { destruct dominated; [auto|]. apply in_app_or in Hq.
        destruct Hq as [Hq|[<-|[]]]; auto. }
      destruct Hq' as [Hq'| ->]; [|auto].
      destruct (confusionScan_In _ _ _ _ _ _ E Hq') as [-> |Hr]; auto.
    + destruct (IH _ H Hin) as [Hq|Hq]; [|auto].
      apply in_app_or in Hq. destruct Hq as [Hq|[<-|[]]]; auto.
Qed.

Section PipelineFacts.

Variable DICT : option (string -> option DictEntry).
Variable SIZE_RANGES : option (string -> option SizeRange).

(** Every resolved detection is the scored form of a raw detection of the
    call. *)
Lemma pipeline_provenance (rawPreds : list RawDetection) (w h : Q)
    (resolved : list Pred) (q : Pred) :
  pipeline DICT SIZE_RANGES rawPreds w h = Ok resolved ->
  In q resolved ->
  exists p, In p rawPreds /\ scoreOne p = Ok q.
Proof.
  unfold pipeline. intros H Hin.
  bind_ok H. bind_ok H. bind_ok H.
  apply (mapM_In _ _ _ _ E).
  apply sortDesc_In.
  apply (subseq_In _ _ _ (filterM_subseq _ _ _ E0)).
  apply (subseq_In _ _ _ (filter_subseq scoreFloor _)).
  destruct (confusion_In _ _ _ _ H Hin) as [[]|Hk].
  apply nms_shape in E1 as (added & -> & Hsub).
  simpl in Hk. now apply (subseq_In _ _ _ Hsub).
Qed.

End PipelineFacts.

(** * Aspect scoring *)

(** C7.  The multiplier [aspectScore] returns: 1 for a class without hint
    (whatever the box); for a class with a hint, 0.5 on a box of width 0, 1
    when [aspect = h / w] lies in the window, and otherwise
    [max(0.3, 1 - distance * weight * 3)] with the distance taken to the
    bound that is missed.  Step 1 keeps class and box, multiplies the score
    by the multiplier and records the raw score and the multiplier; every
    detection the pipeline resolves is such a record of a raw detection. *)
Theorem aspectScore_multiplier :
  (forall cls bbox,
      assoc String.eqb cls ASPECT_HINTS = None ->
      yields (aspectScore cls bbox) 1)
  /\ (forall cls hint b,
        assoc String.eqb cls ASPECT_HINTS = Some hint ->
        let aspect := box_h b / box_w b in
        let lo := AspectHint.min hint in
        let hi := AspectHint.max hint in
        let weight := AspectHint.weight hint in
        (box_w b == 0 -> yields (aspectScore cls (Some b)) 0.5)
        /\ (~ box_w b == 0 -> lo <= aspect <= hi ->
            yields (aspectScore cls (Some b)) 1)
        /\ (~ box_w b == 0 -> aspect < lo ->
            yields (aspectScore cls (Some b))
                   (Qmax 0.3 (1 - (lo - aspect) / lo * weight * 3)))
        /\ (~ box_w b == 0 -> hi < aspect ->
            yields (aspectScore cls (Some b))
                   (Qmax 0.3 (1 - (aspect - hi) / hi * weight * 3))))
  /\ (forall p q,
        scoreOne p = Ok q ->
        exists multiplier,
          aspectScore (raw_class p) (raw_bbox p) = Ok multiplier
          /\ score q = raw_score p * multiplier
          /\ _origScore q = raw_score p
          /\ _aspectScore q = multiplier
          /\ class q = raw_class p /\ bbox q = raw_bbox p)
  /\ (forall DICT SIZE_RANGES rawPreds w h resolved q,
        pipeline DICT SIZE_RANGES rawPreds w h = Ok resolved ->
        In q resolved ->
        exists p, In p rawPreds /\ scoreOne p = Ok q).
Proof.
  split; [|split; [|split]].
  - intros cls bb H. unfold aspectScore. rewrite H. simpl. reflexivity.
  - intros cls hint b H aspect lo hi weight.
    destruct (hint_window _ _ H) as [Hlo Hlohi]. fold lo hi in Hlo, Hlohi.
    unfold aspectScore. rewrite H. simpl.
    repeat split.
    + intros Hw. apply Qeq_bool_iff in Hw. rewrite Hw. simpl. reflexivity.
    + intros Hw [H1 H2].
      destruct (Qeq_bool (box_w b) 0) eqn:E;
        [apply Qeq_bool_iff in E; contradiction|].
      fold aspect lo hi.
      apply Qgeb_true in H1. apply Qle_bool_iff in H2. rewrite H1, H2.
      simpl. reflexivity.
    + intros Hw Ha.
      destruct (Qeq_bool (box_w b) 0) eqn:E;
        [apply Qeq_bool_iff in E; contradiction|].
      fold aspect lo hi weight.
      pose proof (proj2 (Qgeb_false _ _) Ha) as H1.
      pose proof (proj2 (Qltb_true _ _) Ha) as H2.
      rewrite H1, H2. simpl.
      apply Q.max_compat; [reflexivity|]. ring.
    + intros Hw Ha.
      destruct (Qeq_bool (box_w b) 0) eqn:E;
        [apply Qeq_bool_iff in E; contradiction|].
      fold aspect lo hi weight.
      pose proof (proj2 (Qle_bool_false _ _) Ha) as H1.
      assert (H2 : Qltb aspect lo = false).
      { apply Qltb_false. apply Qlt_le_weak.
        apply Qlt_trans with hi; assumption. }
      rewrite H1, H2, andb_false_r. simpl.
      apply Q.max_compat; [reflexivity|]. ring.
  - intros p q H. unfold scoreOne in H. bind_ok H. injection H as <-.
    exists a. simpl. repeat split; reflexivity.
  - intros DICT SIZE_RANGES rawPreds w h resolved q.
    apply pipeline_provenance.
Qed.

(** The rule at work on a tall "bowl": aspect 1.5 is outside 0.3-0.9, the
    distance is 2/3 and the multiplier 0.6. *)
Lemma aspectScore_multiplier_witness :
  yields (aspectScore "bowl" (Some (mkBBox 102 101 40 60)))
         (Qmax 0.3 (1 - (60 / 40 - 0.9) / 0.9 * 0.20 * 3))
  /\ Qmax 0.3 (1 - (60 / 40 - 0.9) / 0.9 * 0.20 * 3) == 0.6.
Proof.
  split; [|reflexivity].
  refine (proj2 (proj2 (proj2
            (proj1 (proj2 aspectScore_multiplier)
               "bowl"%string (AspectHint.mk 0.3 0.9 0.20) (mkBBox 102 101 40 60)
               eq_refl))) _ _).
  - intros E. discriminate E.
  - reflexivity.
Defined.

(** * Non-maximum suppression *)

Lemma iou_sym (a b : BBox) : iou a b == iou b a.
Proof.
  unfold iou. cbv zeta.
  pose proof (Q.max_comm (box_x a) (box_x b)) as Hx1.
  pose proof (Q.max_comm (box_y a) (box_y b)) as Hy1.
  pose proof (Q.min_comm (box_x a + box_w a) (box_x b + box_w b)) as Hx2.
  pose proof (Q.min_comm (box_y a + box_h a) (box_y b + box_h b)) as Hy2.
  rewrite (Qleb_comp _ _ Hx2 _ _ Hx1), (Qleb_comp _ _ Hy2 _ _ Hy1).
  destruct (_ || _); [reflexivity|].
  rewrite Hx1, Hy1, Hx2, Hy2.
  apply Qdiv_comp; [reflexivity|]. ring.
Qed.

Lemma overlapAtMost_sym (thr : Q) (a b : Pred) :
  overlapAtMost thr a b -> overlapAtMost thr b a.
Proof.
  intros (ba & bb & Ha & Hb & H). exists bb, ba. repeat split; try assumption.
  now rewrite iou_sym.
Qed.

Section Pairwise.

Variable A : Type.
Variable R : A -> A -> Prop.
Hypothesis R_sym : forall a b, R a b -> R b a.

Lemma pairwise_snoc (l : list A) (a : A) :
  ForallOrdPairs R l -> Forall (fun k => R k a) l -> ForallOrdPairs R (l ++ [a]).
Proof.
  induction 1 as [|b l Hb _ IH]; simpl; intros Ha.
  - repeat constructor.
  - inversion Ha; subst. constructor; [|now apply IH].
    apply Forall_app. split; [assumption|]. now repeat constructor.
Qed.

Lemma pairwise_subseq (l l' : list A) :
  subseq l l' -> ForallOrdPairs R l' -> ForallOrdPairs R l.
Proof.
  induction 1 as [|a l l' Hs IH|a l l' Hs IH]; intros H.
  - constructor.
  - inversion H; subst. now apply IH.
  - inversion H; subst. constructor; [|now apply IH].
    apply Forall_forall. intros x Hx.
    exact (proj1 (Forall_forall _ _) H2 x (subseq_In _ _ _ Hs Hx)).
Qed.

Lemma pairwise_perm (l l' : list A) :
  Permutation l l' -> ForallOrdPairs R l -> ForallOrdPairs R l'.
Proof.
  induction 1 as [|x l l' Hp IH|x y l|l l' l'' _ IH1 _ IH2]; intros H.
  - assumption.
  - inversion H; subst. constructor; [|now apply IH].
    now apply (Permutation_Forall Hp).
  - inversion H as [|? ? Hy H']; subst. inversion H' as [|? ? Hx H'']; subst.
    inversion Hy; subst.
    constructor; [constructor; [now apply R_sym|assumption]|].
    now constructor.
  - auto.
Qed.

(** Putting [p] in the place of [r] when [p] waits behind the list. *)
Lemma pairwise_replace (l1 l2 rest : list A) (r p : A) :
  ForallOrdPairs R ((l1 ++ r :: l2) ++ p :: rest) ->
  ForallOrdPairs R ((l1 ++ p :: l2) ++ rest).
Proof.
  intros H.
  assert (Hp : Permutation ((l1 ++ r :: l2) ++ p :: rest)
                           (r :: (l1 ++ p :: l2) ++ rest)).
  { rewrite <- !app_assoc. simpl.
    rewrite <- Permutation_middle. constructor.
    apply Permutation_app_head.
    symmetry. apply Permutation_middle. }
  apply (pairwise_perm _ _ Hp) in H. now inversion H.
Qed.

Lemma pairwise_nth (l : list A) :
  ForallOrdPairs R l ->
  forall i j a b, i <> j ->
    nth_error l i = Some a -> nth_error l j = Some b -> R a b.
Proof.
  induction 1 as [|x l Hx _ IH]; intros i j a b Hij Hi Hj.
  - destruct i; discriminate.
  - destruct i as [|i], j as [|j]; simpl in Hi, Hj.
    + congruence.
    + injection Hi as <-. apply nth_error_In in Hj.
      exact (proj1 (Forall_forall _ _) Hx _ Hj).
    + injection Hj as <-. apply nth_error_In in Hi. apply R_sym.
      exact (proj1 (Forall_forall _ _) Hx _ Hi).
    + apply (IH i j); congruence.
Qed.

End Pairwise.

Lemma nmsDominated_false (p : Pred) (kept : list Pred) :
  nmsDominated p kept = Ok false ->
  Forall (fun k => overlapAtMost NMS_THRESHOLD k p) kept.
Proof.
  induction kept as [|k ks IH]; simpl; intros H; [constructor|].
  bind_ok H. destruct (Qgtb a NMS_THRESHOLD) eqn:Ha; [discriminate|].
  constructor; [|now apply IH].
  apply overlapAtMost_sym. unfold iouJS in E.
  destruct (bbox p) as [bp|] eqn:Ep; [|discriminate].
  destruct (bbox k) as [bk|] eqn:Ek; [|discriminate].
  injection E as <-. exists bp, bk. repeat split; try assumption.
  now apply Qgtb_false.
Qed.

Lemma nms_pairwise (preds kept result : list Pred) :
  ForallOrdPairs (overlapAtMost NMS_THRESHOLD) kept ->
  nms preds kept = Ok result ->
  ForallOrdPairs (overlapAtMost NMS_THRESHOLD) result.
Proof.
  revert kept. induction preds as [|p ps IH]; simpl; intros kept Hk H.
  - now injection H as <-.
  - bind_ok H. destruct a; [now apply (IH kept)|].
    apply (IH (kept ++ [p])); [|assumption].
    apply pairwise_snoc; [assumption|]. now apply nmsDominated_false.
Qed.

(** What the inner loop of step 6 does to [resolved]. *)
Lemma confusionScan_shape (p : Pred) (grp : nat) (resolved resolved' : list Pred)
    (dominated : bool) :
  confusionScan p grp resolved = Ok (dominated, resolved') ->
  resolved' = resolved
  \/ (dominated = true
      /\ exists l1 r l2, resolved = l1 ++ r :: l2 /\ resolved' = l1 ++ p :: l2).
Proof.
  revert resolved' dominated.
  induction resolved as [|r rs IH]; simpl; intros resolved' dominated H.
  - injection H as <- <-. now left.
  - bind_ok H. destruct a.
    + injection H as <- <-. destruct (Qgtb (fit p) (fit r)); [|now left].
      right. split; [reflexivity|]. now exists [], r, rs.
    + bind_ok H. destruct a as [d rs']. injection H as <- <-.
      destruct (IH _ _ eq_refl) as [->|(-> & l1 & r' & l2 & -> & ->)]; [now left|].
      right. split; [reflexivity|]. now exists (r :: l1), r', l2.
Qed.

Lemma confusion_pairwise (kept resolved result : list Pred) :
  ForallOrdPairs (overlapAtMost NMS_THRESHOLD) (resolved ++ kept) ->
  confusion kept resolved = Ok result ->
  ForallOrdPairs (overlapAtMost NMS_THRESHOLD) result.
Proof.
  revert resolved. induction kept as [|p ps IH]; simpl; intros resolved Hk H.
  - injection H as <-. now rewrite app_nil_r in Hk.
  - assert (Hpush : ForallOrdPairs (overlapAtMost NMS_THRESHOLD)
                      ((resolved ++ [p]) ++ ps)).
    { now rewrite <- app_assoc. }
    assert (Hdrop : ForallOrdPairs (overlapAtMost NMS_THRESHOLD) (resolved ++ ps)).
    { revert Hk. apply pairwise_subseq.
      clear. induction resolved; simpl.
      - apply subseq_skip, subseq_refl.
      - now apply subseq_keep. }
    destruct (confuseMap (class p)) as [grp|]; [|now apply (IH (resolved ++ [p]))].
    bind_ok H. destruct a as [dominated resolved'].
    destruct (confusionScan_shape _ _ _ _ _ E)
      as [->|(-> & l1 & r & l2 & -> & ->)].
    + destruct dominated; [now apply (IH resolved)|now apply (IH (resolved ++ [p]))].
    + apply (IH (l1 ++ p :: l2)); [|assumption].
      apply pairwise_replace with (r := r); [|assumption].
      intros a b. apply overlapAtMost_sym.
Qed.

(** ** The pipeline returns on boxed input *)

Lemma mapM_total {A B : Type} (f : A -> Res B) (P : B -> Prop) (l : list A) :
  Forall (fun a => exists b, f a = Ok b /\ P b) l ->
  exists l', mapM f l = Ok l' /\ Forall P l'.
Proof.
  induction 1 as [|a l (b & Hb & HP) _ (l' & Hl' & HP')]; simpl.
  - exists []. split; [reflexivity|constructor].
  - exists (b :: l'). rewrite Hb, Hl'. split; [reflexivity|now constructor].
Qed.

Lemma filterM_total {A : Type} (f : A -> Res bool) (l : list A) :
  Forall (fun a => exists keep, f a = Ok keep) l ->
  exists l', filterM f l = Ok l'.
Proof.
  induction 1 as [|a l (keep & Hk) _ (l' & Hl')]; simpl.
  - now exists [].
  - rewrite Hk, Hl'. simpl. eauto.
Qed.

Lemma Forall_subseq {A : Type} (P : A -> Prop) (l l' : list A) :
  subseq l l' -> Forall P l' -> Forall P l.
Proof.
  intros Hs H. apply Forall_forall. intros a Ha.
  exact (proj1 (Forall_forall _ _) H a (subseq_In _ _ _ Hs Ha)).
Qed.

Lemma aspectScore_total (cls : string) (b : BBox) :
  exists m, aspectScore cls (Some b) = Ok m.
Proof.
  unfold aspectScore. destruct (assoc String.eqb cls ASPECT_HINTS); simpl; [|eauto].
  destruct (Qeq_bool (box_w b) 0); [eauto|].
  destruct (_ && _); eauto.
Qed.

Lemma scoreOne_total (p : RawDetection) :
  rawBoxed p -> exists q, scoreOne p = Ok q /\ boxed q.
Proof.
  intros (b & Hb). unfold scoreOne. rewrite Hb.
  destruct (aspectScore_total (raw_class p) b) as (m & ->). simpl.
  eexists. split; [reflexivity|]. now exists b.
Qed.

Lemma iouJS_total (p q : Pred) :
  boxed p -> boxed q -> exists v, iouJS (bbox p) (bbox q) = Ok v.
Proof. intros (bp & ->) (bq & ->). unfold iouJS. simpl. eauto. Qed.

Lemma nmsDominated_total (p : Pred) (kept : list Pred) :
  boxed p -> Forall boxed kept -> exists d, nmsDominated p kept = Ok d.
Proof.
  intros Hp. induction 1 as [|k ks Hk _ (d & IH)]; simpl; [eauto|].
  destruct (iouJS_total p k Hp Hk) as (v & ->). simpl.
  destruct (Qgtb v NMS_THRESHOLD); eauto.
Qed.

Lemma nms_total (preds kept : list Pred) :
  Forall boxed preds -> Forall boxed kept ->
  exists result, nms preds kept = Ok result /\ Forall boxed result.
Proof.
  intros Hp. revert kept. induction Hp as [|p ps Hp _ IH]; simpl; intros kept Hk.
  - eauto.
  - destruct (nmsDominated_total p kept Hp Hk) as (d & ->). simpl.
    apply IH. destruct d; [assumption|].
    apply Forall_app. split; [assumption|now repeat constructor].
Qed.

Lemma confusionScan_total (p : Pred) (grp : nat) (resolved : list Pred) :
  boxed p -> Forall boxed resolved ->
  exists d resolved',
    confusionScan p grp resolved = Ok (d, resolved') /\ Forall boxed resolved'.
Proof.
  intros Hp. induction 1 as [|r rs Hr Hrs (d & rs' & IH & Hrs')]; simpl.
  - exists false, []. split; [reflexivity|constructor].
  - assert (Hhit : exists hit,
               match confuseMap (class r) with
               | Some rGrp =>
                   if Nat.eqb rGrp grp
                   then v <- iouJS (bbox p) (bbox r) ;; Ok (Qgtb v CONFUSION_THRESHOLD)
                   else Ok false
               | None => Ok false
               end = Ok hit).
    { destruct (confuseMap (class r)) as [rGrp|]; [|eauto].
      destruct (Nat.eqb rGrp grp); [|eauto].
      destruct (iouJS_total p r Hp Hr) as (v & ->). simpl. eauto. }
    destruct Hhit as (hit & ->). simpl. destruct hit.
    + eexists _, _. split; [reflexivity|].
      constructor; [|assumption]. now destruct (Qgtb (fit p) (fit r)).
    + rewrite IH. simpl. eexists _, _. split; [reflexivity|]. now constructor.
Qed.

Lemma confusion_total (kept resolved : list Pred) :
  Forall boxed kept -> Forall boxed resolved ->
  exists result, confusion kept resolved = Ok result /\ Forall boxed result.
Proof.
  intros Hk. revert resolved.
  induction Hk as [|p ps Hp _ IH]; simpl; intros resolved Hr.
  - eauto.
  - assert (Hpush : forall l, Forall boxed l -> Forall boxed (l ++ [p])).
    { intros l Hl. apply Forall_app. split; [assumption|now repeat constructor]. }
    destruct (confuseMap (class p)) as [grp|]; [|now apply IH, Hpush].
    destruct (confusionScan_total p grp resolved Hp Hr) as (d & resolved' & -> & Hr').
    simpl. apply IH. destruct d; [assumption|now apply Hpush].
Qed.

Section PipelineTotal.

Variable DICT : option (string -> option DictEntry).
Variable SIZE_RANGES : option (string -> option SizeRange).

Lemma validateSize_total (p : Pred) (videoArea : Q) :
  boxed p -> exists keep, validateSize DICT SIZE_RANGES p videoArea = Ok keep.
Proof.
  intros (b & Hb). unfold validateSize. rewrite Hb.
  destruct DICT as [dict|]; [|eauto].
  destruct SIZE_RANGES as [ranges|]; [|eauto].
  destruct (dict (class p)) as [entry|]; [|eauto].
  destruct (size entry) as [sz|]; [|eauto].
  destruct (String.eqb sz ""); [eauto|]. simpl.
  destruct (ranges sz); [|eauto].
  destruct (Qeq_bool videoArea 0); eauto.
Qed.

Lemma pipeline_total (rawPreds : list RawDetection) (w h : Q) :
  Forall rawBoxed rawPreds ->
  exists resolved,
    pipeline DICT SIZE_RANGES rawPreds w h = Ok resolved /\ Forall boxed resolved.
Proof.
  intros Hraw. unfold pipeline.
  destruct (mapM_total scoreOne boxed rawPreds) as (scored & -> & Hscored).
  { revert Hraw. apply Forall_impl. intros p Hp. now apply scoreOne_total. }
  simpl.
  assert (Hsorted : Forall boxed (sortDesc scored)).
  { apply Forall_forall. intros q Hq. apply (proj1 (sortDesc_In _ _)) in Hq.
    exact (proj1 (Forall_forall _ _) Hscored q Hq). }
  destruct (filterM_total (fun p => validateSize DICT SIZE_RANGES p (w * h))
              (sortDesc scored)) as (sized & Hsized).
  { revert Hsorted. apply Forall_impl. intros p Hp. now apply validateSize_total. }
  rewrite Hsized. simpl.
  assert (Hfloor : Forall boxed (List.filter scoreFloor sized)).
  { apply (Forall_subseq _ _ _ (filter_subseq _ _)).
    now apply (Forall_subseq _ _ _ (filterM_subseq _ _ _ Hsized)). }
  destruct (nms_total _ [] Hfloor (Forall_nil _)) as (kept & -> & Hkept). simpl.
  now apply confusion_total.
Qed.

End PipelineTotal.

(** C5.  On a list of raw detections that all carry a box the pipeline
    returns a resolved list; and in any resolved list it returns, two
    detections at different positions carry boxes whose IoU is at most
    [NMS_THRESHOLD] = 0.35, whether or not step 6 put a detection in the
    place of another. *)
Theorem resolved_nms_invariant (DICT : option (string -> option DictEntry))
    (SIZE_RANGES : option (string -> option SizeRange))
    (rawPreds : list RawDetection) (videoWidth videoHeight : Q) :
  (Forall rawBoxed rawPreds ->
   exists resolved,
     pipeline DICT SIZE_RANGES rawPreds videoWidth videoHeight = Ok resolved)
  /\ (forall resolved i j a b,
        pipeline DICT SIZE_RANGES rawPreds videoWidth videoHeight = Ok resolved ->
        i <> j ->
        nth_error resolved i = Some a ->
        nth_error resolved j = Some b ->
        exists ba bb,
          bbox a = Some ba /\ bbox b = Some bb /\ iou ba bb <= NMS_THRESHOLD).
Proof.
  split.
  - intros Hraw.
    destruct (pipeline_total DICT SIZE_RANGES rawPreds videoWidth videoHeight Hraw)
      as (resolved & H & _).
    eauto.
  - intros resolved i j a b H.
    apply (pairwise_nth _ (overlapAtMost NMS_THRESHOLD)).
    + intros x y. apply overlapAtMost_sym.
    + unfold pipeline in H. bind_ok H. bind_ok H. bind_ok H.
      apply (confusion_pairwise a2 []); [|assumption].
      simpl. apply (nms_pairwise _ [] _ (FOP_nil _) E1).
Qed.

(** * The candidate map *)

Lemma key_eqb_eq (a b : Key) : key_eqb a b = true <-> a = b.
Proof.
  unfold key_eqb. rewrite !andb_true_iff, String.eqb_eq, !Z.eqb_eq.
  destruct a, b; simpl. split.
  - intros [[[-> ->] ->] ->]. reflexivity.
  - intros [= -> -> -> ->]. auto.
Qed.

Lemma key_eqb_refl (a : Key) : key_eqb a a = true.
Proof. now apply key_eqb_eq. Qed.

Lemma key_eqb_neq (a b : Key) : key_eqb a b = false <-> a <> b.
Proof. rewrite <- key_eqb_eq. now destruct (key_eqb a b). Qed.

Lemma key_eqb_sym (a b : Key) : key_eqb a b = key_eqb b a.
Proof.
  destruct (key_eqb a b) eqn:E.
  - apply key_eqb_eq in E as ->. now rewrite key_eqb_refl.
  - symmetry. apply key_eqb_neq. apply key_eqb_neq in E. congruence.
Qed.

Lemma assoc_key_In (k : Key) (cands : Candidates) (c : Candidate.t) :
  assoc key_eqb k cands = Some c -> In (k, c) cands.
Proof.
  induction cands as [|[k' c'] l IH]; simpl; [discriminate|].
  destruct (key_eqb k k') eqn:E.
  - apply key_eqb_eq in E as ->. intros [= ->]. now left.
  - intros H. right. now apply IH.
Qed.

Lemma assoc_None_notin (k : Key) (cands : Candidates) :
  assoc key_eqb k cands = None <-> ~ In k (map fst cands).
Proof.
  induction cands as [|[k' c'] l IH]; simpl; [tauto|].
  destruct (key_eqb k k') eqn:E.
  - apply key_eqb_eq in E as ->. split; [discriminate|tauto].
  - apply key_eqb_neq in E. rewrite IH. intuition congruence.
Qed.

Lemma assoc_unique (k : Key) (cands : Candidates) (c : Candidate.t) :
  uniqueKeys cands -> In (k, c) cands -> assoc key_eqb k cands = Some c.
Proof.
  unfold uniqueKeys.
  induction cands as [|[k' c'] l IH]; simpl; intros Hu Hin; [destruct Hin|].
  inversion Hu as [|? ? Hk' Hl]; subst.
  destruct Hin as [[= -> ->]|Hin].
  - now rewrite key_eqb_refl.
  - destruct (key_eqb k k') eqn:E; [|now apply IH].
    apply key_eqb_eq in E as ->. destruct Hk'.
    now apply (in_map fst) in Hin.
Qed.

Lemma assoc_app (k k' : Key) (cands : Candidates) (c : Candidate.t) :
  assoc key_eqb k (cands ++ [(k', c)]) =
  match assoc key_eqb k cands with
  | Some x => Some x
  | None => if key_eqb k k' then Some c else None
  end.
Proof.
  induction cands as [|[k0 c0] l IH]; simpl; [reflexivity|].
  now destruct (key_eqb k k0).
Qed.

Lemma update_keys (k : Key) (f : Candidate.t -> Candidate.t) (cands : Candidates) :
  map fst (update k f cands) = map fst cands.
Proof.
  induction cands as [|[k' c'] l IH]; simpl; [reflexivity|].
  destruct (key_eqb k k'); simpl; [reflexivity|now rewrite IH].
Qed.

Lemma assoc_update (k k' : Key) (f : Candidate.t -> Candidate.t) (cands : Candidates) :
  assoc key_eqb k (update k' f cands) =
  if key_eqb k k' then option_map f (assoc key_eqb k cands)
  else assoc key_eqb k cands.
Proof.
  induction cands as [|[k0 c0] l IH]; simpl.
  - now destruct (key_eqb k k').
  - destruct (key_eqb k' k0) eqn:E0; simpl.
    + apply key_eqb_eq in E0 as ->. now destruct (key_eqb k k0).
    + destruct (key_eqb k k0) eqn:E1.
      * apply key_eqb_eq in E1 as ->. rewrite key_eqb_sym in E0. now rewrite E0.
      * exact IH.
Qed.

(** The update of a stored object, seen from any of its properties. *)
Lemma update_Forall (P : Key * Candidate.t -> Prop) (k : Key)
    (f : Candidate.t -> Candidate.t) (cands : Candidates) :
  (forall c, P (k, c) -> P (k, f c)) ->
  Forall P cands -> Forall P (update k f cands).
Proof.
  intros Hf. induction 1 as [|[k' c'] l Hc Hl IH]; simpl; [constructor|].
  destruct (key_eqb k k') eqn:E.
  - constructor; [|assumption]. apply key_eqb_eq in E as <-. now apply Hf.
  - constructor; assumption.
Qed.

Lemma update_const (k : Key) (f : Candidate.t -> Candidate.t) (cands : Candidates)
    (c : Candidate.t) :
  assoc key_eqb k cands = Some c ->
  update k f cands = update k (fun _ => f c) cands.
Proof.
  induction cands as [|[k' c'] l IH]; simpl; [reflexivity|].
  destruct (key_eqb k k').
  - now intros [= ->].
  - intros H. now rewrite IH.
Qed.

Lemma has_add (k k' : Key) (nowKeys : list Key) :
  has k (add k' nowKeys) = key_eqb k k' || has k nowKeys.
Proof.
  unfold add. destruct (has k' nowKeys) eqn:E.
  - destruct (key_eqb k k') eqn:E'; [|reflexivity].
    apply key_eqb_eq in E' as ->. exact E.
  - unfold has. rewrite existsb_app. simpl.
    rewrite orb_false_r. apply orb_comm.
Qed.

(** * One turn of the tracking loop *)

Lemma classLock_Some (p : Pred) (existing e' : Candidate.t) :
  classLock p existing = Ok (Some e') ->
  (CLASS_LOCK_FRAMES <= Candidate.frames existing)%Z /\ e' = keepClass p existing.
Proof.
  unfold classLock.
  destruct (Z.geb_spec (Candidate.frames existing) CLASS_LOCK_FRAMES) as [Hge|Hlt];
    [|discriminate].
  intros H. bind_ok H. bind_ok H.
  destruct (Qltb _ _); [|discriminate].
  injection H as <-. split; [lia|reflexivity].
Qed.

Lemma confirmIf_created (k : Key) (p : Pred) (t : Tracking) :
  assoc key_eqb k (candidates t) = None ->
  confirmIf k p (create k p t) = Ok (create k p t).
Proof.
  intros H. unfold confirmIf, create. simpl.
  rewrite assoc_app, H, key_eqb_refl. reflexivity.
Qed.

Lemma trackOne_effect (now : Z) (t t' : Tracking) (p : Pred) :
  trackOne now t p = Ok t' -> stepEffect p t t'.
Proof.
  unfold trackOne. intros H. bind_ok H. destruct a as [matchedKey byLoc].
  bind_ok H. rename a into rKey. simpl in H.
  destruct (assoc key_eqb rKey (candidates t)) as [c|] eqn:Hr.
  - unfold confirmIf in H. simpl in H.
    rewrite assoc_update, key_eqb_refl, Hr in H. simpl in H.
    injection H as <-.
    apply (eff_match p t _ rKey c Hr).
    + destruct (Z.geb _ _); simpl; exact (update_const rKey (bump p) _ c Hr).
    + now destruct (Z.geb _ _).
    + now destruct (Z.geb _ _).
  - assert (Hcreate :
      confirmIf rKey p
        (create rKey p
           (mkTracking (candidates t) (add rKey (nowKeys t)) (confirmed t))) = Ok t' ->
      stepEffect p t t').
    { rewrite confirmIf_created by exact Hr. intros [= <-].
      now apply (eff_create p t _ rKey). }
    destruct byLoc as [kLoc|]; [|exact (Hcreate H)].
    destruct matchedKey; [exact (Hcreate H)|].
    destruct (assoc key_eqb kLoc (candidates t)) as [existing|] eqn:Hloc;
      [|discriminate].
    bind_ok H. destruct a as [e'|]; [|exact (Hcreate H)].
    apply classLock_Some in E1 as [Hge ->]. simpl in H.
    assert (Hc : (Candidate.frames existing >=? CONFIRM_FRAMES)%Z = true).
    { unfold CONFIRM_FRAMES, CLASS_LOCK_FRAMES in *. apply Z.geb_le. lia. }
    rewrite Hc in H. injection H as <-.
    now apply (eff_lock p t _ kLoc rKey existing).
Qed.

(** A turn that does not throw has read the box of its detection. *)
Lemma findMatch_exact_boxed (p : Pred) (cands : Candidates)
    (byLoc byLoc' : option Key) (k : Key) :
  findMatch p cands byLoc = Ok (Some k, byLoc') -> boxed p.
Proof.
  revert byLoc. induction cands as [|[k0 c0] l IH]; simpl; intros byLoc H.
  - discriminate.
  - bind_ok H. destruct a.
    + destruct (String.eqb (Candidate.cls c0) (class p)); [|discriminate].
      bind_ok E. unfold iouJS in E0.
      destruct (Candidate.bbox c0); [|discriminate].
      destruct (bbox p) as [bp|] eqn:Hb; [|discriminate]. now exists bp.
    + bind_ok H. now apply IH in H.
Qed.

Lemma trackOne_boxed (now : Z) (t t' : Tracking) (p : Pred) :
  trackOne now t p = Ok t' -> boxed p.
Proof.
  unfold trackOne. intros H. bind_ok H. destruct a as [[k|] byLoc].
  - now apply findMatch_exact_boxed in E.
  - bind_ok H. unfold freshKey in E0.
    destruct (bbox p) as [b|] eqn:Hb; [|discriminate]. now exists b.
Qed.

(** * Invariants of the candidate map *)

Lemma stepEffect_live (p : Pred) (t t' : Tracking) :
  stepEffect p t t' -> live (candidates t) -> live (candidates t').
Proof.
  unfold live.
  intros [k Hk -> _ _|k c Hk -> _ _|k kNew c Hk Hge -> _ _] H.
  - apply Forall_app. split; [assumption|]. repeat constructor. simpl. lia.
  - apply update_Forall; [|assumption]. intros c0 _. simpl.
    apply assoc_key_In in Hk.
    pose proof (proj1 (Forall_forall _ _) H _ Hk) as Hc. simpl in Hc. lia.
  - apply update_Forall; [|assumption]. intros c0 _. simpl.
    unfold CLASS_LOCK_FRAMES in Hge. lia.
Qed.

Lemma stepEffect_uniqueKeys (p : Pred) (t t' : Tracking) :
  stepEffect p t t' -> uniqueKeys (candidates t) -> uniqueKeys (candidates t').
Proof.
  unfold uniqueKeys.
  intros [k Hk -> _ _|k c Hk -> _ _|k kNew c Hk Hge -> _ _] H.
  - rewrite map_app. simpl. apply NoDup_app.
    + assumption.
    + repeat constructor. simpl. tauto.
    + intros a Ha [<-|[]]. now apply assoc_None_notin in Hk.
  - now rewrite update_keys.
  - now rewrite update_keys.
Qed.

(** The loop keeps what every turn keeps. *)
Lemma trackLoop_invariant (P : Candidates -> Prop) :
  (forall p t t', stepEffect p t t' -> P (candidates t) -> P (candidates t')) ->
  forall clock resolved i t,
    P (candidates t) -> P (candidates (fst (trackLoop clock i resolved t))).
Proof.
  intros Hstep clock resolved.
  induction resolved as [|p ps IH]; simpl; intros i t Ht; [assumption|].
  destruct (trackOne (clock i) t p) as [t'|] eqn:E; [|assumption].
  apply IH. apply (Hstep p t t'); [|assumption]. now apply trackOne_effect in E.
Qed.

(** What survives the decay was there: untouched if a detection of the
    call touched it, and otherwise with [DECAY_RATE] frames less and still a
    positive streak. *)
Lemma decay_In (nowKeys : list Key) (cands : Candidates) (k : Key) (c' : Candidate.t) :
  In (k, c') (decay nowKeys cands) ->
  exists c,
    In (k, c) cands
    /\ Candidate.cls c' = Candidate.cls c
    /\ ((has k nowKeys = true /\ c' = c)
        \/ (has k nowKeys = false
            /\ Candidate.frames c' = (Candidate.frames c - DECAY_RATE)%Z
            /\ (0 < Candidate.frames c')%Z)).
Proof.
  induction cands as [|[k0 c0] l IH]; simpl; [tauto|].
  assert (Hrest : In (k, c') (decay nowKeys l) ->
    exists c, (((k0, c0) = (k, c) \/ In (k, c) l)
    /\ Candidate.cls c' = Candidate.cls c
    /\ ((has k nowKeys = true /\ c' = c)
        \/ (has k nowKeys = false
            /\ Candidate.frames c' = (Candidate.frames c - DECAY_RATE)%Z
            /\ (0 < Candidate.frames c')%Z)))).
  { intros H. destruct (IH H) as (c & Hc & Hrest). exists c. auto. }
  destruct (has k0 nowKeys) eqn:Hhas.
  - intros [[= -> ->]|H]; [|auto]. exists c'. auto.
  - destruct (Z.leb_spec (Candidate.frames c0 - DECAY_RATE) 0) as [Hle|Hgt]; [auto|].
    intros [[= -> <-]|H]; [|auto]. exists c0. simpl. auto 6.
Qed.

Lemma decay_keys (nowKeys : list Key) (cands : Candidates) :
  subseq (map fst (decay nowKeys cands)) (map fst cands).
Proof.
  induction cands as [|[k0 c0] l IH]; simpl; [constructor|].
  destruct (has k0 nowKeys); simpl; [now constructor|].
  destruct (Z.leb _ _); simpl; now constructor.
Qed.

Lemma NoDup_subseq {A : Type} (l l' : list A) :
  subseq l l' -> NoDup l' -> NoDup l.
Proof.
  induction 1 as [|a l l' Hs IH|a l l' Hs IH]; intros H.
  - constructor.
  - inversion H; subst. auto.
  - inversion H; subst. constructor; [|auto].
    intros Hin. now apply (subseq_In _ _ _ Hs) in Hin.
Qed.

Lemma decay_uniqueKeys (nowKeys : list Key) (cands : Candidates) :
  uniqueKeys cands -> uniqueKeys (decay nowKeys cands).
Proof. apply NoDup_subseq, decay_keys. Qed.

Lemma decay_live (nowKeys : list Key) (cands : Candidates) :
  live cands -> live (decay nowKeys cands).
Proof.
  unfold live. intros H. apply Forall_forall. intros [k c'] Hin.
  destruct (decay_In _ _ _ _ Hin) as (c & Hc & _ & [[_ ->]|(_ & _ & Hpos)]); simpl.
  - exact (proj1 (Forall_forall _ _) H _ Hc).
  - lia.
Qed.

(** [reset] empties the map. *)
Lemma reset_empty (cands : Candidates) : reset cands = [].
Proof.
  unfold reset.
  assert (H : forall l acc : Candidates,
             (forall kc, In kc acc -> In (fst kc) (map fst l)) ->
             fold_left (fun acc kc => delete (fst kc) acc) l acc = []).
  { induction l as [|x l IH]; simpl; intros acc Hacc.
    - destruct acc as [|kc acc]; [reflexivity|]. destruct (Hacc kc). now left.
    - apply IH. intros kc Hin. unfold delete in Hin.
      apply filter_In in Hin as [Hin Hne].
      destruct (Hacc kc Hin) as [Heq|Hl]; [|assumption].
      rewrite Heq, key_eqb_refl in Hne. discriminate. }
  apply H. intros kc Hin. now apply in_map.
Qed.

Section MapInvariants.

Variable DICT : option (string -> option DictEntry).
Variable SIZE_RANGES : option (string -> option SizeRange).

(** A call of [filter] keeps what every turn and the decay keep. *)
Lemma filter_invariant (P : Candidates -> Prop) :
  (forall p t t', stepEffect p t t' -> P (candidates t) -> P (candidates t')) ->
  (forall nowKeys cands, P cands -> P (decay nowKeys cands)) ->
  forall cands clock rawPreds w h,
    P cands -> P (snd (filter DICT SIZE_RANGES cands clock rawPreds w h)).
Proof.
  intros Hstep Hdecay cands clock rawPreds w h HP. unfold filter.
  destruct (pipeline DICT SIZE_RANGES rawPreds w h) as [resolved|]; [|assumption].
  pose proof (trackLoop_invariant P Hstep clock resolved 0%nat
                (mkTracking cands [] []) HP) as Hloop.
  destruct (trackLoop clock 0 resolved (mkTracking cands [] [])) as [t completed].
  simpl in Hloop. destruct completed; simpl; auto.
Qed.

Lemma reachable_invariant (P : Candidates -> Prop) :
  P [] ->
  (forall p t t', stepEffect p t t' -> P (candidates t) -> P (candidates t')) ->
  (forall nowKeys cands, P cands -> P (decay nowKeys cands)) ->
  forall cands, reachable DICT SIZE_RANGES cands -> P cands.
Proof.
  intros Hnil Hstep Hdecay cands.
  induction 1 as [|cands clock rawPreds w h _ IH|cands _ _].
  - assumption.
  - now apply filter_invariant.
  - now rewrite reset_empty.
Qed.

Lemma reachable_uniqueKeys (cands : Candidates) :
  reachable DICT SIZE_RANGES cands -> uniqueKeys cands.
Proof.
  apply reachable_invariant.
  - constructor.
  - apply stepEffect_uniqueKeys.
  - apply decay_uniqueKeys.
Qed.

End MapInvariants.

(** C9.  In every candidate map the tracker can be in (so after every call
    of [filter] or [reset]) each candidate has a streak of at least 1: a
    created candidate starts at 1, the two updates add 1 or nothing, and the
    decay keeps a candidate only with a positive streak. *)
Theorem live_candidate_streak (DICT : option (string -> option DictEntry))
    (SIZE_RANGES : option (string -> option SizeRange)) (cands : Candidates) :
  reachable DICT SIZE_RANGES cands ->
  (forall k c, In (k, c) cands -> (1 <= Candidate.frames c)%Z)
  /\ (forall p, Candidate.frames (newCandidate p) = 1%Z)
  /\ (forall p c, Candidate.frames (bump p c) = (Candidate.frames c + 1)%Z
                  /\ Candidate.frames (keepClass p c) = Candidate.frames c)
  /\ (forall nowKeys k c,
        In (k, c) (decay nowKeys cands) -> (1 <= Candidate.frames c)%Z).
Proof.
  intros Hreach.
  assert (Hlive : live cands).
  { revert cands Hreach. apply reachable_invariant.
    - constructor.
    - apply stepEffect_live.
    - apply decay_live. }
  repeat split.
  - intros k c Hin. exact (proj1 (Forall_forall _ _) Hlive _ Hin).
  - intros nowKeys k c Hin.
    exact (proj1 (Forall_forall _ _) (decay_live nowKeys _ Hlive) _ Hin).
Qed.

(** * The class of a tracked identity *)

Lemma stepEffect_class (k : Key) (cls : string) (p : Pred) (t t' : Tracking) :
  stepEffect p t t' ->
  (exists c, assoc key_eqb k (candidates t) = Some c /\ Candidate.cls c = cls) ->
  exists c', assoc key_eqb k (candidates t') = Some c' /\ Candidate.cls c' = cls.
Proof.
  intros [k0 Hk -> _ _|k0 c0 Hk -> _ _|k0 kNew c0 Hk Hge -> _ _] (c & Hc & Hcls).
  - exists c. now rewrite assoc_app, Hc.
  - rewrite assoc_update. destruct (key_eqb k k0) eqn:E; [|eauto].
    apply key_eqb_eq in E as ->. rewrite Hc. simpl.
    eexists. split; [reflexivity|]. simpl. congruence.
  - rewrite assoc_update. destruct (key_eqb k k0) eqn:E; [|eauto].
    apply key_eqb_eq in E as ->. rewrite Hc. simpl.
    eexists. split; [reflexivity|]. simpl. congruence.
Qed.

Lemma stepEffect_created (k : Key) (p : Pred) (t t' : Tracking) (c' : Candidate.t) :
  stepEffect p t t' ->
  assoc key_eqb k (candidates t) = None ->
  assoc key_eqb k (candidates t') = Some c' ->
  c' = newCandidate p.
Proof.
  intros [k0 Hk -> _ _|k0 c0 Hk -> _ _|k0 kNew c0 Hk Hge -> _ _] Hnone.
  - rewrite assoc_app, Hnone. destruct (key_eqb k k0); congruence.
  - rewrite assoc_update, Hnone. now destruct (key_eqb k k0).
  - rewrite assoc_update, Hnone. now destruct (key_eqb k k0).
Qed.

Section ClassOfIdentity.

Variable DICT : option (string -> option DictEntry).
Variable SIZE_RANGES : option (string -> option SizeRange).

Lemma filter_uniqueKeys (cands : Candidates) (clock : nat -> Z)
    (rawPreds : list RawDetection) (w h : Q) :
  uniqueKeys cands ->
  uniqueKeys (snd (filter DICT SIZE_RANGES cands clock rawPreds w h)).
Proof.
  apply filter_invariant.
  - apply stepEffect_uniqueKeys.
  - apply decay_uniqueKeys.
Qed.

Lemma filter_class (cands : Candidates) (clock : nat -> Z)
    (rawPreds : list RawDetection) (w h : Q) (k : Key) (c c' : Candidate.t) :
  uniqueKeys cands ->
  assoc key_eqb k cands = Some c ->
  assoc key_eqb k (snd (filter DICT SIZE_RANGES cands clock rawPreds w h)) = Some c' ->
  Candidate.cls c' = Candidate.cls c.
Proof.
  intros Hu Hc. unfold filter.
  destruct (pipeline DICT SIZE_RANGES rawPreds w h) as [resolved|]; simpl;
    [|congruence].
  pose proof (trackLoop_invariant
    (fun cs => uniqueKeys cs
               /\ exists c0, assoc key_eqb k cs = Some c0
                             /\ Candidate.cls c0 = Candidate.cls c)) as Hloop.
  specialize (Hloop
    (fun p t t' He Ht =>
       conj (stepEffect_uniqueKeys p t t' He (proj1 Ht))
            (stepEffect_class k _ p t t' He (proj2 Ht)))
    clock resolved 0%nat (mkTracking cands [] [])
    (conj Hu (ex_intro _ c (conj Hc eq_refl)))).
  destruct (trackLoop clock 0 resolved (mkTracking cands [] [])) as [t completed].
  simpl in Hloop. destruct Hloop as (Hut & c0 & Hc0 & Hcls).
  destruct completed; simpl; [|congruence].
  intros Hc'. apply assoc_key_In in Hc'.
  destruct (decay_In _ _ _ _ Hc') as (c1 & Hc1 & Hcls1 & _).
  apply (assoc_unique _ _ _ Hut) in Hc1. congruence.
Qed.

Lemma applyOp_uniqueKeys (cands : Candidates) (op : Op) :
  uniqueKeys cands -> uniqueKeys (applyOp DICT SIZE_RANGES cands op).
Proof.
  destruct op as [clock rawPreds w h|]; simpl.
  - apply filter_uniqueKeys.
  - intros _. rewrite reset_empty. constructor.
Qed.

Lemma history_class (ops : list Op) (cands : Candidates) (k : Key)
    (c c' : Candidate.t) :
  uniqueKeys cands ->
  assoc key_eqb k cands = Some c ->
  presentThroughout DICT SIZE_RANGES k ops cands ->
  assoc key_eqb k (fold_left (applyOp DICT SIZE_RANGES) ops cands) = Some c' ->
  Candidate.cls c' = Candidate.cls c.
Proof.
  revert cands c. induction ops as [|op ops IH]; simpl; intros cands c Hu Hc Hp Hc'.
  - congruence.
  - destruct Hp as [Hk Hp].
    destruct (assoc key_eqb k (applyOp DICT SIZE_RANGES cands op)) as [c1|] eqn:E1;
      [|congruence].
    rewrite (IH _ c1 (applyOp_uniqueKeys _ _ Hu) E1 Hp Hc').
    destruct op as [clock rawPreds w h|]; simpl in E1.
    + exact (filter_class _ _ _ _ _ _ _ _ Hu Hc E1).
    + rewrite reset_empty in E1. discriminate.
Qed.

End ClassOfIdentity.

(** C10.  No operation changes the class of a candidate that stays in the
    map: the two updates copy [cls]; across a call of [filter] a key that
    names a candidate before and after names the same class; hence across
    any history of calls of [filter] and [reset] during which the key is
    never evicted.  A key that a turn of the loop adds names the candidate
    created for the detection, with streak 1. *)
Theorem candidate_class_immutable (DICT : option (string -> option DictEntry))
    (SIZE_RANGES : option (string -> option SizeRange)) :
  (forall p c,
      Candidate.cls (bump p c) = Candidate.cls c
      /\ Candidate.cls (keepClass p c) = Candidate.cls c)
  /\ (forall cands clock rawPreds w h k c c',
        uniqueKeys cands ->
        assoc key_eqb k cands = Some c ->
        assoc key_eqb k (snd (filter DICT SIZE_RANGES cands clock rawPreds w h))
          = Some c' ->
        Candidate.cls c' = Candidate.cls c)
  /\ (forall ops cands k c c',
        uniqueKeys cands ->
        assoc key_eqb k cands = Some c ->
        presentThroughout DICT SIZE_RANGES k ops cands ->
        assoc key_eqb k (fold_left (applyOp DICT SIZE_RANGES) ops cands) = Some c' ->
        Candidate.cls c' = Candidate.cls c)
  /\ (forall now t p t' k c',
        trackOne now t p = Ok t' ->
        assoc key_eqb k (candidates t) = None ->
        assoc key_eqb k (candidates t') = Some c' ->
        c' = newCandidate p /\ Candidate.frames c' = 1%Z)
  /\ (forall cands k, assoc key_eqb k (reset cands) = None).
Proof.
  repeat split.
  - intros. now apply (filter_class DICT SIZE_RANGES cands clock rawPreds w h k).
  - intros. now apply (history_class DICT SIZE_RANGES ops cands k).
  - apply trackOne_effect in H. exact (stepEffect_created _ _ _ _ _ H H0 H1).
  - apply trackOne_effect in H.
    now rewrite (stepEffect_created _ _ _ _ _ H H0 H1).
  - intros. now rewrite reset_empty.
Qed.

(** * Confirmation delay *)

Lemma iou_self (b : BBox) : 0 < box_w b -> 0 < box_h b -> iou b b == 1.
Proof.
  intros Hw Hh. unfold iou. cbv zeta.
  assert (Hx : Qle_bool (Qmin (box_x b + box_w b) (box_x b + box_w b))
                        (Qmax (box_x b) (box_x b)) = false).
  { apply Qle_bool_false. rewrite Q.min_id, Q.max_id. lra. }
  assert (Hy : Qle_bool (Qmin (box_y b + box_h b) (box_y b + box_h b))
                        (Qmax (box_y b) (box_y b)) = false).
  { apply Qle_bool_false. rewrite Q.min_id, Q.max_id. lra. }
  rewrite Hx, Hy. simpl.
  rewrite !Q.min_id, !Q.max_id.
  assert (Hwh : ~ box_w b * box_h b == 0).
  { intros E.
    assert (0 < box_w b * box_h b) by (apply Qmult_lt_0_compat; assumption).
    lra. }
  field. intros E. apply Hwh. lra.
Qed.

Lemma scoreOne_bbox (d : RawDetection) (p : Pred) :
  scoreOne d = Ok p -> bbox p = raw_bbox d /\ class p = raw_class d.
Proof. unfold scoreOne. intros H. bind_ok H. now injection H as <-. Qed.

Section ConfirmationDelay.

Variable DICT : option (string -> option DictEntry).
Variable SIZE_RANGES : option (string -> option SizeRange).

Lemma feed_S (clocks : nat -> nat -> Z) (n call : nat) (cands : Candidates)
    (rawPreds : list RawDetection) (w h : Q) :
  feed DICT SIZE_RANGES clocks (S n) call cands rawPreds w h =
  (fst (filter DICT SIZE_RANGES cands (clocks call) rawPreds w h)
     :: fst (feed DICT SIZE_RANGES clocks n (S call)
               (snd (filter DICT SIZE_RANGES cands (clocks call) rawPreds w h))
               rawPreds w h),
   snd (feed DICT SIZE_RANGES clocks n (S call)
          (snd (filter DICT SIZE_RANGES cands (clocks call) rawPreds w h))
          rawPreds w h)).
Proof. reflexivity. Qed.

(** A call whose only resolved detection [p] meets its own candidate. *)
Lemma filter_single_match (k : Key) (c : Candidate.t) (clock : nat -> Z)
    (rawPreds : list RawDetection) (w h : Q) (p : Pred) (b : BBox) :
  pipeline DICT SIZE_RANGES rawPreds w h = Ok [p] ->
  bbox p = Some b -> 0 < box_w b -> 0 < box_h b ->
  Candidate.cls c = class p -> Candidate.bbox c = Some b ->
  filter DICT SIZE_RANGES [(k, c)] clock rawPreds w h =
  (Ok (if Z.geb (Candidate.frames c + 1) CONFIRM_FRAMES then [p] else []),
   [(k, bump p c)]).
Proof.
  intros Hpipe Hb Hw Hh Hcls Hcb. unfold filter. rewrite Hpipe.
  assert (Hone : trackOne (clock 0%nat) (mkTracking [(k, c)] [] []) p =
                 Ok (mkTracking [(k, bump p c)] [k]
                       (if Z.geb (Candidate.frames c + 1) CONFIRM_FRAMES
                        then [p] else []))).
  { unfold trackOne. simpl. rewrite Hcls, String.eqb_refl, Hcb, Hb. simpl.
    assert (Hiou : Qgtb (iou b b) 0.25 = true).
    { apply Qgtb_true. rewrite iou_self by assumption. reflexivity. }
    rewrite Hiou. simpl. rewrite key_eqb_refl. unfold confirmIf. simpl.
    rewrite key_eqb_refl. simpl. now destruct (Z.geb _ _). }
  simpl. rewrite Hone. simpl. rewrite key_eqb_refl. reflexivity.
Qed.

(** A call on the empty map whose only resolved detection is [p]. *)
Lemma filter_single_create (clock : nat -> Z)
    (rawPreds : list RawDetection) (w h : Q) (p : Pred) (b : BBox) :
  pipeline DICT SIZE_RANGES rawPreds w h = Ok [p] ->
  bbox p = Some b ->
  exists k,
    filter DICT SIZE_RANGES [] clock rawPreds w h = (Ok [], [(k, newCandidate p)]).
Proof.
  intros Hpipe Hb. unfold filter. rewrite Hpipe.
  simpl. unfold trackOne. simpl. unfold freshKey. rewrite Hb. simpl.
  unfold confirmIf. simpl. rewrite key_eqb_refl. simpl.
  rewrite key_eqb_refl. simpl. eauto.
Qed.

Lemma feed_steady (clocks : nat -> nat -> Z) (k : Key)
    (rawPreds : list RawDetection) (w h : Q) (p : Pred) (b : BBox) :
  pipeline DICT SIZE_RANGES rawPreds w h = Ok [p] ->
  bbox p = Some b -> 0 < box_w b -> 0 < box_h b ->
  forall n call c,
    Candidate.cls c = class p -> Candidate.bbox c = Some b ->
    fst (feed DICT SIZE_RANGES clocks n call [(k, c)] rawPreds w h) =
    map (fun j => Ok (if Z.geb (Candidate.frames c + 1 + Z.of_nat j) CONFIRM_FRAMES
                      then [p] else []))
        (seq 0 n).
Proof.
  intros Hpipe Hb Hw Hh.
  induction n as [|n IH]; intros call c Hcls Hcb; [reflexivity|].
  rewrite feed_S.
  rewrite (filter_single_match k c (clocks call) rawPreds w h p b) by assumption.
  cbn [fst snd seq map]. rewrite Z.add_0_r. f_equal.
  rewrite (IH (S call) (bump p c) Hcls Hb), <- seq_shift, map_map.
  apply map_ext. intros j. cbn [bump Candidate.frames].
  replace (Candidate.frames c + 1 + 1 + Z.of_nat j)%Z
    with (Candidate.frames c + 1 + Z.of_nat (S j))%Z by lia.
  reflexivity.
Qed.

Lemma feed_from_empty (clocks : nat -> nat -> Z)
    (rawPreds : list RawDetection) (w h : Q) (p : Pred) (b : BBox) (call : nat) :
  pipeline DICT SIZE_RANGES rawPreds w h = Ok [p] ->
  bbox p = Some b -> 0 < box_w b -> 0 < box_h b ->
  fst (feed DICT SIZE_RANGES clocks 8 call [] rawPreds w h) =
  repeat (Ok []) 7 ++ [Ok [p]].
Proof.
  intros Hpipe Hb Hw Hh. rewrite feed_S.
  destruct (filter_single_create (clocks call) rawPreds w h p b Hpipe Hb) as (k & ->).
  cbn [fst snd].
  rewrite (feed_steady clocks k rawPreds w h p b Hpipe Hb Hw Hh
             7 (S call) (newCandidate p) eq_refl Hb).
  reflexivity.
Qed.

Lemma single_resolved_bbox (d : RawDetection) (w h : Q) (p : Pred) :
  pipeline DICT SIZE_RANGES [d] w h = Ok [p] -> bbox p = raw_bbox d.
Proof.
  intros H.
  destruct (pipeline_provenance DICT SIZE_RANGES [d] w h [p] p H (or_introl eq_refl))
    as (d' & [<-|[]] & Hd).
  now apply scoreOne_bbox in Hd.
Qed.

End ConfirmationDelay.

(** C4.  From the empty candidate map, with a detection [d] on a box of
    positive width and height that the pipeline resolves (to [p], its scored
    form), eight consecutive calls of [filter] on [[d]] return the empty list
    seven times and then [[p]]: the detection is confirmed on the eighth call
    and on none before, whatever the clock reads. *)
Theorem confirmation_delay (DICT : option (string -> option DictEntry))
    (SIZE_RANGES : option (string -> option SizeRange))
    (clocks : nat -> nat -> Z) (d : RawDetection) (videoWidth videoHeight : Q)
    (p : Pred) (b : BBox) :
  raw_bbox d = Some b -> 0 < box_w b -> 0 < box_h b ->
  pipeline DICT SIZE_RANGES [d] videoWidth videoHeight = Ok [p] ->
  fst (feed DICT SIZE_RANGES clocks 8 0 [] [d] videoWidth videoHeight) =
  [Ok []; Ok []; Ok []; Ok []; Ok []; Ok []; Ok []; Ok [p]].
Proof.
  intros Hb Hw Hh Hpipe.
  apply (feed_from_empty DICT SIZE_RANGES clocks [d] _ _ p b 0 Hpipe); try assumption.
  now rewrite (single_resolved_bbox DICT SIZE_RANGES d _ _ p Hpipe).
Qed.

(** * Decay and eviction *)

Lemma stepEffect_unseen (k : Key) (p : Pred) (t t' : Tracking) :
  stepEffect p t t' ->
  has k (nowKeys t') = false ->
  has k (nowKeys t) = false
  /\ assoc key_eqb k (candidates t') = assoc key_eqb k (candidates t).
Proof.
  intros [k0 Hk -> -> _|k0 c0 Hk -> -> _|k0 kNew c0 Hk Hge -> -> _];
    rewrite ?has_add; intros H;
    repeat (apply orb_false_iff in H; destruct H as [? H]).
  - split; [assumption|]. rewrite assoc_app.
    destruct (assoc key_eqb k (candidates t)); [reflexivity|]. now rewrite H0.
  - split; [assumption|]. rewrite assoc_update. now rewrite H0.
  - split; [assumption|]. rewrite assoc_update. now rewrite H0.
Qed.

Lemma trackLoop_unseen (k : Key) (clock : nat -> Z) (resolved : list Pred) :
  forall i t t' completed,
    trackLoop clock i resolved t = (t', completed) ->
    has k (nowKeys t') = false ->
    has k (nowKeys t) = false
    /\ assoc key_eqb k (candidates t') = assoc key_eqb k (candidates t).
Proof.
  induction resolved as [|p ps IH]; simpl; intros i t t' completed H Hk.
  - injection H as <- <-. auto.
  - destruct (trackOne (clock i) t p) as [t1|] eqn:E.
    + destruct (IH _ _ _ _ H Hk) as [Hk1 Heq].
      apply trackOne_effect in E.
      destruct (stepEffect_unseen k p t t1 E Hk1) as [Hk0 Heq0].
      split; [assumption|congruence].
    + injection H as <- <-. auto.
Qed.

Lemma decay_absent (nowKeys : list Key) (cands : Candidates) (k : Key) :
  assoc key_eqb k cands = None -> assoc key_eqb k (decay nowKeys cands) = None.
Proof.
  rewrite !assoc_None_notin. intros H Hin. apply H.
  exact (subseq_In _ _ _ (decay_keys nowKeys cands) Hin).
Qed.

(** The decay of a candidate that the call has not touched. *)
Lemma decay_unseen (nowKeys : list Key) (cands : Candidates) (k : Key)
    (c : Candidate.t) :
  uniqueKeys cands ->
  has k nowKeys = false ->
  assoc key_eqb k cands = Some c ->
  streak (decay nowKeys cands) k =
  if Z.leb (Candidate.frames c - DECAY_RATE) 0 then None
  else Some (Candidate.frames c - DECAY_RATE)%Z.
Proof.
  unfold uniqueKeys, streak.
  induction cands as [|[k0 c0] l IH]; simpl; intros Hu Hk Hc; [discriminate|].
  inversion Hu as [|? ? Hk0 Hl]; subst.
  destruct (key_eqb k k0) eqn:E.
  - apply key_eqb_eq in E as <-. injection Hc as ->. rewrite Hk.
    destruct (Z.leb (Candidate.frames c - DECAY_RATE) 0) eqn:Hle.
    + rewrite decay_absent; [reflexivity|]. now apply assoc_None_notin.
    + simpl. now rewrite key_eqb_refl.
  - destruct (has k0 nowKeys); simpl.
    + rewrite E. now apply IH.
    + destruct (Z.leb (Candidate.frames c0 - DECAY_RATE) 0); simpl.
      * now apply IH.
      * rewrite E. now apply IH.
Qed.

Section Decay.

Variable DICT : option (string -> option DictEntry).
Variable SIZE_RANGES : option (string -> option SizeRange).

(** One unmatched call takes [DECAY_RATE] frames off the streak, and evicts
    the candidate when nothing positive is left. *)
Lemma unmatched_call_streak (cands : Candidates) (call : Op) (k : Key) (n : Z) :
  uniqueKeys cands ->
  streak cands k = Some n ->
  unmatchedCall DICT SIZE_RANGES cands call k ->
  streak (applyOp DICT SIZE_RANGES cands call) k =
  if Z.leb (n - DECAY_RATE) 0 then None else Some (n - DECAY_RATE)%Z.
Proof.
  intros Hu Hn Hcall. destruct call as [clock rawPreds w h|]; [|destruct Hcall].
  destruct Hcall as (resolved & t & Hpipe & Hloop & Hk).
  simpl. unfold filter. rewrite Hpipe, Hloop. simpl.
  unfold streak in Hn.
  destruct (assoc key_eqb k cands) as [c|] eqn:Hc; [|discriminate].
  injection Hn as <-.
  destruct (trackLoop_unseen k _ _ _ _ _ _ Hloop Hk) as [_ Heq]. simpl in Heq.
  apply decay_unseen; try assumption; [|congruence].
  pose proof (trackLoop_invariant uniqueKeys stepEffect_uniqueKeys clock resolved
                0%nat (mkTracking cands [] []) Hu) as Hut.
  now rewrite Hloop in Hut.
Qed.

End Decay.

(** C6.  A candidate with a streak of 8 that four consecutive calls of
    [filter] leave unmatched has a streak of 6, 4 and 2 after the first three
    of them, so it is still in the map after the third, and is no longer in
    the map after the fourth. *)
Theorem decay_eviction_timing (DICT : option (string -> option DictEntry))
    (SIZE_RANGES : option (string -> option SizeRange))
    (cands : Candidates) (k : Key) (call1 call2 call3 call4 : Op) :
  let cands1 := applyOp DICT SIZE_RANGES cands call1 in
  let cands2 := applyOp DICT SIZE_RANGES cands1 call2 in
  let cands3 := applyOp DICT SIZE_RANGES cands2 call3 in
  let cands4 := applyOp DICT SIZE_RANGES cands3 call4 in
  uniqueKeys cands ->
  streak cands k = Some 8%Z ->
  unmatchedCall DICT SIZE_RANGES cands call1 k ->
  unmatchedCall DICT SIZE_RANGES cands1 call2 k ->
  unmatchedCall DICT SIZE_RANGES cands2 call3 k ->
  unmatchedCall DICT SIZE_RANGES cands3 call4 k ->
  streak cands1 k = Some 6%Z
  /\ streak cands2 k = Some 4%Z
  /\ streak cands3 k = Some 2%Z
  /\ streak cands4 k = None
  /\ assoc key_eqb k cands3 <> None
  /\ assoc key_eqb k cands4 = None.
Proof.
  intros cands1 cands2 cands3 cands4 Hu H0 Hc1 Hc2 Hc3 Hc4.
  pose proof (applyOp_uniqueKeys DICT SIZE_RANGES cands call1 Hu) as Hu1.
  pose proof (applyOp_uniqueKeys DICT SIZE_RANGES _ call2 Hu1) as Hu2.
  pose proof (applyOp_uniqueKeys DICT SIZE_RANGES _ call3 Hu2) as Hu3.
  assert (H1 : streak cands1 k = Some 6%Z)
    by exact (unmatched_call_streak DICT SIZE_RANGES _ _ _ _ Hu H0 Hc1).
  assert (H2 : streak cands2 k = Some 4%Z)
    by exact (unmatched_call_streak DICT SIZE_RANGES _ _ _ _ Hu1 H1 Hc2).
  assert (H3 : streak cands3 k = Some 2%Z)
    by exact (unmatched_call_streak DICT SIZE_RANGES _ _ _ _ Hu2 H2 Hc3).
  assert (H4 : streak cands4 k = None)
    by exact (unmatched_call_streak DICT SIZE_RANGES _ _ _ _ Hu3 H3 Hc4).
  repeat split; try assumption.
  - unfold streak in H3. intros E. rewrite E in H3. discriminate H3.
  - unfold streak in H4. now destruct (assoc key_eqb k cands4).
Qed.

(** * Class lock *)

Section FindMatch.

Variable p : Pred.
Variable bp : BBox.
Hypothesis Hbp : bbox p = Some bp.

(** One turn of the search on a candidate that is not an exact match. *)
Lemma findMatch_step (k : Key) (c : Candidate.t) (rest : Candidates)
    (byLoc : option Key) :
  candidateBoxed (k, c) -> ~ exactMatch p c ->
  exists bc,
    Candidate.bbox c = Some bc
    /\ findMatch p ((k, c) :: rest) byLoc =
       findMatch p rest
         (match byLoc with
          | None => if Qgtb (iou bc bp) 0.4 then Some k else None
          | Some _ => byLoc
          end).
Proof.
  intros (bc & Hbc) Hne. simpl in Hbc. exists bc. split; [assumption|].
  simpl. rewrite Hbc, Hbp. simpl.
  destruct (String.eqb_spec (Candidate.cls c) (class p)) as [Hcls|Hcls]; simpl.
  - destruct (Qgtb (iou bc bp) 0.25) eqn:E; [|reflexivity].
    destruct Hne. split; [assumption|].
    exists bc, bp. repeat split; try assumption. now apply Qgtb_true.
  - reflexivity.
Qed.

Lemma findMatch_sticky (cands : Candidates) (k : Key) :
  Forall candidateBoxed cands ->
  Forall (fun kc => ~ exactMatch p (snd kc)) cands ->
  findMatch p cands (Some k) = Ok (None, Some k).
Proof.
  induction 1 as [|[k0 c0] l Hb _ IH]; intros Hne; [reflexivity|].
  inversion Hne; subst.
  destruct (findMatch_step k0 c0 l (Some k) Hb H1) as (bc & _ & ->). auto.
Qed.

Lemma findMatch_first (cands : Candidates) (k : Key) (c : Candidate.t) :
  Forall candidateBoxed cands ->
  Forall (fun kc => ~ exactMatch p (snd kc)) cands ->
  firstSpatialMatch p cands k c ->
  findMatch p cands None = Ok (None, Some k).
Proof.
  intros Hb Hne (before & after & -> & (bc & bp' & Hbc & Hbp' & Hiou) & Hbefore).
  induction before as [|[k0 c0] l IH]; simpl app in *.
  - inversion Hb; subst. inversion Hne; subst.
    destruct (findMatch_step k c after None H1 H3) as (bc' & Hbc' & ->).
    assert (bc' = bc) by congruence. assert (bp' = bp) by congruence. subst.
    rewrite (proj2 (Qgtb_true _ _) Hiou). now apply findMatch_sticky.
  - inversion Hb; subst. inversion Hne; subst. inversion Hbefore; subst.
    destruct (findMatch_step k0 c0 (l ++ (k, c) :: after) None H1 H3)
      as (bc0 & Hbc0 & ->).
    destruct (Qgtb (iou bc0 bp) 0.4) eqn:E; [|auto].
    destruct H5. exists bc0, bp. repeat split; try assumption. now apply Qgtb_true.
Qed.

End FindMatch.

Lemma assoc_middle (before after : Candidates) (k : Key) (c : Candidate.t) :
  uniqueKeys (before ++ (k, c) :: after) ->
  assoc key_eqb k (before ++ (k, c) :: after) = Some c.
Proof.
  intros Hu. apply assoc_unique; [assumption|].
  apply in_or_app. right. now left.
Qed.

(** C1, as the code has it.  Let [p] be a resolved detection with a box,
    on a map of candidates with boxes in which no candidate matches [p]
    exactly, the first candidate (in the order of the map) that overlaps [p]
    with an IoU above 0.4 has a streak of at least [CLASS_LOCK_FRAMES], and
    the key made for [p] is not in use.  If [newFit < existingFit * 1.3],
    strictly, the turn of the loop lets that candidate keep the region: its
    box becomes the one of [p], its score [0.7 * old + 0.3 * p._origScore],
    class and streak stay, it is marked seen, the map gets no new key, and
    the detection is confirmed under the candidate's class with the new
    score. *)
Theorem class_lock_retention (now : Z) (t : Tracking) (p : Pred) (bp : BBox)
    (k : Key) (existing : Candidate.t) (aExisting aNew : Q) :
  let key := mkKey (class p) (Math_round (box_x bp / 40))
                   (Math_round (box_y bp / 40)) now in
  let kept := keepClass p existing in
  bbox p = Some bp ->
  uniqueKeys (candidates t) ->
  Forall candidateBoxed (candidates t) ->
  Forall (fun kc => ~ exactMatch p (snd kc)) (candidates t) ->
  firstSpatialMatch p (candidates t) k existing ->
  (CLASS_LOCK_FRAMES <= Candidate.frames existing)%Z ->
  assoc key_eqb key (candidates t) = None ->
  aspectScore (Candidate.cls existing) (bbox p) = Ok aExisting ->
  aspectScore (class p) (bbox p) = Ok aNew ->
  aNew * score p < aExisting * Candidate.score existing * 1.3 ->
  exists t',
    trackOne now t p = Ok t'
    /\ assoc key_eqb k (candidates t') = Some kept
    /\ Candidate.cls kept = Candidate.cls existing
    /\ Candidate.bbox kept = bbox p
    /\ Candidate.score kept = Candidate.score existing * 0.7 + _origScore p * 0.3
    /\ Candidate.frames kept = Candidate.frames existing
    /\ has k (nowKeys t') = true
    /\ map fst (candidates t') = map fst (candidates t)
    /\ confirmed t' =
       confirmed t ++ [withClassScore p (Candidate.cls existing) (Candidate.score kept)].
Proof.
  intros key kept Hbp Hu Hboxed Hne Hfirst Hlock Hfresh HaE HaN Hfit.
  assert (Hk : assoc key_eqb k (candidates t) = Some existing).
  { destruct Hfirst as (before & after & Heq & _). rewrite Heq in Hu |- *.
    now apply assoc_middle. }
  eexists. split.
  - unfold trackOne.
    rewrite (findMatch_first p bp Hbp _ k existing Hboxed Hne Hfirst). simpl.
    unfold freshKey. rewrite Hbp. simpl. fold key. rewrite Hfresh, Hk.
    unfold classLock.
    rewrite (proj2 (Z.geb_le _ _) Hlock), HaE, HaN. simpl.
    rewrite (proj2 (Qltb_true _ _) Hfit). simpl.
    assert (Hc : (Candidate.frames existing >=? CONFIRM_FRAMES)%Z = true).
    { unfold CONFIRM_FRAMES, CLASS_LOCK_FRAMES in *. apply Z.geb_le. lia. }
    rewrite Hc. reflexivity.
  - simpl. rewrite assoc_update, key_eqb_refl, Hk, has_add, key_eqb_refl, update_keys.
    repeat split.
Qed.

(** The lock at work: a "bowl" of fit 0.6 against the locked "cup" of fit
    0.5 (0.6 < 0.65) is confirmed as "cup". *)
Lemma class_lock_retention_witness :
  exists t',
    trackOne 0 lockedOnCup (bowlPred 0.6) = Ok t'
    /\ map class (confirmed t') = ["cup"%string]
    /\ map fst (candidates t') = [lockedCupKey].
Proof.
  destruct (class_lock_retention 0 lockedOnCup (bowlPred 0.6) region
              lockedCupKey lockedCup 1.0 1.0) as (t' & Ht' & _ & _ & _ & _ & _ & _ & Hkeys & Hconf).
  - reflexivity.
  - repeat constructor. simpl. tauto.
  - repeat constructor. now exists region.
  - repeat constructor. intros [Hcls _]. discriminate Hcls.
  - exists [], []. split; [reflexivity|]. split; [|constructor].
    exists region, region. repeat split.
  - unfold CLASS_LOCK_FRAMES. simpl. lia.
  - reflexivity.
  - reflexivity.
  - reflexivity.
  - reflexivity.
  - exists t'. rewrite Hconf, Hkeys. repeat split. assumption.
Defined.

(** C1 as stated fails on the boundary.  The "bowl" of fit 0.65 has no
    exact match, overlaps the locked "cup" (streak 12, fit 0.5) with IoU 1,
    and [newFit <= existingFit * 1.3] holds, with equality; the turn of the
    loop leaves the "cup" candidate as it was and unseen, creates a "bowl"
    candidate and confirms nothing.  The same happens in a run of [filter]:
    after twelve calls on the "cup" of score 0.5, the call on the "bowl" of
    score 0.65 returns no detection. *)
Lemma class_lock_boundary_counterexample :
  (~ exactMatch (bowlPred 0.65) lockedCup)
  /\ spatialMatch (bowlPred 0.65) lockedCup
  /\ (CLASS_LOCK_FRAMES <= Candidate.frames lockedCup)%Z
  /\ aspectScore "bowl" (Some region) = Ok 1.0
  /\ aspectScore "cup" (Some region) = Ok 1.0
  /\ 1.0 * score (bowlPred 0.65) <= 1.0 * Candidate.score lockedCup * 1.3
  /\ trackOne 0 lockedOnCup (bowlPred 0.65) =
     Ok (mkTracking
           [(lockedCupKey, lockedCup);
            (mkKey "bowl" 3 3 0, newCandidate (bowlPred 0.65))]
           [mkKey "bowl" 3 3 0] [])
  /\ fst (filter None None
            (snd (feed None None (fun _ => stillClock) 12 0 [] [cupAt 0.5] 640 480))
            stillClock [bowlAt 0.65] 640 480) = Ok [].
Proof.
  split; [intros [Hcls _]; discriminate Hcls|].
  split; [exists region, region; repeat split|].
  split; [unfold CLASS_LOCK_FRAMES; simpl; lia|].
  split; [reflexivity|]. split; [reflexivity|].
  split; [intros H; discriminate H|].
  split; [reflexivity|]. vm_compute. reflexivity.
Qed.

(** * Confusion groups *)

Lemma aspectScore_min (cls : string) (bb : option BBox) (m : Q) :
  aspectScore cls bb = Ok m -> 0.3 <= m.
Proof.
  unfold aspectScore. destruct (assoc String.eqb cls ASPECT_HINTS) as [hint|].
  - intros H. bind_ok H. destruct (Qeq_bool (box_w a) 0).
    + injection H as <-. now apply Qle_bool_iff.
    + destruct (_ && _).
      * injection H as <-. now apply Qle_bool_iff.
      * injection H as <-. apply Q.le_max_l.
  - intros [= <-]. now apply Qle_bool_iff.
Qed.

Lemma scoreOne_fit (d : RawDetection) (p : Pred) : scoreOne d = Ok p -> fitIsScore p.
Proof.
  unfold scoreOne. intros H. bind_ok H. injection H as <-.
  unfold fitIsScore, fit, orOne. simpl.
  apply aspectScore_min in E.
  destruct (Qeq_bool a 0) eqn:E0.
  - apply Qeq_bool_iff in E0. rewrite E0 in E. exfalso. now apply E.
  - ring.
Qed.

Lemma insertDesc_sorted (p : Pred) (l : list Pred) :
  ForallOrdPairs ranksBefore l -> ForallOrdPairs ranksBefore (insertDesc p l).
Proof.
  induction 1 as [|q l Hq Hl IH]; simpl.
  - repeat constructor.
  - destruct (Qltb (score p) (score q)) eqn:E.
    + constructor; [|assumption]. apply Forall_forall. intros x Hx.
      apply insertDesc_In in Hx as [->|Hx].
      * apply Qltb_true in E. unfold ranksBefore. lra.
      * exact (proj1 (Forall_forall _ _) Hq x Hx).
    + apply Qltb_false in E. constructor; [|now constructor].
      constructor; [exact E|].
      revert Hq. apply Forall_impl. unfold ranksBefore. intros x Hx. lra.
Qed.

Lemma sortDesc_sorted (l : list Pred) : ForallOrdPairs ranksBefore (sortDesc l).
Proof.
  induction l as [|p l IH]; simpl; [constructor|now apply insertDesc_sorted].
Qed.

Lemma confusionFree_sym (a b : Pred) : confusionFree a b -> confusionFree b a.
Proof.
  unfold confusionFree. intros H (g & Hb & Ha).
  apply overlapAtMost_sym, H. now exists g.
Qed.

(** On a list whose entries all rank before [p] with [fit] equal to score, the
    scan replaces nothing; and when it does not find [p] dominated, [p] is
    confusion-free with every entry. *)
Lemma confusionScan_ranked (p : Pred) (grp : nat) (resolved resolved' : list Pred)
    (dominated : bool) :
  confuseMap (class p) = Some grp ->
  fitIsScore p ->
  Forall (fun r => fitIsScore r /\ ranksBefore r p) resolved ->
  confusionScan p grp resolved = Ok (dominated, resolved') ->
  resolved' = resolved
  /\ (dominated = false -> Forall (fun r => confusionFree r p) resolved).
Proof.
  intros Hgrp Hp. revert resolved' dominated.
  induction resolved as [|r rs IH]; simpl; intros resolved' dominated Hrs H.
  - injection H as <- <-. split; [reflexivity|constructor].
  - inversion Hrs as [|? ? [Hr Hrank] Hrs']; subst.
    bind_ok H. destruct a.
    + assert (Hfit : Qgtb (fit p) (fit r) = false).
      { apply Qgtb_false. unfold fitIsScore in Hp, Hr. rewrite Hp, Hr. exact Hrank. }
      rewrite Hfit in H. injection H as <- <-. split; [reflexivity|discriminate].
    + bind_ok H. destruct a as [d rs']. injection H as <- <-.
      destruct (IH _ _ Hrs' eq_refl) as [-> Hfree].
      split; [reflexivity|]. intros ->. constructor; [|now apply Hfree].
      apply confusionFree_sym. intros (g & Hpg & Hrg).
      rewrite Hrg in E. assert (g = grp) by congruence. subst g.
      rewrite Nat.eqb_refl in E. bind_ok E. injection E as E.
      unfold iouJS in E1.
      destruct (bbox p) as [bp|] eqn:Hbp; [|discriminate].
      destruct (bbox r) as [br|] eqn:Hbr; [|discriminate].
      injection E1 as <-. exists bp, br. repeat split; try assumption.
      now apply Qgtb_false.
Qed.

Lemma confusion_ranked (kept resolved result : list Pred) :
  ForallOrdPairs ranksBefore (resolved ++ kept) ->
  Forall fitIsScore (resolved ++ kept) ->
  ForallOrdPairs confusionFree resolved ->
  confusion kept resolved = Ok result ->
  ForallOrdPairs confusionFree result.
Proof.
  revert resolved. induction kept as [|p ps IH]; simpl; intros resolved Hrank Hfit Hfree H.
  - now injection H as <-.
  - assert (Hpush : ForallOrdPairs ranksBefore ((resolved ++ [p]) ++ ps)
                    /\ Forall fitIsScore ((resolved ++ [p]) ++ ps)).
    { now rewrite <- app_assoc. }
    assert (Hsub : subseq (resolved ++ ps) (resolved ++ p :: ps)).
    { clear. induction resolved; simpl.
      - apply subseq_skip, subseq_refl.
      - now apply subseq_keep. }
    assert (Hdrop : ForallOrdPairs ranksBefore (resolved ++ ps)
                    /\ Forall fitIsScore (resolved ++ ps)).
    { split; [exact (pairwise_subseq _ _ _ _ Hsub Hrank)|exact (Forall_subseq _ _ _ Hsub Hfit)]. }
    assert (Hp : fitIsScore p
                 /\ Forall (fun r => fitIsScore r /\ ranksBefore r p) resolved).
    { apply Forall_app in Hfit as [Hfr Hfk]. inversion Hfk; subst.
      split; [assumption|]. apply Forall_forall. intros r Hr.
      split; [exact (proj1 (Forall_forall _ _) Hfr r Hr)|].
      clear - Hrank Hr. induction resolved as [|x l IHl]; [destruct Hr|].
      simpl in Hrank. inversion Hrank; subst. destruct Hr as [->|Hr]; [|auto].
      apply (proj1 (Forall_forall _ _) H1). apply in_or_app. right. now left. }
    destruct Hp as [Hp Hres].
    destruct (confuseMap (class p)) as [grp|] eqn:Hgrp.
    + bind_ok H. destruct a as [dominated resolved'].
      destruct (confusionScan_ranked p grp resolved resolved' dominated Hgrp Hp Hres E)
        as [-> Hno].
      destruct dominated.
      * now apply (IH resolved).
      * apply (IH (resolved ++ [p])); try tauto.
        apply pairwise_snoc; [assumption|now apply Hno].
    + apply (IH (resolved ++ [p])); try tauto.
      apply pairwise_snoc; [assumption|].
      apply Forall_forall. intros r _ (g & _ & Hg). congruence.
Qed.

Section ResolvedConfusion.
Variable DICT : option (string -> option DictEntry).
Variable SIZE_RANGES : option (string -> option SizeRange).

Lemma pipeline_confusionFree (rawPreds : list RawDetection) (w h : Q)
    (resolved : list Pred) :
  pipeline DICT SIZE_RANGES rawPreds w h = Ok resolved ->
  ForallOrdPairs confusionFree resolved.
Proof.
  unfold pipeline. intros H. bind_ok H. bind_ok H. bind_ok H.
  rename a into scored, a0 into sized, a1 into kept.
  assert (Hsub : subseq kept (sortDesc scored)).
  { apply nms_shape in E1 as (added & -> & Hadded). simpl.
    apply (subseq_trans _ _ _ Hadded).
    apply (subseq_trans _ _ _ (filter_subseq _ _)).
    exact (filterM_subseq _ _ _ E0). }
  apply (confusion_ranked kept []); simpl.
  - exact (pairwise_subseq _ _ _ _ Hsub (sortDesc_sorted scored)).
  - apply (Forall_subseq _ _ _ Hsub). apply Forall_forall. intros q Hq.
    apply (proj1 (sortDesc_In _ _)) in Hq.
    destruct (mapM_In _ _ _ _ E Hq) as (d & _ & Hd). now apply scoreOne_fit in Hd.
  - constructor.
  - assumption.
Qed.
End ResolvedConfusion.

Lemma stepEffect_emission (p : Pred) (t t' : Tracking) :
  stepEffect p t t' ->
  exists emitted sources,
    confirmed t' = confirmed t ++ emitted
    /\ subseq sources [p]
    /\ Forall2 derivedFrom emitted sources.
Proof.
  intros [k Hk _ _ ->|k c Hk _ _ ->|k kNew c Hk Hge _ _ ->].
  - exists [], []. rewrite app_nil_r. repeat split; [apply subseq_nil_l|constructor].
  - destruct (Z.geb _ _).
    + exists [p], [p]. repeat split; [apply subseq_refl|].
      repeat constructor.
    + exists [], []. rewrite app_nil_r.
      repeat split; [apply subseq_nil_l|constructor].
  - eexists [_], [p]. repeat split; [apply subseq_refl|].
    constructor; [|constructor]. right. eauto.
Qed.

Lemma subseq_app {A : Type} (l1 l1' l2 l2' : list A) :
  subseq l1 l1' -> subseq l2 l2' -> subseq (l1 ++ l2) (l1' ++ l2').
Proof.
  induction 1; simpl; intros H2.
  - assumption.
  - apply subseq_skip. auto.
  - apply subseq_keep. auto.
Qed.

Lemma trackLoop_emissions (clock : nat -> Z) (resolved : list Pred) :
  forall i t t' completed,
    trackLoop clock i resolved t = (t', completed) ->
    exists emitted sources,
      confirmed t' = confirmed t ++ emitted
      /\ subseq sources resolved
      /\ Forall2 derivedFrom emitted sources.
Proof.
  induction resolved as [|p ps IH]; simpl; intros i t t' completed H.
  - injection H as <- <-. exists [], []. rewrite app_nil_r.
    repeat split; constructor.
  - destruct (trackOne (clock i) t p) as [t1|] eqn:E.
    + apply trackOne_effect, stepEffect_emission in E as (e1 & s1 & H1 & Hs1 & Hd1).
      destruct (IH _ _ _ _ H) as (e2 & s2 & H2 & Hs2 & Hd2).
      exists (e1 ++ e2), (s1 ++ s2). rewrite H2, H1, <- app_assoc.
      repeat split.
      * exact (subseq_app _ _ _ _ Hs1 Hs2).
      * now apply Forall2_app.
    + injection H as <- <-. exists [], []. rewrite app_nil_r.
      repeat split; [apply subseq_nil_l|constructor].
Qed.

Lemma derivedFrom_bbox (r s : Pred) : derivedFrom r s -> bbox r = bbox s.
Proof. now intros [->|(cls & sc & ->)]. Qed.

Lemma Forall2_nth {A B : Type} (R : A -> B -> Prop) (l : list A) (l' : list B) :
  Forall2 R l l' ->
  forall i a, nth_error l i = Some a -> exists b, nth_error l' i = Some b /\ R a b.
Proof.
  induction 1 as [|x y l l' Hxy _ IH]; intros i a Hi.
  - destruct i; discriminate.
  - destruct i as [|i]; simpl in *.
    + injection Hi as <-. eauto.
    + now apply IH.
Qed.

Lemma overlapAtMost_bbox (thr : Q) (a b a' b' : Pred) :
  bbox a' = bbox a -> bbox b' = bbox b ->
  overlapAtMost thr a b -> overlapAtMost thr a' b'.
Proof.
  intros Ha Hb (ba & bb & H1 & H2 & H3). exists ba, bb.
  repeat split; congruence.
Qed.

Section ResolvedOverlap.
Variable DICT : option (string -> option DictEntry).
Variable SIZE_RANGES : option (string -> option SizeRange).

Lemma pipeline_pairwise (rawPreds : list RawDetection) (w h : Q)
    (resolved : list Pred) :
  pipeline DICT SIZE_RANGES rawPreds w h = Ok resolved ->
  ForallOrdPairs (overlapAtMost NMS_THRESHOLD) resolved.
Proof.
  unfold pipeline. intros H. bind_ok H. bind_ok H. bind_ok H.
  apply (confusion_pairwise a1 []); [|assumption].
  simpl. apply (nms_pairwise _ [] _ (FOP_nil _) E1).
Qed.
End ResolvedOverlap.

(** C3, as the code has it.  The list a call of [filter] returns lines up,
    in order, with resolved detections of the call: each entry is its
    resolved detection, or that detection with class and score replaced by
    the class-lock override.  Two entries that carry the class of their
    resolved detection, the classes in one confusion group, overlap with an
    IoU of at most [CONFUSION_THRESHOLD] = 0.3; any two entries overlap with
    an IoU of at most [NMS_THRESHOLD] = 0.35. *)
Theorem confirmed_confusion_invariant (DICT : option (string -> option DictEntry))
    (SIZE_RANGES : option (string -> option SizeRange))
    (cands : Candidates) (clock : nat -> Z) (rawPreds : list RawDetection)
    (videoWidth videoHeight : Q) (result : list Pred) :
  fst (filter DICT SIZE_RANGES cands clock rawPreds videoWidth videoHeight) = Ok result ->
  exists resolved sources,
    pipeline DICT SIZE_RANGES rawPreds videoWidth videoHeight = Ok resolved
    /\ subseq sources resolved
    /\ Forall2 derivedFrom result sources
    /\ (forall i j a b sa sb,
          i <> j ->
          nth_error result i = Some a -> nth_error sources i = Some sa ->
          nth_error result j = Some b -> nth_error sources j = Some sb ->
          class a = class sa -> class b = class sb ->
          sameGroup a b ->
          overlapAtMost CONFUSION_THRESHOLD a b)
    /\ (forall i j a b,
          i <> j ->
          nth_error result i = Some a ->
          nth_error result j = Some b ->
          overlapAtMost NMS_THRESHOLD a b).
Proof.
  unfold filter. intros H.
  destruct (pipeline DICT SIZE_RANGES rawPreds videoWidth videoHeight)
    as [resolved|] eqn:Hpipe; [|discriminate].
  destruct (trackLoop clock 0 resolved (mkTracking cands [] [])) as [t completed] eqn:Hloop.
  destruct completed; [|discriminate]. simpl in H. injection H as <-.
  destruct (trackLoop_emissions _ _ _ _ _ _ Hloop) as (emitted & sources & Hconf & Hsub & Hder).
  simpl in Hconf. subst emitted. exists resolved, sources. repeat split; try assumption.
  - intros i j a b sa sb Hij Ha Hsa Hb Hsb Hca Hcb (g & Hga & Hgb).
    destruct (Forall2_nth _ _ _ Hder i a Ha) as (sa' & Hsa' & Hda).
    destruct (Forall2_nth _ _ _ Hder j b Hb) as (sb' & Hsb' & Hdb).
    assert (sa' = sa) by congruence. assert (sb' = sb) by congruence. subst.
    apply (overlapAtMost_bbox _ sa sb);
      [now apply derivedFrom_bbox|now apply derivedFrom_bbox|].
    apply (pairwise_nth _ confusionFree confusionFree_sym sources
             (pairwise_subseq _ _ _ _ Hsub
                (pipeline_confusionFree DICT SIZE_RANGES _ _ _ _ Hpipe)) i j);
      try assumption.
    exists g. split; congruence.
  - intros i j a b Hij Ha Hb.
    destruct (Forall2_nth _ _ _ Hder i a Ha) as (sa & Hsa & Hda).
    destruct (Forall2_nth _ _ _ Hder j b Hb) as (sb & Hsb & Hdb).
    apply (overlapAtMost_bbox _ sa sb);
      [now apply derivedFrom_bbox|now apply derivedFrom_bbox|].
    exact (pairwise_nth _ (overlapAtMost NMS_THRESHOLD)
             (fun x y => overlapAtMost_sym NMS_THRESHOLD x y) sources
             (pairwise_subseq _ _ _ _ Hsub
                (pipeline_pairwise DICT SIZE_RANGES _ _ _ _ Hpipe))
             i j sa sb Hij Hsa Hsb).
Qed.

(** The invariant on a call that confirms the "cup" and the "bowl" of the
    shelf, side by side. *)
Lemma confirmed_confusion_invariant_witness :
  let call :=
    filter None None
      (snd (feed None None (fun _ => stillClock) 7 0 [] shelf 640 480))
      stillClock shelf 640 480 in
  fst call = Ok (returned (fst call))
  /\ map class (returned (fst call)) = ["cup"; "bowl"]%string
  /\ forall i j a b,
       i <> j ->
       nth_error (returned (fst call)) i = Some a ->
       nth_error (returned (fst call)) j = Some b ->
       overlapAtMost NMS_THRESHOLD a b.
Proof.
  intros call.
  assert (H : fst call = Ok (returned (fst call))) by (vm_compute; reflexivity).
  split; [exact H|]. split; [vm_compute; reflexivity|].
  destruct (confirmed_confusion_invariant None None _ stillClock shelf 640 480 _ H)
    as (resolved & sources & _ & _ & _ & _ & Hnms).
  exact Hnms.
Defined.

(** C3 as stated fails under the class-lock override.  After twelve calls
    on the shelf both candidates are locked.  In the next frame the detector
    reports a "laptop" over the cup (IoU 3/7 with the candidate's box) and
    the "bowl" nearer to it; "laptop" and "bowl" are in different groups and
    their boxes overlap with IoU 1/3, so both are resolved.  The lock turns
    the "laptop" into a "cup": the call returns a "cup" and a "bowl", two
    classes of one group, on boxes of IoU 1/3 > 0.3. *)
Lemma confusion_lock_counterexample :
  let call :=
    filter None None
      (snd (feed None None (fun _ => stillClock) 12 0 [] shelf 640 480))
      stillClock shifted 640 480 in
  fst call = Ok (returned (fst call))
  /\ map class (returned (fst call)) = ["cup"; "bowl"]%string
  /\ map bbox (returned (fst call)) =
     [Some (mkBBox 40 0 100 80); Some (mkBBox 90 0 100 80)]
  /\ confuseMap "cup" = Some 1%nat
  /\ confuseMap "bowl" = Some 1%nat
  /\ iou (mkBBox 40 0 100 80) (mkBBox 90 0 100 80) == 1 # 3
  /\ CONFUSION_THRESHOLD < iou (mkBBox 40 0 100 80) (mkBBox 90 0 100 80).
Proof.
  intros call.
  split; [vm_compute; reflexivity|].
  split; [vm_compute; reflexivity|].
  split; [vm_compute; reflexivity|].
  repeat split.
Qed.

(** * Input items and exceptions *)

Lemma findMatch_total (p : Pred) (cands : Candidates) :
  boxed p -> Forall candidateBoxed cands ->
  forall byLoc0,
  exists matchedKey byLoc,
    findMatch p cands byLoc0 = Ok (matchedKey, byLoc)
    /\ (forall k, byLoc = Some k -> byLoc0 = Some k \/ In k (map fst cands)).
Proof.
  intros (bp & Hbp). induction 1 as [|[k c] l (bc & Hbc) _ IH]; intros byLoc0; simpl.
  - eauto.
  - simpl in Hbc. rewrite Hbc, Hbp. simpl.
    destruct (String.eqb (Candidate.cls c) (class p) && Qgtb (iou bc bp) 0.25) eqn:E.
    + exists (Some k), byLoc0.
      apply andb_true_iff in E as [-> E]. simpl. rewrite E. auto.
    + match goal with
      | |- context [findMatch p l ?b] => destruct (IH b) as (mk & bl & Hfm & Hbl)
      end.
      exists mk, bl. split.
      * destruct (String.eqb (Candidate.cls c) (class p)); simpl in *;
          [rewrite E|]; exact Hfm.
      * intros k0 Hk0. destruct (Hbl k0 Hk0) as [H|H]; [|auto].
        destruct byLoc0; [auto|].
        destruct (Qgtb (iou bc bp) 0.4); [|discriminate]. injection H as <-. auto.
Qed.

Lemma classLock_total (p : Pred) (existing : Candidate.t) :
  boxed p -> exists r, classLock p existing = Ok r.
Proof.
  intros (bp & Hbp). unfold classLock. rewrite Hbp.
  destruct (Z.geb _ _); [|eauto].
  destruct (aspectScore_total (Candidate.cls existing) bp) as (m1 & ->).
  destruct (aspectScore_total (class p) bp) as (m2 & ->). simpl.
  destruct (Qltb _ _); eauto.
Qed.

Lemma trackOne_total (now : Z) (t : Tracking) (p : Pred) :
  boxed p -> Forall candidateBoxed (candidates t) ->
  exists t', trackOne now t p = Ok t'.
Proof.
  intros Hp Hc. unfold trackOne.
  destruct (findMatch_total p (candidates t) Hp Hc None) as (mk & bl & -> & Hbl).
  simpl.
  assert (Hkey : exists rKey,
             match mk with Some k => Ok k | None => freshKey p now end = Ok rKey).
  { destruct mk; [eauto|]. unfold freshKey. destruct Hp as (bp & ->). simpl. eauto. }
  destruct Hkey as (rKey & ->). simpl.
  destruct (assoc key_eqb rKey (candidates t)) as [c|] eqn:Hr.
  - unfold confirmIf. simpl. rewrite assoc_update, key_eqb_refl, Hr. simpl. eauto.
  - assert (Hcreate : exists t',
              confirmIf rKey p
                (create rKey p
                   (mkTracking (candidates t) (add rKey (nowKeys t)) (confirmed t)))
              = Ok t').
    { rewrite confirmIf_created by exact Hr. eauto. }
    destruct bl as [kLoc|]; [|exact Hcreate].
    destruct mk; [exact Hcreate|].
    destruct (Hbl kLoc eq_refl) as [H|H]; [discriminate|].
    destruct (assoc key_eqb kLoc (candidates t)) as [existing|] eqn:Hloc.
    + destruct (classLock_total p existing Hp) as ([e'|] & ->); simpl; eauto.
    + apply assoc_None_notin in Hloc. contradiction.
Qed.

Lemma stepEffect_boxed (p : Pred) (t t' : Tracking) :
  stepEffect p t t' -> boxed p ->
  Forall candidateBoxed (candidates t) -> Forall candidateBoxed (candidates t').
Proof.
  intros [k Hk -> _ _|k c Hk -> _ _|k kNew c Hk Hge -> _ _] Hp H.
  - apply Forall_app. split; [assumption|]. now repeat constructor.
  - apply update_Forall; [|assumption]. intros c0 _. exact Hp.
  - apply update_Forall; [|assumption]. intros c0 _. exact Hp.
Qed.

Lemma trackLoop_total (clock : nat -> Z) (resolved : list Pred) :
  Forall boxed resolved ->
  forall i t,
    Forall candidateBoxed (candidates t) ->
    exists t', trackLoop clock i resolved t = (t', true).
Proof.
  induction 1 as [|p ps Hp _ IH]; simpl; intros i t Ht; [eauto|].
  destruct (trackOne_total (clock i) t p Hp Ht) as (t1 & E). rewrite E.
  apply IH. apply trackOne_effect in E. now apply (stepEffect_boxed p t).
Qed.

Section FilterTotal.
Variable DICT : option (string -> option DictEntry).
Variable SIZE_RANGES : option (string -> option SizeRange).

Lemma filter_total (cands : Candidates) (clock : nat -> Z)
    (rawPreds : list RawDetection) (w h : Q) :
  Forall rawBoxed rawPreds -> Forall candidateBoxed cands ->
  exists result, fst (filter DICT SIZE_RANGES cands clock rawPreds w h) = Ok result.
Proof.
  intros Hraw Hc. unfold filter.
  destruct (pipeline_total DICT SIZE_RANGES rawPreds w h Hraw) as (resolved & -> & Hres).
  destruct (trackLoop_total clock resolved Hres 0%nat (mkTracking cands [] []) Hc)
    as (t' & ->).
  simpl. eauto.
Qed.
End FilterTotal.

Lemma mapM_app {A B : Type} (f : A -> Res B) (l1 l2 : list A) :
  mapM f (l1 ++ l2) = (a <- mapM f l1 ;; b <- mapM f l2 ;; Ok (a ++ b)).
Proof.
  induction l1 as [|x l1 IH]; simpl.
  - now destruct (mapM f l2).
  - destruct (f x); simpl; [|reflexivity]. rewrite IH.
    destruct (mapM f l1); simpl; [|reflexivity].
    now destruct (mapM f l2).
Qed.

Lemma insertDesc_head (p : Pred) (l : list Pred) :
  Forall (fun x => ranksBefore p x) l -> insertDesc p l = p :: l.
Proof.
  destruct 1 as [|q l Hq _]; simpl; [reflexivity|].
  now rewrite (proj2 (Qltb_false _ _) Hq).
Qed.

Lemma filter_insertDesc (g : Pred -> bool) (p : Pred) (l : list Pred) :
  ForallOrdPairs ranksBefore l ->
  List.filter g (insertDesc p l) =
  if g p then insertDesc p (List.filter g l) else List.filter g l.
Proof.
  induction 1 as [|q l Hq Hl IH]; simpl.
  - now destruct (g p).
  - destruct (Qltb (score p) (score q)) eqn:E; simpl.
    + rewrite IH. destruct (g p), (g q); simpl; try reflexivity. now rewrite E.
    + destruct (g p) eqn:Hp; [|reflexivity].
      symmetry. apply (insertDesc_head p (List.filter g (q :: l))).
      apply (Forall_subseq _ _ _ (filter_subseq g (q :: l))).
      apply Qltb_false in E. constructor; [exact E|].
      revert Hq. apply Forall_impl. unfold ranksBefore. intros x Hx. lra.
Qed.

Lemma filter_sortDesc (g : Pred -> bool) (l : list Pred) :
  List.filter g (sortDesc l) = sortDesc (List.filter g l).
Proof.
  induction l as [|p l IH]; simpl; [reflexivity|].
  rewrite (filter_insertDesc g p _ (sortDesc_sorted l)), IH.
  now destruct (g p).
Qed.

Lemma decay_boxed (nowKeys : list Key) (cands : Candidates) :
  Forall candidateBoxed cands -> Forall candidateBoxed (decay nowKeys cands).
Proof.
  induction 1 as [|[k c] l Hc _ IH]; simpl; [constructor|].
  destruct (has k nowKeys); [now constructor|].
  destruct (Z.leb _ _); [assumption|]. constructor; [exact Hc|assumption].
Qed.

Lemma trackLoop_boxed (clock : nat -> Z) (resolved : list Pred) :
  forall i t,
    Forall candidateBoxed (candidates t) ->
    Forall candidateBoxed (candidates (fst (trackLoop clock i resolved t))).
Proof.
  induction resolved as [|p ps IH]; simpl; intros i t Ht; [assumption|].
  destruct (trackOne (clock i) t p) as [t'|] eqn:E; [|assumption].
  apply IH. apply (stepEffect_boxed p t).
  - now apply trackOne_effect in E.
  - now apply trackOne_boxed in E.
  - assumption.
Qed.

Section Malformed.

Variable DICT : option (string -> option DictEntry).
Variable SIZE_RANGES : option (string -> option SizeRange).

(** Every candidate of a map the tracker can be in carries a box. *)
Lemma reachable_boxed (cands : Candidates) :
  reachable DICT SIZE_RANGES cands -> Forall candidateBoxed cands.
Proof.
  induction 1 as [|cands clock rawPreds w h _ IH|cands _ _].
  - constructor.
  - unfold filter.
    destruct (pipeline DICT SIZE_RANGES rawPreds w h) as [resolved|]; [|assumption].
    pose proof (trackLoop_boxed clock resolved 0%nat (mkTracking cands [] []) IH)
      as Hloop.
    destruct (trackLoop clock 0 resolved (mkTracking cands [] [])) as [t completed].
    simpl in Hloop. destruct completed; simpl; [|assumption].
    now apply decay_boxed.
  - rewrite reset_empty. constructor.
Qed.

End Malformed.

(** * The theorems at work on the scene *)

(** Eight calls on the "cup" of the scene: confirmed on the eighth. *)
Lemma confirmation_delay_witness :
  fst (feed None None tickingClocks 8 0 [] [cupAt 0.5] 640 480) =
  [Ok []; Ok []; Ok []; Ok []; Ok []; Ok []; Ok []; Ok [cupPred]].
Proof.
  apply (confirmation_delay None None tickingClocks (cupAt 0.5) 640 480 cupPred region);
    reflexivity.
Defined.

(** C4 as stated fails on a box of width 0.  The pipeline resolves a "cup"
    of raw score 1 on such a box, at adjusted score 0.5.  The box has IoU 0
    with itself, so no call finds the candidate of the call before: with a
    clock that advances between the calls each call makes a candidate under
    a new key, the old one decays, and neither the eighth call nor any of
    the first forty confirms the detection. *)
Lemma confirmation_delay_counterexample :
  pipeline None None [flatCup] 640 480
  = Ok [mkPred "cup" (Some (mkBBox 100 100 0 40)) (1 * 0.5) 1 0.5]
  /\ fst (feed None None tickingClocks 8 0 [] [flatCup] 640 480) =
     [Ok []; Ok []; Ok []; Ok []; Ok []; Ok []; Ok []; Ok []]
  /\ fst (feed None None tickingClocks 40 0 [] [flatCup] 640 480) = repeat (Ok []) 40.
Proof. vm_compute. repeat split; reflexivity. Qed.

(** The two detections that the pipeline resolves in the shifted frame
    overlap with IoU 1/3. *)
Lemma resolved_nms_invariant_witness :
  exists ba bb,
    bbox (mkPred "laptop" (Some (mkBBox 40 0 100 80)) (0.9 * 1.0) 0.9 1.0) = Some ba
    /\ bbox (mkPred "bowl" (Some (mkBBox 90 0 100 80)) (0.8 * 1.0) 0.8 1.0) = Some bb
    /\ iou ba bb <= NMS_THRESHOLD.
Proof.
  apply (proj2 (resolved_nms_invariant None None shifted 640 480)
           [mkPred "laptop" (Some (mkBBox 40 0 100 80)) (0.9 * 1.0) 0.9 1.0;
            mkPred "bowl" (Some (mkBBox 90 0 100 80)) (0.8 * 1.0) 0.8 1.0]
           0%nat 1%nat).
  - reflexivity.
  - discriminate.
  - reflexivity.
  - reflexivity.
Defined.

(** A confirmed "cup" while the detector sees only a person elsewhere:
    streak 2 after three such frames, gone after the fourth. *)
Lemma decay_eviction_timing_witness :
  let cands := [(lockedCupKey, confirmedCup)] in
  let cands3 :=
    applyOp None None
      (applyOp None None (applyOp None None cands personOnly) personOnly)
      personOnly in
  streak cands3 lockedCupKey = Some 2%Z
  /\ streak (applyOp None None cands3 personOnly) lockedCupKey = None.
Proof.
  intros cands cands3.
  destruct (decay_eviction_timing None None cands lockedCupKey
              personOnly personOnly personOnly personOnly)
    as (_ & _ & H3 & H4 & _).
  - repeat constructor. simpl. tauto.
  - reflexivity.
  - eexists _, _. split; [reflexivity|]. split; reflexivity.
  - eexists _, _. split; [reflexivity|]. split; reflexivity.
  - eexists _, _. split; [reflexivity|]. split; reflexivity.
  - eexists _, _. split; [reflexivity|]. split; reflexivity.
  - split; assumption.
Defined.

(** The map after a call on the shelf. *)
Lemma live_candidate_streak_witness :
  live (snd (filter None None [] stillClock shelf 640 480)).
Proof.
  apply Forall_forall. intros [k c] Hin.
  refine (proj1 (live_candidate_streak None None _ _) k c Hin).
  apply reach_filter, reach_init.
Defined.

(** The locked "cup" keeps its class across a call on a "bowl" of fit 0.6. *)
Lemma candidate_class_immutable_witness :
  option_map Candidate.cls
    (assoc key_eqb lockedCupKey
       (snd (filter None None [(lockedCupKey, lockedCup)] stillClock
               [bowlAt 0.6] 640 480)))
  = Some "cup"%string.
Proof.
  assert (E : assoc key_eqb lockedCupKey
                (snd (filter None None [(lockedCupKey, lockedCup)] stillClock
                        [bowlAt 0.6] 640 480))
              = Some (keepClass (bowlPred 0.6) lockedCup))
    by (vm_compute; reflexivity).
  assert (Hu : uniqueKeys [(lockedCupKey, lockedCup)])
    by (repeat constructor; simpl; tauto).
  pose proof (proj1 (proj2 (candidate_class_immutable None None))
                [(lockedCupKey, lockedCup)] stillClock [bowlAt 0.6] 640 480
                lockedCupKey lockedCup _ Hu eq_refl E) as H.
  rewrite E. exact (f_equal Some H).
Defined.

(** * Further properties of the pipeline *)

(** ** Intersection over union *)

(** Either the boxes do not overlap and [iou] is 0, or they do, both have
    positive width and height and [iou] lies in (0, 1]. *)
Lemma iou_cases (a b : BBox) :
  let x1 := Qmax (box_x a) (box_x b) in
  let y1 := Qmax (box_y a) (box_y b) in
  let x2 := Qmin (box_x a + box_w a) (box_x b + box_w b) in
  let y2 := Qmin (box_y a + box_h a) (box_y b + box_h b) in
  ((x2 <= x1 \/ y2 <= y1) /\ iou a b = 0)
  \/ (x1 < x2 /\ y1 < y2
      /\ 0 < iou a b /\ iou a b <= 1
      /\ 0 < box_w a /\ 0 < box_h a /\ 0 < box_w b /\ 0 < box_h b).
Proof.
  intros x1 y1 x2 y2. unfold iou. fold x1 y1 x2 y2.
  destruct (Qle_bool x2 x1) eqn:Ex;
    [left; split; [left; now apply Qle_bool_iff|reflexivity]|].
  destruct (Qle_bool y2 y1) eqn:Ey;
    [left; split; [right; now apply Qle_bool_iff|reflexivity]|].
  right. simpl. apply Qle_bool_false in Ex, Ey. unfold x1, y1, x2, y2 in *.
  pose proof (Q.le_max_l (box_x a) (box_x b)).
  pose proof (Q.le_max_r (box_x a) (box_x b)).
  pose proof (Q.le_max_l (box_y a) (box_y b)).
  pose proof (Q.le_max_r (box_y a) (box_y b)).
  pose proof (Q.le_min_l (box_x a + box_w a) (box_x b + box_w b)).
  pose proof (Q.le_min_r (box_x a + box_w a) (box_x b + box_w b)).
  pose proof (Q.le_min_l (box_y a + box_h a) (box_y b + box_h b)).
  pose proof (Q.le_min_r (box_y a + box_h a) (box_y b + box_h b)).
  set (dx := Qmin (box_x a + box_w a) (box_x b + box_w b)
             - Qmax (box_x a) (box_x b)) in *.
  set (dy := Qmin (box_y a + box_h a) (box_y b + box_h b)
             - Qmax (box_y a) (box_y b)) in *.
  assert (Hdx : 0 < dx) by (unfold dx; lra).
  assert (Hdy : 0 < dy) by (unfold dy; lra).
  assert (Hwa : dx <= box_w a) by (unfold dx; lra).
  assert (Hwb : dx <= box_w b) by (unfold dx; lra).
  assert (Hha : dy <= box_h a) by (unfold dy; lra).
  assert (Hhb : dy <= box_h b) by (unfold dy; lra).
  assert (Hi : 0 < dx * dy) by (apply Qmult_lt_0_compat; assumption).
  assert (Ha : dx * dy <= box_w a * box_h a) by nra.
  assert (Hb : dx * dy <= box_w b * box_h b) by nra.
  repeat split; try lra.
  - apply Qlt_shift_div_l; lra.
  - apply Qle_shift_div_r; lra.
Qed.

(** X2.  A box whose width or height is zero or negative has IoU 0 with
    every box, itself included, whichever way round; so none of the tests
    [iou(..) > threshold] of steps 5 to 7 holds of such a box. *)
Theorem degenerate_box_overlaps_nothing (a : BBox) :
  box_w a <= 0 \/ box_h a <= 0 ->
  forall b, iou a b == 0 /\ iou b a == 0.
Proof.
  intros Hdeg b.
  assert (H : iou a b == 0).
  { destruct (iou_cases a b) as [[_ ->]|(_ & _ & _ & _ & Hw & Hh & _)];
      [reflexivity|]. lra. }
  split; [exact H|]. now rewrite iou_sym.
Qed.

Lemma degenerate_box_overlaps_nothing_witness :
  iou (mkBBox 100 100 0 40) (mkBBox 90 90 50 60) == 0
  /\ iou (mkBBox 90 90 50 60) (mkBBox 100 100 0 40) == 0.
Proof.
  apply (degenerate_box_overlaps_nothing (mkBBox 100 100 0 40)).
  left. simpl. lra.
Defined.

(** ** The range of the aspect multiplier *)

Lemma ASPECT_HINTS_weights :
  Forall (fun kh => 0 < AspectHint.weight (snd kh)) ASPECT_HINTS.
Proof. repeat constructor. Qed.

Lemma aspectScore_max (cls : string) (bb : option BBox) (m : Q) :
  aspectScore cls bb = Ok m -> m <= 1.
Proof.
  unfold aspectScore.
  destruct (assoc String.eqb cls ASPECT_HINTS) as [hint|] eqn:Hhint.
  - destruct (hint_window _ _ Hhint) as [Hlo Hlohi].
    assert (Hwt : 0 < AspectHint.weight hint).
    { apply assoc_In in Hhint.
      exact (proj1 (Forall_forall _ _) ASPECT_HINTS_weights _ Hhint). }
    intros H. bind_ok H. destruct (Qeq_bool (box_w a) 0).
    + injection H as <-. now apply Qle_bool_iff.
    + destruct (Qgeb (box_h a / box_w a) (AspectHint.min hint)
                && Qle_bool (box_h a / box_w a) (AspectHint.max hint)) eqn:Ein.
      * injection H as <-. now apply Qle_bool_iff.
      * injection H as <-. apply Q.max_lub; [now apply Qle_bool_iff|].
        set (aspect := box_h a / box_w a) in *.
        assert (Hdist : 0 <= (if Qltb aspect (AspectHint.min hint)
                              then (AspectHint.min hint - aspect) / AspectHint.min hint
                              else (aspect - AspectHint.max hint) / AspectHint.max hint)).
        { destruct (Qltb aspect (AspectHint.min hint)) eqn:Elt.
          - apply Qltb_true in Elt. apply Qle_shift_div_l; lra.
          - apply Qltb_false in Elt.
            apply andb_false_iff in Ein as [Ein|Ein].
            + apply Qgeb_false in Ein. lra.
            + apply Qle_bool_false in Ein. apply Qle_shift_div_l; lra. }
        set (dist := if Qltb aspect (AspectHint.min hint) then _ else _) in *.
        assert (0 <= dist * AspectHint.weight hint) by (apply Qmult_le_0_compat; lra).
        lra.
  - intros [= <-]. now apply Qle_bool_iff.
Qed.

(** X3.  The aspect multiplier lies between 0.3 and 1 for every class and
    box; so step 1 never raises a score, and never takes more than 70 % off
    a score that is not negative. *)
Theorem aspect_multiplier_range :
  (forall cls bbox m, aspectScore cls bbox = Ok m -> 0.3 <= m /\ m <= 1)
  /\ (forall d q,
        scoreOne d = Ok q -> 0 <= raw_score d ->
        0.3 * raw_score d <= score q /\ score q <= raw_score d).
Proof.
  split.
  - intros cls bb m H. split; [exact (aspectScore_min _ _ _ H)|exact (aspectScore_max _ _ _ H)].
  - intros d q H Hs. unfold scoreOne in H. bind_ok H. injection H as <-. simpl.
    pose proof (aspectScore_min _ _ _ E). pose proof (aspectScore_max _ _ _ E).
    split; nra.
Qed.

Lemma aspect_multiplier_range_witness :
  0.3 * 0.8 <= score (bowlPred 0.8) /\ score (bowlPred 0.8) <= 0.8.
Proof.
  apply (proj2 aspect_multiplier_range (bowlAt 0.8) (bowlPred 0.8)).
  - reflexivity.
  - simpl. lra.
Defined.

(** ** The shape of the resolved list *)

Lemma subseq_length {A : Type} (l l' : list A) :
  subseq l l' -> (length l <= length l')%nat.
Proof. induction 1; simpl; lia. Qed.

Lemma subseq_app_l {A : Type} (l l1 l2 : list A) :
  subseq l1 l2 -> subseq (l ++ l1) (l ++ l2).
Proof. intros H. induction l; simpl; [assumption|now apply subseq_keep]. Qed.

Lemma insertDesc_length (p : Pred) (l : list Pred) :
  length (insertDesc p l) = S (length l).
Proof.
  induction l as [|q l IH]; simpl; [reflexivity|].
  destruct (Qltb (score p) (score q)); simpl; [now rewrite IH|reflexivity].
Qed.

Lemma sortDesc_length (l : list Pred) : length (sortDesc l) = length l.
Proof.
  induction l as [|p l IH]; simpl; [reflexivity|].
  now rewrite insertDesc_length, IH.
Qed.

Lemma mapM_length {A B : Type} (f : A -> Res B) (l : list A) (l' : list B) :
  mapM f l = Ok l' -> length l' = length l.
Proof.
  revert l'. induction l as [|a l IH]; simpl; intros l' H.
  - now injection H as <-.
  - bind_ok H. bind_ok H. injection H as <-. simpl. now rewrite (IH _ eq_refl).
Qed.

Lemma pairwise_across {A : Type} (R : A -> A -> Prop) (l1 l2 : list A) (a b : A) :
  ForallOrdPairs R (l1 ++ l2) -> In a l1 -> In b l2 -> R a b.
Proof.
  induction l1 as [|x l1 IH]; simpl; intros H Ha Hb; [destruct Ha|].
  inversion H as [|? ? Hx Hl]; subst. destruct Ha as [->|Ha]; [|now apply IH].
  apply (proj1 (Forall_forall _ _) Hx). apply in_or_app. now right.
Qed.

Section ResolvedShape.

Variable DICT : option (string -> option DictEntry).
Variable SIZE_RANGES : option (string -> option SizeRange).

Lemma pipeline_admitted (rawPreds : list RawDetection) (w h : Q) :
  pipeline DICT SIZE_RANGES rawPreds w h =
  (preds <- admitted DICT SIZE_RANGES rawPreds w h ;;
   kept <- nms preds [] ;;
   confusion kept []).
Proof.
  unfold pipeline, admitted.
  destruct (mapM scoreOne rawPreds) as [scored|]; simpl; [|reflexivity].
  now destruct (filterM _ (sortDesc scored)).
Qed.

(** What steps 1 to 4 hand to NMS. *)
Lemma admitted_shape (rawPreds : list RawDetection) (w h : Q) (preds : list Pred) :
  admitted DICT SIZE_RANGES rawPreds w h = Ok preds ->
  exists scored,
    mapM scoreOne rawPreds = Ok scored
    /\ subseq preds (sortDesc scored)
    /\ ForallOrdPairs ranksBefore preds
    /\ Forall fitIsScore preds
    /\ Forall (fun q => 0.45 <= score q) preds.
Proof.
  unfold admitted. intros H. bind_ok H. bind_ok H. injection H as <-.
  rename a into scored, a0 into sized. exists scored.
  assert (Hsub : subseq (List.filter scoreFloor sized) (sortDesc scored)).
  { apply (subseq_trans _ _ _ (filter_subseq _ _)).
    exact (filterM_subseq _ _ _ E0). }
  repeat split; try assumption.
  - exact (pairwise_subseq _ _ _ _ Hsub (sortDesc_sorted scored)).
  - apply (Forall_subseq _ _ _ Hsub). apply Forall_forall. intros q Hq.
    apply (proj1 (sortDesc_In _ _)) in Hq.
    destruct (mapM_In _ _ _ _ E Hq) as (d & _ & Hd). now apply scoreOne_fit in Hd.
  - apply Forall_forall. intros q Hq. apply filter_In in Hq as [_ Hq].
    now apply Qgeb_true in Hq.
Qed.

End ResolvedShape.

(** On a ranked list, step 6 only appends: nothing is put in the place of
    a resolved entry. *)
Lemma confusion_ranked_shape (kept resolved result : list Pred) :
  ForallOrdPairs ranksBefore (resolved ++ kept) ->
  Forall fitIsScore (resolved ++ kept) ->
  confusion kept resolved = Ok result ->
  exists added, result = resolved ++ added /\ subseq added kept.
Proof.
  revert resolved result.
  induction kept as [|p ps IH]; simpl; intros resolved result Hrank Hfit H.
  - injection H as <-. exists []. rewrite app_nil_r. split; [reflexivity|constructor].
  - assert (Hsub : subseq (resolved ++ ps) (resolved ++ p :: ps)).
    { apply subseq_app_l, subseq_skip, subseq_refl. }
    assert (Hpush : forall result',
               confusion ps (resolved ++ [p]) = Ok result' ->
               exists added, result' = resolved ++ added /\ subseq added (p :: ps)).
    { intros result' H'. destruct (IH (resolved ++ [p]) result') with (3 := H')
        as (added & -> & Hadd); try (now rewrite <- app_assoc).
      exists (p :: added). rewrite <- app_assoc. split; [reflexivity|now constructor]. }
    assert (Hdrop : forall result',
               confusion ps resolved = Ok result' ->
               exists added, result' = resolved ++ added /\ subseq added (p :: ps)).
    { intros result' H'. destruct (IH resolved result') with (3 := H') as (added & -> & Hadd).
      - exact (pairwise_subseq _ _ _ _ Hsub Hrank).
      - exact (Forall_subseq _ _ _ Hsub Hfit).
      - exists added. split; [reflexivity|now constructor]. }
    destruct (confuseMap (class p)) as [grp|] eqn:Hgrp; [|now apply Hpush].
    bind_ok H. destruct a as [dominated resolved'].
    assert (Hres : Forall (fun r => fitIsScore r /\ ranksBefore r p) resolved).
    { apply Forall_forall. intros r Hr. split.
      - apply (proj1 (Forall_forall _ _) Hfit). apply in_or_app. now left.
      - apply (pairwise_across _ _ _ _ _ Hrank Hr). now left. }
    assert (Hp : fitIsScore p).
    { apply (proj1 (Forall_forall _ _) Hfit). apply in_or_app. right. now left. }
    destruct (confusionScan_ranked p grp resolved resolved' dominated Hgrp Hp Hres E)
      as [-> _].
    destruct dominated; [now apply Hdrop|now apply Hpush].
Qed.





(** X4.  The resolved list of a call is a subsequence of the admitted list
    (the scored detections in sorted order that pass size validation and the
    score floor): step 6 never puts a detection in the place of another,
    since the fit it compares is the adjusted score the list is sorted by.
    So the resolved list is in descending order of adjusted score, every
    score in it is at least 0.45, it is no longer than the input, and its
    first entry is the first admitted detection. *)
Theorem resolved_list_shape (DICT : option (string -> option DictEntry))
    (SIZE_RANGES : option (string -> option SizeRange))
    (rawPreds : list RawDetection) (videoWidth videoHeight : Q)
    (resolved : list Pred) :
  pipeline DICT SIZE_RANGES rawPreds videoWidth videoHeight = Ok resolved ->
  exists preds,
    admitted DICT SIZE_RANGES rawPreds videoWidth videoHeight = Ok preds
    /\ subseq resolved preds
    /\ ForallOrdPairs (fun a b => score b <= score a) resolved
    /\ Forall (fun q => 0.45 <= score q) resolved
    /\ (length resolved <= length rawPreds)%nat
    /\ (forall p rest, preds = p :: rest -> exists others, resolved = p :: others).
Proof.
  rewrite pipeline_admitted. intros H. bind_ok H. bind_ok H.
  rename a into preds, a0 into kept. exists preds.
  destruct (admitted_shape _ _ _ _ _ _ E) as (scored & Hscored & Hsub & Hrank & Hfit & Hfloor).
  destruct (nms_shape _ _ _ E0) as (added & -> & Hadded). simpl in *.
  assert (Hkrank : ForallOrdPairs ranksBefore added)
    by exact (pairwise_subseq _ _ _ _ Hadded Hrank).
  assert (Hkfit : Forall fitIsScore added)
    by exact (Forall_subseq _ _ _ Hadded Hfit).
  destruct (confusion_ranked_shape added [] resolved Hkrank Hkfit H)
    as (added' & -> & Hadded'). simpl.
  assert (Hres : subseq added' preds) by exact (subseq_trans _ _ _ Hadded' Hadded).
  split; [reflexivity|]. split; [assumption|].
  split; [exact (pairwise_subseq _ _ _ _ Hres Hrank)|].
  split; [exact (Forall_subseq _ _ _ Hres Hfloor)|].
  split.
  - apply Nat.le_trans with (length (sortDesc scored)).
    + apply subseq_length. exact (subseq_trans _ _ _ Hres Hsub).
    + rewrite sortDesc_length, (mapM_length _ _ _ Hscored). apply Nat.le_refl.
  - intros p rest ->. simpl in E0.
    destruct (nms_shape _ _ _ E0) as (more & Hkept & _). simpl in Hkept. subst added.
    simpl in H.
    assert (H' : confusion more [p] = Ok added').
    { destruct (confuseMap (class p)); exact H. }
    destruct (confusion_ranked_shape more [p] added' Hkrank Hkfit H')
      as (others & -> & _).
    now exists others.
Qed.

Lemma resolved_list_shape_witness :
  exists preds,
    admitted None None shifted 640 480 = Ok preds
    /\ subseq (returned (pipeline None None shifted 640 480)) preds
    /\ ForallOrdPairs (fun a b => score b <= score a)
         (returned (pipeline None None shifted 640 480))
    /\ Forall (fun q => 0.45 <= score q) (returned (pipeline None None shifted 640 480))
    /\ (length (returned (pipeline None None shifted 640 480)) <= length shifted)%nat
    /\ (forall p rest, preds = p :: rest ->
        exists others, returned (pipeline None None shifted 640 480) = p :: others).
Proof.
  apply (resolved_list_shape None None shifted 640 480). reflexivity.
Defined.



(** * Further properties of the tracker *)

(** ** The decay law *)

Section DecayLaw.

Variable DICT : option (string -> option DictEntry).
Variable SIZE_RANGES : option (string -> option SizeRange).

Lemma unmatched_call_absent (cands : Candidates) (call : Op) (k : Key) :
  streak cands k = None ->
  unmatchedCall DICT SIZE_RANGES cands call k ->
  streak (applyOp DICT SIZE_RANGES cands call) k = None.
Proof.
  intros Hn Hcall. destruct call as [clock rawPreds w h|]; [|destruct Hcall].
  destruct Hcall as (resolved & t & Hpipe & Hloop & Hk).
  simpl. unfold filter. rewrite Hpipe, Hloop. simpl.
  destruct (trackLoop_unseen k _ _ _ _ _ _ Hloop Hk) as [_ Heq]. simpl in Heq.
  unfold streak in *. rewrite decay_absent; [reflexivity|].
  rewrite Heq. now destruct (assoc key_eqb k cands).
Qed.

Lemma unmatched_run_absent (calls : list Op) :
  forall (cands : Candidates) (k : Key),
    streak cands k = None ->
    unmatchedRun DICT SIZE_RANGES cands calls k ->
    streak (fold_left (applyOp DICT SIZE_RANGES) calls cands) k = None.
Proof.
  induction calls as [|call calls IH]; simpl; intros cands k Hn Hrun; [assumption|].
  destruct Hrun as [Hcall Hrun]. apply IH; [|assumption].
  now apply unmatched_call_absent.
Qed.

Lemma unmatched_run_streak (calls : list Op) :
  forall (cands : Candidates) (k : Key) (n : Z),
    uniqueKeys cands ->
    (0 < n)%Z ->
    streak cands k = Some n ->
    unmatchedRun DICT SIZE_RANGES cands calls k ->
    streak (fold_left (applyOp DICT SIZE_RANGES) calls cands) k =
    if Z.leb (n - DECAY_RATE * Z.of_nat (length calls)) 0 then None
    else Some (n - DECAY_RATE * Z.of_nat (length calls))%Z.
Proof.
  induction calls as [|call calls IH]; intros cands k n Hu Hpos Hn Hrun.
  - cbn [fold_left length].
    destruct (Z.leb_spec (n - DECAY_RATE * Z.of_nat 0) 0) as [Hle|Hgt];
      [unfold DECAY_RATE in Hle; lia|].
    rewrite Hn. f_equal. unfold DECAY_RATE. lia.
  - destruct Hrun as [Hcall Hrun].
    pose proof (unmatched_call_streak DICT SIZE_RANGES _ _ _ _ Hu Hn Hcall) as H1.
    cbn [fold_left length].
    replace (n - DECAY_RATE * Z.of_nat (S (length calls)))%Z
      with (n - DECAY_RATE - DECAY_RATE * Z.of_nat (length calls))%Z
      by (unfold DECAY_RATE; lia).
    destruct (Z.leb_spec (n - DECAY_RATE) 0) as [Hle|Hgt].
    + rewrite (unmatched_run_absent calls _ k H1 Hrun).
      destruct (Z.leb_spec (n - DECAY_RATE - DECAY_RATE * Z.of_nat (length calls)) 0);
        [reflexivity|]. unfold DECAY_RATE in *. lia.
    + apply IH; try assumption. now apply applyOp_uniqueKeys.
Qed.

End DecayLaw.

(** X6.  The decay law.  A candidate with streak [n] that [m] consecutive
    calls leave unmatched has streak [n - 2 m] as long as that is positive
    and is evicted otherwise: it is in the map after the run exactly if
    [2 m < n], so it takes half as many unmatched frames to forget an object
    as matched frames went into its streak. *)
Theorem unmatched_decay_law (DICT : option (string -> option DictEntry))
    (SIZE_RANGES : option (string -> option SizeRange))
    (cands : Candidates) (k : Key) (n : Z) (calls : list Op) :
  let m := Z.of_nat (length calls) in
  let after := fold_left (applyOp DICT SIZE_RANGES) calls cands in
  uniqueKeys cands ->
  (0 < n)%Z ->
  streak cands k = Some n ->
  unmatchedRun DICT SIZE_RANGES cands calls k ->
  ((2 * m < n)%Z -> streak after k = Some (n - 2 * m)%Z)
  /\ ((n <= 2 * m)%Z -> assoc key_eqb k after = None).
Proof.
  intros m after Hu Hpos Hn Hrun.
  pose proof (unmatched_run_streak DICT SIZE_RANGES calls cands k n Hu Hpos Hn Hrun) as H.
  fold after in H. unfold DECAY_RATE in H. fold m in H. split; intros Hm.
  - destruct (Z.leb_spec (n - 2 * m) 0); [lia|assumption].
  - destruct (Z.leb_spec (n - 2 * m) 0); [|lia].
    unfold streak in H. now destruct (assoc key_eqb k after).
Qed.

Lemma unmatched_decay_law_witness :
  streak (fold_left (applyOp None None) [personOnly; personOnly; personOnly]
            [(lockedCupKey, lockedCup)]) lockedCupKey = Some 6%Z
  /\ assoc key_eqb lockedCupKey
       (fold_left (applyOp None None)
          [personOnly; personOnly; personOnly; personOnly; personOnly; personOnly]
          [(lockedCupKey, lockedCup)]) = None.
Proof.
  assert (Hu : uniqueKeys [(lockedCupKey, lockedCup)])
    by (repeat constructor; simpl; tauto).
  split.
  - apply (proj1 (unmatched_decay_law None None [(lockedCupKey, lockedCup)]
                    lockedCupKey 12 [personOnly; personOnly; personOnly]
                    Hu eq_refl eq_refl
                    (conj (ex_intro _ _ (ex_intro _ _ (conj eq_refl (conj eq_refl eq_refl))))
                     (conj (ex_intro _ _ (ex_intro _ _ (conj eq_refl (conj eq_refl eq_refl))))
                      (conj (ex_intro _ _ (ex_intro _ _ (conj eq_refl (conj eq_refl eq_refl))))
                       I))))).
    reflexivity.
  - apply (proj2 (unmatched_decay_law None None [(lockedCupKey, lockedCup)]
                    lockedCupKey 12
                    [personOnly; personOnly; personOnly; personOnly; personOnly; personOnly]
                    Hu eq_refl eq_refl
                    (conj (ex_intro _ _ (ex_intro _ _ (conj eq_refl (conj eq_refl eq_refl))))
                     (conj (ex_intro _ _ (ex_intro _ _ (conj eq_refl (conj eq_refl eq_refl))))
                      (conj (ex_intro _ _ (ex_intro _ _ (conj eq_refl (conj eq_refl eq_refl))))
                       (conj (ex_intro _ _ (ex_intro _ _ (conj eq_refl (conj eq_refl eq_refl))))
                        (conj (ex_intro _ _ (ex_intro _ _ (conj eq_refl (conj eq_refl eq_refl))))
                         (conj (ex_intro _ _ (ex_intro _ _ (conj eq_refl (conj eq_refl eq_refl))))
                          I)))))))).
    reflexivity.
Defined.

(** ** Keys and classes *)

Lemma findMatch_exact_In (p : Pred) (cands : Candidates) (byLoc byLoc' : option Key)
    (k : Key) :
  findMatch p cands byLoc = Ok (Some k, byLoc') ->
  exists c, In (k, c) cands /\ exactMatch p c.
Proof.
  revert byLoc. induction cands as [|[k0 c0] l IH]; simpl; intros byLoc H;
    [discriminate|].
  bind_ok H. destruct a.
  - injection H as <- <-. exists c0. split; [now left|].
    destruct (String.eqb_spec (Candidate.cls c0) (class p)) as [Hcls|]; [|discriminate].
    split; [assumption|]. bind_ok E. injection E as E. unfold iouJS in E0.
    destruct (Candidate.bbox c0) as [bc|]; [|discriminate].
    destruct (bbox p) as [bp|]; [|discriminate]. injection E0 as <-.
    exists bc, bp. repeat split. now apply Qgtb_true.
  - bind_ok H. destruct (IH _ H) as (c & Hc & He). exists c. split; [now right|assumption].
Qed.

Lemma keyed_assoc (cands : Candidates) (k : Key) (c : Candidate.t) :
  keyed cands -> assoc key_eqb k cands = Some c -> key_class k = Candidate.cls c.
Proof.
  intros Hk Hc. apply assoc_key_In in Hc.
  exact (proj1 (Forall_forall _ _) Hk _ Hc).
Qed.

(** The key a turn of the loop works under carries the class of its
    detection, on a map whose keys carry the classes of their candidates. *)
Lemma trackOne_key_class (now : Z) (t t' : Tracking) (p : Pred) :
  keyed (candidates t) ->
  trackOne now t p = Ok t' ->
  (exists k, key_class k = class p
             /\ assoc key_eqb k (candidates t) = None
             /\ candidates t' = candidates t ++ [(k, newCandidate p)]
             /\ confirmed t' = confirmed t)
  \/ (exists k c, Candidate.cls c = class p
                  /\ assoc key_eqb k (candidates t) = Some c
                  /\ candidates t' = update k (fun _ => bump p c) (candidates t)
                  /\ has k (nowKeys t') = true
                  /\ confirmed t' =
                     (if Z.geb (Candidate.frames c + 1) CONFIRM_FRAMES
                      then confirmed t ++ [p] else confirmed t))
  \/ (exists k c, assoc key_eqb k (candidates t) = Some c
                  /\ (CLASS_LOCK_FRAMES <= Candidate.frames c)%Z
                  /\ candidates t' = update k (fun _ => keepClass p c) (candidates t)
                  /\ has k (nowKeys t') = true
                  /\ confirmed t' =
                     confirmed t ++
                     [withClassScore p (Candidate.cls c)
                        (Candidate.score (keepClass p c))]).
Proof.
  intros Hkeyed H. unfold trackOne in H. bind_ok H. destruct a as [matchedKey byLoc].
  bind_ok H. rename a into rKey. simpl in H.
  assert (Hclass : key_class rKey = class p).
  { destruct matchedKey as [k|].
    - injection E0 as ->. destruct (findMatch_exact_In _ _ _ _ _ E) as (c & Hc & Hcls & _).
      rewrite <- Hcls. exact (proj1 (Forall_forall _ _) Hkeyed _ Hc).
    - unfold freshKey in E0. bind_ok E0. now injection E0 as <-. }
  destruct (assoc key_eqb rKey (candidates t)) as [c|] eqn:Hr.
  - right. left. unfold confirmIf in H. simpl in H.
    rewrite assoc_update, key_eqb_refl, Hr in H. simpl in H. injection H as <-.
    exists rKey, c. split; [rewrite <- Hclass; symmetry; now apply (keyed_assoc (candidates t))|].
    split; [assumption|].
    destruct (Z.geb _ _); simpl; rewrite has_add, key_eqb_refl;
      repeat split; exact (update_const rKey (bump p) _ c Hr).
  - assert (Hcreate :
      confirmIf rKey p
        (create rKey p
           (mkTracking (candidates t) (add rKey (nowKeys t)) (confirmed t))) = Ok t' ->
      exists k, key_class k = class p
                /\ assoc key_eqb k (candidates t) = None
                /\ candidates t' = candidates t ++ [(k, newCandidate p)]
                /\ confirmed t' = confirmed t).
    { rewrite confirmIf_created by exact Hr. intros [= <-]. exists rKey. auto. }
    destruct byLoc as [kLoc|]; [|left; exact (Hcreate H)].
    destruct matchedKey; [left; exact (Hcreate H)|].
    destruct (assoc key_eqb kLoc (candidates t)) as [existing|] eqn:Hloc;
      [|discriminate].
    bind_ok H. destruct a as [e'|]; [|left; exact (Hcreate H)].
    apply classLock_Some in E1 as [Hge ->]. simpl in H.
    assert (Hc : (Candidate.frames existing >=? CONFIRM_FRAMES)%Z = true).
    { unfold CONFIRM_FRAMES, CLASS_LOCK_FRAMES in *. apply Z.geb_le. lia. }
    rewrite Hc in H. injection H as <-. right. right.
    exists kLoc, existing. simpl. rewrite has_add, key_eqb_refl. auto.
Qed.

Lemma trackOne_keyed (now : Z) (t t' : Tracking) (p : Pred) :
  keyed (candidates t) -> trackOne now t p = Ok t' -> keyed (candidates t').
Proof.
  intros Hk H. unfold keyed in *.
  destruct (trackOne_key_class now t t' p Hk H)
    as [(k & Hcls & _ & -> & _)|[(k & c & Hcls & Hc & -> & _)|(k & c & Hc & _ & -> & _)]].
  - apply Forall_app. split; [assumption|]. now repeat constructor.
  - apply update_Forall; [|assumption]. intros c0 _. simpl.
    now apply (keyed_assoc (candidates t)).
  - apply update_Forall; [|assumption]. intros c0 _. simpl.
    now apply (keyed_assoc (candidates t)).
Qed.

Lemma decay_keyed (nowKeys : list Key) (cands : Candidates) :
  keyed cands -> keyed (decay nowKeys cands).
Proof.
  unfold keyed. intros H. apply Forall_forall. intros [k c'] Hin.
  destruct (decay_In _ _ _ _ Hin) as (c & Hc & Hcls & _). simpl. rewrite Hcls.
  exact (proj1 (Forall_forall _ _) H _ Hc).
Qed.

Lemma trackLoop_keyed (clock : nat -> Z) (resolved : list Pred) :
  forall i t,
    keyed (candidates t) -> keyed (candidates (fst (trackLoop clock i resolved t))).
Proof.
  induction resolved as [|p ps IH]; simpl; intros i t Ht; [assumption|].
  destruct (trackOne (clock i) t p) as [t'|] eqn:E; [|assumption].
  apply IH. exact (trackOne_keyed (clock i) t t' p Ht E).
Qed.

Section Keyed.

Variable DICT : option (string -> option DictEntry).
Variable SIZE_RANGES : option (string -> option SizeRange).

Lemma reachable_keyed (cands : Candidates) :
  reachable DICT SIZE_RANGES cands -> keyed cands.
Proof.
  induction 1 as [|cands clock rawPreds w h _ IH|cands _ _].
  - constructor.
  - unfold filter.
    destruct (pipeline DICT SIZE_RANGES rawPreds w h) as [resolved|]; [|assumption].
    pose proof (trackLoop_keyed clock resolved 0%nat (mkTracking cands [] []) IH)
      as Hloop.
    destruct (trackLoop clock 0 resolved (mkTracking cands [] [])) as [t completed].
    simpl in Hloop. destruct completed; simpl; [|assumption].
    now apply decay_keyed.
  - rewrite reset_empty. constructor.
Qed.

End Keyed.

(** X7.  The representation of the candidate map is sound in every state
    the tracker can be in: no two candidates share a key, every candidate
    carries a box, and the class in a candidate's key is the candidate's
    class. *)
Theorem candidate_map_well_formed (DICT : option (string -> option DictEntry))
    (SIZE_RANGES : option (string -> option SizeRange)) (cands : Candidates) :
  reachable DICT SIZE_RANGES cands ->
  NoDup (map fst cands)
  /\ (forall k c, In (k, c) cands ->
        key_class k = Candidate.cls c /\ exists b, Candidate.bbox c = Some b).
Proof.
  intros H. split; [exact (reachable_uniqueKeys _ _ _ H)|].
  intros k c Hin. split.
  - exact (proj1 (Forall_forall _ _) (reachable_keyed _ _ _ H) _ Hin).
  - exact (proj1 (Forall_forall _ _) (reachable_boxed _ _ _ H) _ Hin).
Qed.

(** The map after a call on the shelf. *)
Lemma candidate_map_well_formed_witness :
  NoDup (map fst (snd (filter None None [] stillClock shelf 640 480)))
  /\ (forall k c,
        In (k, c) (snd (filter None None [] stillClock shelf 640 480)) ->
        key_class k = Candidate.cls c /\ exists b, Candidate.bbox c = Some b).
Proof.
  apply (candidate_map_well_formed None None).
  apply reach_filter, reach_init.
Defined.

(** ** The three ways a detection meets the map *)

Lemma update_middle (before after : Candidates) (k : Key) (c : Candidate.t)
    (f : Candidate.t -> Candidate.t) :
  uniqueKeys (before ++ (k, c) :: after) ->
  update k f (before ++ (k, c) :: after) = before ++ (k, f c) :: after.
Proof.
  unfold uniqueKeys. induction before as [|[k0 c0] l IH]; simpl; intros Hu.
  - now rewrite key_eqb_refl.
  - inversion Hu as [|? ? Hk0 Hl]; subst.
    destruct (key_eqb k k0) eqn:E.
    + apply key_eqb_eq in E as <-. destruct Hk0.
      rewrite map_app. apply in_or_app. right. now left.
    + now rewrite IH.
Qed.

Lemma findMatch_exact_first (p : Pred) (bp : BBox) (before after : Candidates)
    (k : Key) (c : Candidate.t) :
  bbox p = Some bp ->
  Forall candidateBoxed before ->
  Forall (fun kc => ~ exactMatch p (snd kc)) before ->
  exactMatch p c ->
  forall byLoc, exists byLoc',
    findMatch p (before ++ (k, c) :: after) byLoc = Ok (Some k, byLoc').
Proof.
  intros Hbp Hb Hne (Hcls & bc & bp' & Hbc & Hbp' & Hiou).
  assert (bp' = bp) by congruence. subst bp'.
  induction before as [|[k0 c0] l IH]; intros byLoc; simpl app.
  - exists byLoc. simpl. rewrite Hcls, String.eqb_refl, Hbc, Hbp. simpl.
    now rewrite (proj2 (Qgtb_true _ _) Hiou).
  - inversion Hb; subst. inversion Hne; subst.
    destruct (findMatch_step p bp Hbp k0 c0 (l ++ (k, c) :: after) byLoc H1 H3)
      as (bc0 & _ & ->).
    now apply IH.
Qed.

(** X8.  The exact match.  Let [p] be a resolved detection with a box and
    [(k, c)] the first candidate, in the order of the map, of the class of
    [p] whose box overlaps the one of [p] with an IoU above 0.25.  The turn
    of the loop for [p] updates that candidate in place and nothing else:
    the streak grows by 1, the score becomes [0.6 * old + 0.4 * p.score],
    the box the one of [p]; the key is marked seen; [p] is confirmed as it
    is if and only if the new streak reaches [CONFIRM_FRAMES].  Neither the
    clock nor the candidates behind [(k, c)] have a say, however well these
    overlap [p]. *)
Theorem exact_match_update (now : Z) (t : Tracking) (p : Pred) (bp : BBox)
    (before after : Candidates) (k : Key) (c : Candidate.t) :
  bbox p = Some bp ->
  candidates t = before ++ (k, c) :: after ->
  uniqueKeys (candidates t) ->
  Forall candidateBoxed before ->
  Forall (fun kc => ~ exactMatch p (snd kc)) before ->
  exactMatch p c ->
  trackOne now t p =
  Ok (mkTracking
        (before ++ (k, Candidate.mk (Candidate.cls c)
                         (Candidate.score c * 0.6 + score p * 0.4)
                         (Candidate.frames c + 1) (bbox p)) :: after)
        (add k (nowKeys t))
        (if Z.geb (Candidate.frames c + 1) CONFIRM_FRAMES
         then confirmed t ++ [p] else confirmed t)).
Proof.
  intros Hbp Heq Hu Hb Hne Hex. unfold trackOne. rewrite Heq in Hu |- *.
  destruct (findMatch_exact_first p bp before after k c Hbp Hb Hne Hex None)
    as (byLoc' & ->).
  simpl. rewrite (assoc_middle before after k c Hu).
  rewrite (update_middle before after k c (bump p) Hu).
  unfold confirmIf. simpl.
  assert (Hu' : uniqueKeys (before ++ (k, bump p c) :: after)).
  { unfold uniqueKeys in *. rewrite map_app in *. exact Hu. }
  rewrite (assoc_middle before after k (bump p c) Hu'). simpl.
  now destruct (Z.geb _ _).
Qed.

(** The "cup" candidate of streak 7, behind a "person" candidate elsewhere,
    is updated by a "cup" detection on its region and confirmed. *)
Lemma exact_match_update_witness :
  trackOne 5
    (mkTracking
       [ (mkKey "person" 10 5 0,
          Candidate.mk "person" 0.9 3 (Some (mkBBox 400 200 80 200)));
         (lockedCupKey, Candidate.mk "cup" 0.5 7 (Some region)) ] [] [])
    cupPred
  = Ok (mkTracking
       [ (mkKey "person" 10 5 0,
          Candidate.mk "person" 0.9 3 (Some (mkBBox 400 200 80 200)));
         (lockedCupKey,
          Candidate.mk "cup" (0.5 * 0.6 + score cupPred * 0.4) (7 + 1)
            (Some region)) ]
       [lockedCupKey] [cupPred]).
Proof.
  refine (exact_match_update 5
            (mkTracking
               [ (mkKey "person" 10 5 0,
                  Candidate.mk "person" 0.9 3 (Some (mkBBox 400 200 80 200)));
                 (lockedCupKey, Candidate.mk "cup" 0.5 7 (Some region)) ] [] [])
            cupPred region
            [(mkKey "person" 10 5 0,
              Candidate.mk "person" 0.9 3 (Some (mkBBox 400 200 80 200)))]
            [] lockedCupKey (Candidate.mk "cup" 0.5 7 (Some region))
            eq_refl eq_refl _ _ _ _).
  - repeat constructor; simpl; intuition discriminate.
  - repeat constructor. now exists (mkBBox 400 200 80 200).
  - repeat constructor. intros [Hcls _]. discriminate Hcls.
  - split; [reflexivity|]. exists region, region. repeat split.
Defined.

(** X9.  No match.  A resolved detection [p] with a box that no candidate
    matches exactly, and whose key is not in use, becomes a new candidate
    of streak 1 at the end of the map in each of three cases: no candidate
    overlaps it with an IoU above 0.4; the first that does has a streak
    below [CLASS_LOCK_FRAMES]; or it has such a streak but
    [newFit >= existingFit * 1.3].  Nothing is confirmed, and no candidate
    already in the map is changed or marked seen: the overlapped candidate
    is left to the decay. *)
Theorem unmatched_detection_creates (now : Z) (t : Tracking) (p : Pred) (bp : BBox)
    (aNew : Q) :
  let key := mkKey (class p) (Math_round (box_x bp / 40))
                   (Math_round (box_y bp / 40)) now in
  bbox p = Some bp ->
  uniqueKeys (candidates t) ->
  Forall candidateBoxed (candidates t) ->
  Forall (fun kc => ~ exactMatch p (snd kc)) (candidates t) ->
  assoc key_eqb key (candidates t) = None ->
  aspectScore (class p) (bbox p) = Ok aNew ->
  Forall (fun kc => ~ spatialMatch p (snd kc)) (candidates t)
  \/ (exists k existing aExisting,
        firstSpatialMatch p (candidates t) k existing
        /\ aspectScore (Candidate.cls existing) (bbox p) = Ok aExisting
        /\ ((Candidate.frames existing < CLASS_LOCK_FRAMES)%Z
            \/ aExisting * Candidate.score existing * 1.3 <= aNew * score p)) ->
  trackOne now t p =
  Ok (mkTracking
        (candidates t ++ [(key, Candidate.mk (class p) (score p) 1 (bbox p))])
        (add key (nowKeys t))
        (confirmed t)).
Proof.
  intros key Hbp Hu Hb Hne Hfresh HaN Hcases.
  assert (Hcreate : forall nk,
    confirmIf key p (create key p (mkTracking (candidates t) nk (confirmed t))) =
    Ok (mkTracking (candidates t ++ [(key, newCandidate p)]) nk (confirmed t))).
  { intros nk. now rewrite confirmIf_created by exact Hfresh. }
  unfold newCandidate in Hcreate. rewrite Hbp in Hcreate.
  unfold trackOne. destruct Hcases as [Hnone|(k & existing & aE & Hfirst & HaE & Hcase)].
  - assert (Hfind : forall l, Forall candidateBoxed l ->
              Forall (fun kc => ~ exactMatch p (snd kc)) l ->
              Forall (fun kc => ~ spatialMatch p (snd kc)) l ->
              findMatch p l None = Ok (None, None)).
    { induction 1 as [|[k0 c0] l Hb0 _ IH]; intros Hne0 Hns0; [reflexivity|].
      inversion Hne0; subst. inversion Hns0; subst.
      destruct (findMatch_step p bp Hbp k0 c0 l None Hb0 H1) as (bc0 & Hbc0 & ->).
      destruct (Qgtb (iou bc0 bp) 0.4) eqn:E; [|auto].
      destruct H3. exists bc0, bp. repeat split; try assumption. now apply Qgtb_true. }
    rewrite (Hfind _ Hb Hne Hnone). simpl.
    unfold freshKey. rewrite Hbp. simpl. fold key. rewrite Hfresh. exact (Hcreate (add key (nowKeys t))).
  - assert (Hk : assoc key_eqb k (candidates t) = Some existing).
    { destruct Hfirst as (before & after & Heq & _). rewrite Heq in Hu |- *.
      now apply assoc_middle. }
    rewrite (findMatch_first p bp Hbp _ k existing Hb Hne Hfirst). simpl.
    unfold freshKey. rewrite Hbp. simpl. fold key. rewrite Hfresh, Hk.
    unfold classLock. destruct Hcase as [Hlt|Hfit].
    + assert (E : Z.geb (Candidate.frames existing) CLASS_LOCK_FRAMES = false).
      { rewrite Z.geb_leb. apply Z.leb_gt. exact Hlt. }
      rewrite E. simpl. exact (Hcreate (add key (nowKeys t))).
    + destruct (Z.geb (Candidate.frames existing) CLASS_LOCK_FRAMES);
        [|simpl; exact (Hcreate (add key (nowKeys t)))].
      rewrite HaE, HaN. simpl.
      assert (E : Qltb (aNew * score p) (aE * Candidate.score existing * 1.3) = false).
      { apply Qltb_false. exact Hfit. }
      rewrite E. simpl. exact (Hcreate (add key (nowKeys t))).
Qed.

(** A "bowl" of fit 0.65 on the region of the locked "cup" of fit 0.5
    (0.65 >= 0.5 * 1.3) gets a candidate of its own. *)
Lemma unmatched_detection_creates_witness :
  trackOne 0 lockedOnCup (bowlPred 0.65) =
  Ok (mkTracking
        [ (lockedCupKey, lockedCup);
          (mkKey "bowl" (Math_round (box_x region / 40))
             (Math_round (box_y region / 40)) 0,
           Candidate.mk "bowl" (score (bowlPred 0.65)) 1 (Some region)) ]
        (add (mkKey "bowl" (Math_round (box_x region / 40))
                (Math_round (box_y region / 40)) 0) [])
        []).
Proof.
  refine (unmatched_detection_creates 0 lockedOnCup (bowlPred 0.65) region 1.0
            eq_refl _ _ _ eq_refl eq_refl _).
  - repeat constructor. simpl. tauto.
  - repeat constructor. now exists region.
  - repeat constructor. intros [Hcls _]. discriminate Hcls.
  - right. exists lockedCupKey, lockedCup, 1.0. split; [|split].
    + exists [], []. split; [reflexivity|]. split; [|constructor].
      exists region, region. repeat split.
    + reflexivity.
    + right. intros H. discriminate H.
Defined.

(** X10.  A key in use.  If no candidate matches the detection [p] exactly
    but the key made for [p] (class, the two rounded coordinates, the
    clock) names a candidate already, the turn of the loop updates that
    candidate as if it were an exact match, whatever its box: two
    detections of one class in the same cell of 40 pixels and the same
    millisecond share a candidate, and the streak counts both. *)
Theorem key_in_use_merges (now : Z) (t : Tracking) (p : Pred) (bp : BBox)
    (c : Candidate.t) :
  let key := mkKey (class p) (Math_round (box_x bp / 40))
                   (Math_round (box_y bp / 40)) now in
  bbox p = Some bp ->
  Forall candidateBoxed (candidates t) ->
  Forall (fun kc => ~ exactMatch p (snd kc)) (candidates t) ->
  assoc key_eqb key (candidates t) = Some c ->
  trackOne now t p =
  Ok (mkTracking
        (update key (fun _ => Candidate.mk (Candidate.cls c)
                                (Candidate.score c * 0.6 + score p * 0.4)
                                (Candidate.frames c + 1) (bbox p))
           (candidates t))
        (add key (nowKeys t))
        (if Z.geb (Candidate.frames c + 1) CONFIRM_FRAMES
         then confirmed t ++ [p] else confirmed t)).
Proof.
  intros key Hbp Hb Hne Hc. unfold trackOne.
  assert (Hfind : forall l, Forall candidateBoxed l ->
            Forall (fun kc => ~ exactMatch p (snd kc)) l ->
            forall byLoc, exists byLoc', findMatch p l byLoc = Ok (None, byLoc')).
  { induction 1 as [|[k0 c0] l Hb0 _ IH]; intros Hne0 byLoc; [simpl; eauto|].
    inversion Hne0; subst.
    destruct (findMatch_step p bp Hbp k0 c0 l byLoc Hb0 H1) as (bc0 & _ & ->).
    now apply IH. }
  destruct (Hfind _ Hb Hne None) as (byLoc' & ->). simpl.
  unfold freshKey. rewrite Hbp. simpl. fold key. rewrite Hc.
  unfold confirmIf. simpl. rewrite assoc_update, key_eqb_refl, Hc. simpl.
  rewrite (update_const key (bump p) _ c Hc). unfold bump. rewrite Hbp.
  now destruct (Z.geb _ _).
Qed.

(** A second "cup" in the cell of the first, in the same millisecond. *)
Lemma key_in_use_merges_witness :
  trackOne 0
    (mkTracking
       [(mkKey "cup" 3 3 0, Candidate.mk "cup" 0.5 1 (Some (mkBBox 100 100 8 8)))]
       [mkKey "cup" 3 3 0] [])
    (mkPred "cup" (Some (mkBBox 110 110 8 8)) 0.6 0.6 1.0)
  = Ok (mkTracking
       [(mkKey "cup" 3 3 0,
         Candidate.mk "cup" (0.5 * 0.6 + 0.6 * 0.4) (1 + 1)
           (Some (mkBBox 110 110 8 8)))]
       [mkKey "cup" 3 3 0] []).
Proof.
  refine (key_in_use_merges 0
            (mkTracking
               [(mkKey "cup" 3 3 0,
                 Candidate.mk "cup" 0.5 1 (Some (mkBBox 100 100 8 8)))]
               [mkKey "cup" 3 3 0] [])
            (mkPred "cup" (Some (mkBBox 110 110 8 8)) 0.6 0.6 1.0)
            (mkBBox 110 110 8 8)
            (Candidate.mk "cup" 0.5 1 (Some (mkBBox 100 100 8 8)))
            eq_refl _ _ eq_refl).
  - repeat constructor. now exists (mkBBox 100 100 8 8).
  - repeat constructor. intros (_ & bc & bp & Hbc & Hbp & Hiou).
    injection Hbc as <-. injection Hbp as <-. discriminate Hiou.
Defined.

(** ** Every confirmed detection has a candidate behind it *)


Lemma has_add_mono (k k' : Key) (nowKeys : list Key) :
  has k nowKeys = true -> has k (add k' nowKeys) = true.
Proof. intros H. rewrite has_add, H. apply orb_true_r. Qed.

(** A turn of the loop keeps every candidate, with its class, and never
    shortens a streak or forgets a key it has marked seen. *)
Lemma stepEffect_grows (p : Pred) (t t' : Tracking) (k : Key) (c : Candidate.t) :
  stepEffect p t t' ->
  assoc key_eqb k (candidates t) = Some c ->
  (exists c',
     assoc key_eqb k (candidates t') = Some c'
     /\ Candidate.cls c' = Candidate.cls c
     /\ (Candidate.frames c <= Candidate.frames c')%Z)
  /\ (has k (nowKeys t) = true -> has k (nowKeys t') = true).
Proof.
  intros [k0 Hk0 -> -> _|k0 c0 Hk0 -> -> _|k0 kNew c0 Hk0 Hge -> -> _] Hc.
  - split; [|apply has_add_mono]. exists c. rewrite assoc_app, Hc.
    repeat split. lia.
  - split; [|apply has_add_mono]. rewrite assoc_update, Hc.
    destruct (key_eqb k k0) eqn:E.
    + apply key_eqb_eq in E as ->. assert (c0 = c) by congruence. subst.
      eexists. split; [reflexivity|]. simpl. split; [reflexivity|lia].
    + exists c. repeat split. lia.
  - split; [|intros H; now apply has_add_mono, has_add_mono].
    rewrite assoc_update, Hc.
    destruct (key_eqb k k0) eqn:E.
    + apply key_eqb_eq in E as ->. assert (c0 = c) by congruence. subst.
      eexists. split; [reflexivity|]. simpl. split; [reflexivity|lia].
    + exists c. repeat split. lia.
Qed.

Lemma stepEffect_backed (p : Pred) (t t' : Tracking) (r : Pred) :
  stepEffect p t t' -> backed t r -> backed t' r.
Proof.
  intros Hstep (k & c & Hc & Hseen & Hkey & Hcls & Hfr).
  destruct (stepEffect_grows p t t' k c Hstep Hc) as [(c' & Hc' & Hcls' & Hfr') Hseen'].
  exists k, c'. repeat split; auto; try congruence. lia.
Qed.

Lemma trackOne_backed (now : Z) (t t' : Tracking) (p : Pred) :
  keyed (candidates t) ->
  trackOne now t p = Ok t' ->
  Forall (backed t) (confirmed t) -> Forall (backed t') (confirmed t').
Proof.
  intros Hkeyed H Hback.
  assert (Hold : Forall (backed t') (confirmed t)).
  { revert Hback. apply Forall_impl. intros r.
    apply (stepEffect_backed p). now apply trackOne_effect in H. }
  destruct (trackOne_key_class now t t' p Hkeyed H)
    as [(k & _ & _ & _ & ->)
       |[(k & c & Hcls & Hc & Hcands & Hseen & ->)
        |(k & c & Hc & Hge & Hcands & Hseen & ->)]].
  - exact Hold.
  - destruct (Z.geb (Candidate.frames c + 1) CONFIRM_FRAMES) eqn:E; [|exact Hold].
    apply Forall_app. split; [exact Hold|]. repeat constructor.
    exists k, (bump p c). rewrite Hcands, assoc_update, key_eqb_refl, Hc.
    repeat split; simpl; auto.
    + rewrite <- Hcls. now apply (keyed_assoc (candidates t)).
    + now apply Z.geb_le in E.
  - apply Forall_app. split; [exact Hold|]. repeat constructor.
    exists k, (keepClass p c). rewrite Hcands, assoc_update, key_eqb_refl, Hc.
    repeat split; simpl; auto.
    + now apply (keyed_assoc (candidates t)).
    + unfold CONFIRM_FRAMES, CLASS_LOCK_FRAMES in *. lia.
Qed.

Lemma trackLoop_backed (clock : nat -> Z) (resolved : list Pred) :
  forall i t t' completed,
    keyed (candidates t) ->
    Forall (backed t) (confirmed t) ->
    trackLoop clock i resolved t = (t', completed) ->
    Forall (backed t') (confirmed t').
Proof.
  induction resolved as [|p ps IH]; simpl; intros i t t' completed Hk Hb H.
  - now injection H as <- <-.
  - destruct (trackOne (clock i) t p) as [t1|] eqn:E.
    + apply (IH (S i) t1 t' completed); [| |assumption].
      * exact (trackOne_keyed (clock i) t t1 p Hk E).
      * exact (trackOne_backed (clock i) t t1 p Hk E Hb).
    + now injection H as <- <-.
Qed.

(** The decay leaves alone what the call has seen. *)
Lemma decay_seen (nowKeys : list Key) (cands : Candidates) (k : Key) :
  has k nowKeys = true ->
  assoc key_eqb k (decay nowKeys cands) = assoc key_eqb k cands.
Proof.
  intros Hk. induction cands as [|[k0 c0] l IH]; simpl; [reflexivity|].
  destruct (key_eqb k k0) eqn:E.
  - apply key_eqb_eq in E as <-. rewrite Hk. simpl. now rewrite key_eqb_refl.
  - destruct (has k0 nowKeys); simpl; [now rewrite E|].
    destruct (Z.leb _ _); simpl; [assumption|now rewrite E].
Qed.

Section Backed.

Variable DICT : option (string -> option DictEntry).
Variable SIZE_RANGES : option (string -> option SizeRange).

Lemma reachable_feed (clocks : nat -> nat -> Z) (rawPreds : list RawDetection)
    (w h : Q) :
  forall n call cands,
    reachable DICT SIZE_RANGES cands ->
    reachable DICT SIZE_RANGES
      (snd (feed DICT SIZE_RANGES clocks n call cands rawPreds w h)).
Proof.
  induction n as [|n IH]; intros call cands H; [assumption|].
  rewrite feed_S. cbn [snd]. apply IH. now apply reach_filter.
Qed.

End Backed.

(** X11.  Every detection a call confirms has a candidate behind it in
    the map the call leaves: under a key of the class of the detection, of
    that class itself, and with a streak of at least [CONFIRM_FRAMES].  So
    no class reaches the caller that has not been tracked for that long,
    whichever of the two ways confirmed it. *)
Theorem confirmed_has_candidate (DICT : option (string -> option DictEntry))
    (SIZE_RANGES : option (string -> option SizeRange))
    (cands : Candidates) (clock : nat -> Z) (rawPreds : list RawDetection)
    (videoWidth videoHeight : Q) (result : list Pred) (r : Pred) :
  let call := filter DICT SIZE_RANGES cands clock rawPreds videoWidth videoHeight in
  reachable DICT SIZE_RANGES cands ->
  fst call = Ok result ->
  In r result ->
  exists k c,
    assoc key_eqb k (snd call) = Some c
    /\ key_class k = class r
    /\ Candidate.cls c = class r
    /\ (CONFIRM_FRAMES <= Candidate.frames c)%Z.
Proof.
  intros call Hreach Hres Hin. subst call. unfold filter in *.
  destruct (pipeline DICT SIZE_RANGES rawPreds videoWidth videoHeight)
    as [resolved|]; [|discriminate].
  destruct (trackLoop clock 0 resolved (mkTracking cands [] [])) as [t completed] eqn:E.
  destruct completed; [|discriminate]. simpl in *. injection Hres as <-.
  assert (Hb : Forall (backed t) (confirmed t)).
  { apply (trackLoop_backed clock resolved 0%nat (mkTracking cands [] []) t true);
      [|constructor|exact E].
    exact (reachable_keyed DICT SIZE_RANGES cands Hreach). }
  destruct (proj1 (Forall_forall _ _) Hb r Hin) as (k & c & Hc & Hseen & Hkey & Hcls & Hfr).
  exists k, c. rewrite (decay_seen _ _ _ Hseen). auto.
Qed.

(** The eighth call on the "cup". *)
Lemma confirmed_has_candidate_witness :
  exists k c,
    assoc key_eqb k
      (snd (filter None None
              (snd (feed None None tickingClocks 7 0 [] [cupAt 0.5] 640 480))
              (tickingClocks 7) [cupAt 0.5] 640 480)) = Some c
    /\ key_class k = "cup"%string
    /\ Candidate.cls c = "cup"%string
    /\ (CONFIRM_FRAMES <= Candidate.frames c)%Z.
Proof.
  refine (confirmed_has_candidate None None
            (snd (feed None None tickingClocks 7 0 [] [cupAt 0.5] 640 480))
            (tickingClocks 7) [cupAt 0.5] 640 480 [cupPred] cupPred _ _ _).
  - apply reachable_feed, reach_init.
  - vm_compute. reflexivity.
  - now left.
Defined.

(** ** A call that throws *)

Lemma nmsDominated_boxed (p k : Pred) (ks : list Pred) (d : bool) :
  nmsDominated p (k :: ks) = Ok d -> boxed p /\ boxed k.
Proof.
  simpl. unfold iouJS. intros H.
  destruct (bbox p) as [b|] eqn:Hp; [|discriminate].
  destruct (bbox k) as [b'|] eqn:Hk; [|discriminate].
  split; [now exists b|now exists b'].
Qed.

(** Once an item is kept, step 5 reads the box of every later item. *)
Lemma nms_boxed (preds : list Pred) :
  forall k ks result,
    Forall boxed (k :: ks) ->
    nms preds (k :: ks) = Ok result -> Forall boxed result.
Proof.
  induction preds as [|p ps IH]; intros k ks result Hkept H.
  - simpl in H. now injection H as <-.
  - cbn [nms] in H. bind_ok H.
    destruct (nmsDominated_boxed _ _ _ _ E) as [Hp _].
    destruct a; [now apply (IH k ks)|].
    apply (IH k (ks ++ [p])); [|exact H].
    change (Forall boxed ((k :: ks) ++ [p])). apply Forall_app. split; [assumption|].
    now repeat constructor.
Qed.

Lemma nms_boxed_or_single (preds kept : list Pred) :
  nms preds [] = Ok kept ->
  Forall boxed kept \/ exists p, preds = [p] /\ kept = [p].
Proof.
  destruct preds as [|p [|q ps]]; intros H.
  - injection H as <-. left. constructor.
  - injection H as <-. right. now exists p.
  - left. cbn [nms nmsDominated bind app] in H. bind_ok H.
    destruct (nmsDominated_boxed q p [] a E) as [Hq Hp].
    destruct a.
    + apply (nms_boxed ps p [] kept); [now repeat constructor|exact H].
    + apply (nms_boxed ps p [q] kept); [now repeat constructor|exact H].
Qed.

Section Failure.

Variable DICT : option (string -> option DictEntry).
Variable SIZE_RANGES : option (string -> option SizeRange).

(** What reaches the loop of step 7 carries boxes throughout, or is a
    single detection. *)
Lemma pipeline_boxed_or_single (rawPreds : list RawDetection) (w h : Q)
    (resolved : list Pred) :
  pipeline DICT SIZE_RANGES rawPreds w h = Ok resolved ->
  Forall boxed resolved \/ exists p, resolved = [p].
Proof.
  unfold pipeline. intros H. bind_ok H. bind_ok H. bind_ok H.
  destruct (nms_boxed_or_single _ _ E1) as [Hb|(p & _ & ->)].
  - left. apply Forall_forall. intros r Hr.
    destruct (confusion_In _ _ _ _ H Hr) as [[]|Hk].
    exact (proj1 (Forall_forall _ _) Hb r Hk).
  - right. exists p. simpl in H.
    destruct (confuseMap (class p)); simpl in H; now injection H as <-.
Qed.

End Failure.

(** A call that throws on a map of candidates with boxes leaves the map as
    it was. *)
Lemma failed_call_map (DICT : option (string -> option DictEntry))
    (SIZE_RANGES : option (string -> option SizeRange))
    (cands : Candidates) (clock : nat -> Z) (rawPreds : list RawDetection)
    (w h : Q) :
  Forall candidateBoxed cands ->
  fst (filter DICT SIZE_RANGES cands clock rawPreds w h) = TypeError ->
  snd (filter DICT SIZE_RANGES cands clock rawPreds w h) = cands.
Proof.
  intros Hboxed Hres. unfold filter in *.
  destruct (pipeline DICT SIZE_RANGES rawPreds w h) as [resolved|] eqn:Hpipe;
    [|reflexivity].
  destruct (pipeline_boxed_or_single DICT SIZE_RANGES _ _ _ _ Hpipe) as [Hb|(p & ->)].
  - destruct (trackLoop_total clock resolved Hb 0%nat (mkTracking cands [] []) Hboxed)
      as (t' & E).
    rewrite E in Hres. discriminate Hres.
  - simpl in *. destruct (trackOne (clock 0%nat) (mkTracking cands [] []) p);
      [discriminate Hres|reflexivity].
Qed.

(** X12.  A call that throws changes nothing.  On a map the tracker can
    be in, a call of [filter] that ends in an exception leaves every
    candidate as it was: no candidate is created or updated, no streak
    decays.  An exception can only come from steps 1 to 6, which do not
    touch the map, or from the first turn of the loop of step 7, before
    that turn has written anything. *)
Theorem failed_call_changes_nothing (DICT : option (string -> option DictEntry))
    (SIZE_RANGES : option (string -> option SizeRange))
    (cands : Candidates) (clock : nat -> Z) (rawPreds : list RawDetection)
    (videoWidth videoHeight : Q) :
  let call := filter DICT SIZE_RANGES cands clock rawPreds videoWidth videoHeight in
  reachable DICT SIZE_RANGES cands ->
  fst call = TypeError ->
  snd call = cands.
Proof.
  intros call Hreach Hres. subst call.
  apply failed_call_map; [|exact Hres].
  exact (reachable_boxed DICT SIZE_RANGES cands Hreach).
Qed.

(** A "zebra" without a box, on the map after a call on the shelf. *)
Lemma failed_call_changes_nothing_witness :
  snd (filter None None (snd (filter None None [] stillClock shelf 640 480))
         stillClock [mkRaw "zebra" None 0.9] 640 480)
  = snd (filter None None [] stillClock shelf 640 480).
Proof.
  refine (failed_call_changes_nothing None None
            (snd (filter None None [] stillClock shelf 640 480))
            stillClock [mkRaw "zebra" None 0.9] 640 480 _ _).
  - apply reach_filter, reach_init.
  - vm_compute. reflexivity.
Defined.

(** * Properties of the application *)

(** ** Objects keyed by class name *)

Lemma assoc_alter {V : Type} (k k' : string) (f : V -> V) (m : list (string * V)) :
  assoc String.eqb k (App.alter k' f m) =
  if String.eqb k k' then option_map f (assoc String.eqb k m)
  else assoc String.eqb k m.
Proof.
  induction m as [|[k0 v0] l IH]; simpl.
  - now destruct (String.eqb k k').
  - destruct (String.eqb_spec k' k0) as [->|Hne]; simpl.
    + destruct (String.eqb_spec k k0) as [->|Hk]; [reflexivity|].
      now destruct (String.eqb k k0).
    + destruct (String.eqb_spec k k0) as [->|Hk].
      * destruct (String.eqb_spec k0 k'); [congruence|reflexivity].
      * exact IH.
Qed.

Lemma alter_keys {V : Type} (k : string) (f : V -> V) (m : list (string * V)) :
  map fst (App.alter k f m) = map fst m.
Proof.
  induction m as [|[k0 v0] l IH]; simpl; [reflexivity|].
  destruct (String.eqb k k0); simpl; [reflexivity|now rewrite IH].
Qed.

Lemma alter_Forall {V : Type} (P : string * V -> Prop) (k : string) (f : V -> V)
    (m : list (string * V)) :
  (forall v, P (k, v) -> P (k, f v)) ->
  Forall P m -> Forall P (App.alter k f m).
Proof.
  intros Hf. induction 1 as [|[k0 v0] l Hv Hl IH]; simpl; [constructor|].
  destruct (String.eqb_spec k k0) as [->|Hne].
  - constructor; [now apply Hf|assumption].
  - constructor; assumption.
Qed.

Lemma assoc_str_app {V : Type} (k : string) (m m' : list (string * V)) :
  assoc String.eqb k (m ++ m') =
  match assoc String.eqb k m with
  | Some v => Some v
  | None => assoc String.eqb k m'
  end.
Proof.
  induction m as [|[k0 v0] l IH]; simpl; [reflexivity|].
  now destruct (String.eqb k k0).
Qed.

Lemma assoc_str_None {V : Type} (k : string) (m : list (string * V)) :
  assoc String.eqb k m = None <-> ~ In k (map fst m).
Proof.
  induction m as [|[k0 v0] l IH]; simpl; [tauto|].
  destruct (String.eqb_spec k k0) as [->|Hne].
  - split; [discriminate|]. intros H. destruct H. now left.
  - rewrite IH. split; [intros H [Heq|Hin]; [congruence|tauto]|tauto].
Qed.

Lemma assoc_str_In {V : Type} (k : string) (v : V) (m : list (string * V)) :
  assoc String.eqb k m = Some v -> In (k, v) m.
Proof.
  induction m as [|[k0 v0] l IH]; simpl; [discriminate|].
  destruct (String.eqb_spec k k0) as [->|Hne].
  - intros [= ->]. now left.
  - intros H. right. now apply IH.
Qed.

(** ** The smoother *)

Lemma assoc_updateSmooth (c cls : string) (rx ry rw rh : Q) (sm : App.Smoothed) :
  assoc String.eqb c (App.updateSmooth cls rx ry rw rh sm) =
  if String.eqb c cls
  then Some (smoothedEntry rx ry rw rh (assoc String.eqb cls sm))
  else assoc String.eqb c sm.
Proof.
  unfold App.updateSmooth. rewrite assoc_alter.
  destruct (String.eqb_spec c cls) as [->|Hne].
  - destruct (assoc String.eqb cls sm) as [s|] eqn:E.
    + rewrite assoc_alter, String.eqb_refl, E. reflexivity.
    + rewrite assoc_str_app, E. simpl. rewrite String.eqb_refl. reflexivity.
  - destruct (assoc String.eqb cls sm) as [s|] eqn:E.
    + rewrite assoc_alter. destruct (String.eqb_spec c cls); [congruence|reflexivity].
    + rewrite assoc_str_app. destruct (assoc String.eqb c sm); [reflexivity|].
      simpl. destruct (String.eqb_spec c cls); [congruence|reflexivity].
Qed.

Lemma updateSmooth_agesWithin (cls : string) (rx ry rw rh : Q) (sm : App.Smoothed) :
  agesWithin sm -> agesWithin (App.updateSmooth cls rx ry rw rh sm).
Proof.
  intros [Hu Ha]. unfold App.updateSmooth.
  destruct (assoc String.eqb cls sm) as [s|] eqn:E.
  - split.
    + now rewrite !alter_keys.
    + apply alter_Forall; [intros v _; simpl; lia|].
      apply alter_Forall; [intros v Hv; exact Hv|assumption].
  - split.
    + rewrite alter_keys, map_app. simpl. apply NoDup_app; [assumption| |].
      * repeat constructor. simpl. tauto.
      * intros a Ha' [<-|[]]. now apply assoc_str_None in E.
    + apply alter_Forall; [intros v _; simpl; lia|].
      apply Forall_app. split; [assumption|]. repeat constructor; simpl; lia.
Qed.

Lemma ageSmooth_cons (c : string) (s : App.Smooth.t) (rest : App.Smoothed) :
  App.ageSmooth ((c, s) :: rest) =
  if Z.gtb (App.Smooth.age s + 1) 30 then App.ageSmooth rest
  else (c, aged 1 s) :: App.ageSmooth rest.
Proof. reflexivity. Qed.

Lemma ageSmooth_In (sm : App.Smoothed) (c : string) (s' : App.Smooth.t) :
  In (c, s') (App.ageSmooth sm) ->
  exists s, In (c, s) sm /\ s' = aged 1 s /\ (App.Smooth.age s + 1 <= 30)%Z.
Proof.
  induction sm as [|[c0 s0] l IH]; [simpl; tauto|].
  rewrite ageSmooth_cons.
  destruct (Z.gtb_spec (App.Smooth.age s0 + 1) 30) as [Hgt|Hle].
  - intros H. destruct (IH H) as (s & Hs & Heq & Hage). exists s. simpl. auto.
  - intros [[= <- <-]|H].
    + exists s0. split; [now left|]. split; [reflexivity|lia].
    + destruct (IH H) as (s & Hs & Heq & Hage). exists s. simpl. auto.
Qed.

Lemma ageSmooth_keys (sm : App.Smoothed) :
  subseq (map fst (App.ageSmooth sm)) (map fst sm).
Proof.
  induction sm as [|[c0 s0] l IH]; [constructor|].
  rewrite ageSmooth_cons. destruct (Z.gtb _ _); simpl; now constructor.
Qed.

Lemma ageSmooth_agesWithin (sm : App.Smoothed) :
  agesWithin sm -> agesWithin (App.ageSmooth sm).
Proof.
  intros [Hu Ha]. split.
  - exact (NoDup_subseq _ _ (ageSmooth_keys sm) Hu).
  - apply Forall_forall. intros [c s'] Hin.
    destruct (ageSmooth_In _ _ _ Hin) as (s & Hs & -> & Hage).
    pose proof (proj1 (Forall_forall _ _) Ha _ Hs) as H0. simpl in *. lia.
Qed.

(** The entry of a class after [ageSmooth]: one frame older, or gone. *)
Lemma assoc_ageSmooth (sm : App.Smoothed) (c : string) :
  NoDup (map fst sm) ->
  assoc String.eqb c (App.ageSmooth sm) =
  match assoc String.eqb c sm with
  | Some s => if Z.gtb (App.Smooth.age s + 1) 30 then None else Some (aged 1 s)
  | None => None
  end.
Proof.
  induction sm as [|[c0 s0] l IH]; intros Hu; [reflexivity|].
  rewrite ageSmooth_cons. simpl in Hu |- *.
  inversion Hu as [|? ? Hc0 Hl]; subst.
  destruct (String.eqb_spec c c0) as [->|Hne].
  - destruct (Z.gtb (App.Smooth.age s0 + 1) 30).
    + rewrite (IH Hl). now rewrite (proj2 (assoc_str_None c0 l) Hc0).
    + simpl. now rewrite String.eqb_refl.
  - destruct (Z.gtb (App.Smooth.age s0 + 1) 30); [now apply IH|].
    simpl. destruct (String.eqb_spec c c0); [congruence|now apply IH].
Qed.

Lemma feedSmooth_agesWithin (vw sc ox oy : Q) (preds : list Pred) :
  forall sm, agesWithin sm -> agesWithin (fst (App.feedSmooth vw sc ox oy preds sm)).
Proof.
  induction preds as [|p ps IH]; simpl; intros sm H; [assumption|].
  destruct (bbox p); [|assumption]. apply IH. now apply updateSmooth_agesWithin.
Qed.

Lemma feedSmooth_total (vw sc ox oy : Q) (preds : list Pred) :
  Forall boxed preds ->
  forall sm, snd (App.feedSmooth vw sc ox oy preds sm) = true.
Proof.
  induction 1 as [|p ps (b & Hb) _ IH]; simpl; intros sm; [reflexivity|].
  rewrite Hb. apply IH.
Qed.

(** A detection of the frame leaves its class with an entry of age 0. *)
Lemma feedSmooth_fresh (vw sc ox oy : Q) (preds : list Pred) (p : Pred) :
  forall sm sm',
    App.feedSmooth vw sc ox oy preds sm = (sm', true) ->
    (In p preds
     \/ exists s, assoc String.eqb (class p) sm = Some s /\ App.Smooth.age s = 0%Z) ->
    exists s, assoc String.eqb (class p) sm' = Some s /\ App.Smooth.age s = 0%Z.
Proof.
  induction preds as [|q qs IH]; simpl; intros sm sm' H Hp.
  - injection H as <-. destruct Hp as [[]|Hp]. exact Hp.
  - destruct (bbox q) as [b|]; [|discriminate].
    apply (IH _ _ H).
    destruct (String.eqb_spec (class p) (class q)) as [Heq|Hne].
    + right. rewrite assoc_updateSmooth, Heq, String.eqb_refl.
      eexists. split; [reflexivity|]. now destruct (assoc String.eqb (class q) sm).
    + destruct Hp as [[->|Hp]|Hp]; [congruence|now left|right].
      rewrite assoc_updateSmooth.
      destruct (String.eqb_spec (class p) (class q)); [congruence|exact Hp].
Qed.

(** A frame without a detection of the class [c] leaves the entry of [c]
    to [ageSmooth]. *)
Lemma feedSmooth_other (vw sc ox oy : Q) (c : string) (preds : list Pred) :
  withoutClass c preds ->
  forall sm,
    snd (App.feedSmooth vw sc ox oy preds sm) = true
    /\ assoc String.eqb c (fst (App.feedSmooth vw sc ox oy preds sm)) =
       assoc String.eqb c sm.
Proof.
  induction 1 as [|p ps [(b & Hb) Hne] _ IH]; simpl; intros sm; [auto|].
  rewrite Hb. destruct (IH (App.updateSmooth (class p)
     ((vw - box_x b - box_w b) * sc + ox) (box_y b * sc + oy)
     (box_w b * sc) (box_h b * sc) sm)) as [Hc Ha].
  split; [exact Hc|]. rewrite Ha, assoc_updateSmooth.
  destruct (String.eqb_spec c (class p)); [congruence|reflexivity].
Qed.

Section Labels.

Variable DICT : option (string -> option DictEntry).

Lemma renderSmooth_agesWithin (vw vh cw ch : Q) (preds : list Pred)
    (sm : App.Smoothed) :
  agesWithin sm -> agesWithin (snd (App.renderSmooth DICT vw vh cw ch preds sm)).
Proof.
  intros H. unfold App.renderSmooth.
  match goal with
  | |- context [App.feedSmooth ?a ?b ?c ?d preds sm] =>
      pose proof (feedSmooth_agesWithin a b c d preds sm H) as Hf;
      destruct (App.feedSmooth a b c d preds sm) as [sm1 completed]
  end.
  simpl in Hf. destruct completed; simpl; [now apply ageSmooth_agesWithin|assumption].
Qed.

Lemma draw_In (cw ch : Q) (sm : App.Smoothed) (labels : list App.Label)
    (l : App.Label) :
  App.draw DICT cw ch sm = Ok labels ->
  In l labels ->
  exists s dict,
    In (App.label_cls l, s) sm
    /\ l = App.labelOf cw ch (App.label_cls l) s
    /\ (App.Smooth.age s <= App.GRACE)%Z
    /\ DICT = Some dict /\ dict (App.label_cls l) <> None.
Proof.
  revert labels. induction sm as [|[c s] rest IH]; simpl; intros labels H Hin.
  - injection H as <-. destruct Hin.
  - destruct (Z.gtb_spec (App.Smooth.age s) App.GRACE) as [Hgt|Hle].
    + destruct (IH _ H Hin) as (s' & dict & Hs' & Hrest). exists s', dict. auto.
    + unfold App.lookup in H. destruct DICT as [dict|] eqn:HD; [|discriminate].
      simpl in H. destruct (dict c) as [e|] eqn:He.
      * bind_ok H. injection H as <-. destruct Hin as [<-|Hin].
        -- exists s, dict. simpl. rewrite He. repeat split; auto. discriminate.
        -- destruct (IH _ eq_refl Hin) as (s' & dict' & Hs' & Hrest).
           exists s', dict'. auto.
      * destruct (IH _ H Hin) as (s' & dict' & Hs' & Hrest). exists s', dict'. auto.
Qed.

End Labels.

Lemma clearSmooth_empty (sm : App.Smoothed) : App.clearSmooth sm = [].
Proof.
  unfold App.clearSmooth.
  assert (H : forall l acc : App.Smoothed,
             (forall e, In e acc -> In (fst e) (map fst l)) ->
             fold_left (fun acc cs => App.remove (fst cs) acc) l acc = []).
  { induction l as [|x l IH]; simpl; intros acc Hacc.
    - destruct acc as [|e acc]; [reflexivity|]. destruct (Hacc e). now left.
    - apply IH. intros e Hin. unfold App.remove in Hin.
      apply filter_In in Hin as [Hin Hne].
      destruct (Hacc e Hin) as [Heq|Hl]; [|assumption].
      rewrite Heq, String.eqb_refl in Hne. discriminate Hne. }
  apply H. intros e He. now apply in_map.
Qed.

Lemma fade_window (s : App.Smooth.t) :
  (1 <= App.Smooth.age s <= App.GRACE)%Z ->
  App.fade s == 1 - inject_Z (App.Smooth.age s) / 15
  /\ 0 <= App.fade s /\ App.fade s <= 14 # 15.
Proof.
  intros [Hlo Hhi]. unfold App.fade, App.GRACE in *.
  destruct (Z.eqb_spec (App.Smooth.age s) 0) as [H0|_]; [lia|].
  change (inject_Z 15) with 15.
  assert (H1 : 1 <= inject_Z (App.Smooth.age s)).
  { change 1 with (inject_Z 1). rewrite <- Zle_Qle. exact Hlo. }
  assert (H2 : inject_Z (App.Smooth.age s) <= 15).
  { change 15 with (inject_Z 15). rewrite <- Zle_Qle. exact Hhi. }
  set (a := inject_Z (App.Smooth.age s)) in *.
  assert (Hq : a / 15 == a * (1 # 15)) by (unfold Qdiv; reflexivity).
  assert (Hnn : 0 <= 1 - a / 15) by (rewrite Hq; lra).
  rewrite (Q.max_r _ _ Hnn). split; [reflexivity|]. rewrite Hq. split; lra.
Qed.


(** ** The vocabulary *)

Lemma occurrences_cons (c : string) (p : Pred) (ps : list Pred) :
  occurrences c (p :: ps) =
  ((if String.eqb (class p) c then 1 else 0) + occurrences c ps)%Z.
Proof.
  unfold occurrences. simpl. destruct (String.eqb (class p) c); simpl length; lia.
Qed.

Lemma snapshotOf_refl (v : App.Vocab) : snapshotOf v v.
Proof. induction v; constructor; [repeat split; lia|assumption]. Qed.

Lemma snapshotOf_trans (a b c : App.Vocab) :
  snapshotOf a b -> snapshotOf b c -> snapshotOf a c.
Proof.
  intros Hab. revert c. induction Hab as [|x y l l' (Hk & Hd & Hc) _ IH]; intros c Hbc.
  - inversion Hbc. constructor.
  - inversion Hbc as [|? z ? l'' (Hk' & Hd' & Hc') Hrest]; subst.
    constructor; [repeat split; try congruence; lia|now apply IH].
Qed.

Lemma snapshotOf_alter (cls : string) (v : App.Vocab) :
  snapshotOf v
    (App.alter cls
       (fun w => App.Word.mk (App.Word.discovered w) (App.Word.count w + 1)) v).
Proof.
  induction v as [|[k w] l IH]; simpl; [constructor|].
  destruct (String.eqb cls k).
  - constructor; [simpl; repeat split; lia|apply snapshotOf_refl].
  - constructor; [repeat split; lia|exact IH].
Qed.

Lemma counted_alter (c cls : string) (v : App.Vocab) (w : App.Word.t) :
  assoc String.eqb cls v = Some w ->
  counted c
    (App.alter cls
       (fun w => App.Word.mk (App.Word.discovered w) (App.Word.count w + 1)) v)
  = ((if String.eqb cls c then 1 else 0) + counted c v)%Z.
Proof.
  intros Hw. unfold counted. rewrite assoc_alter.
  destruct (String.eqb_spec c cls) as [->|Hne].
  - rewrite String.eqb_refl, Hw. cbn [option_map App.Word.count]. lia.
  - destruct (String.eqb_spec cls c); [congruence|].
    destruct (assoc String.eqb c v); lia.
Qed.

Section Vocabulary.

Variable dict : string -> option DictEntry.

(** With the dictionary loaded the loop of [trackVocab] runs to its end;
    what it does to the vocabulary, class by class. *)
Lemma trackWords_spec (clock : nat -> Z) (preds : list Pred) :
  forall i v nw,
  exists v' nw',
    App.trackWords (Some dict) clock i preds v nw = (v', nw', true)
    /\ (nw' = false -> nw = false /\ snapshotOf v v')
    /\ (forall c, dict c <> None \/ assoc String.eqb c v <> None ->
          counted c v' = (counted c v + occurrences c preds)%Z)
    /\ (forall c, dict c = None -> assoc String.eqb c v = None ->
          assoc String.eqb c v' = None)
    /\ (forall c w, assoc String.eqb c v = Some w ->
          exists w', assoc String.eqb c v' = Some w'
                     /\ App.Word.discovered w' = App.Word.discovered w).
Proof.
  induction preds as [|p ps IH]; intros i v nw.
  - exists v, nw. simpl. split; [reflexivity|].
    split; [intros ->; split; [reflexivity|apply snapshotOf_refl]|].
    split; [intros c _; unfold occurrences; simpl; lia|].
    split; [auto|]. intros c w Hw. now exists w.
  - cbn [App.trackWords App.lookup].
    destruct (assoc String.eqb (class p) v) as [w0|] eqn:Hv.
    + (* a known word is counted *)
      set (v1 := App.alter (class p)
                   (fun w => App.Word.mk (App.Word.discovered w) (App.Word.count w + 1)) v).
      destruct (IH (S i) v1 nw) as (v' & nw' & Hrun & Hsnap & Hcount & Hnone & Hdisc).
      exists v', nw'.
      split; [destruct (dict (class p)); exact Hrun|].
      split.
      { intros Hnw. destruct (Hsnap Hnw) as [-> Hs]. split; [reflexivity|].
        exact (snapshotOf_trans _ _ _ (snapshotOf_alter (class p) v) Hs). }
      split.
      { intros c Hc. rewrite occurrences_cons, Hcount.
        - unfold v1. rewrite (counted_alter c (class p) v w0 Hv). lia.
        - destruct Hc as [Hc|Hc]; [now left|right].
          unfold v1. rewrite assoc_alter.
          destruct (String.eqb c (class p)); [|exact Hc].
          destruct (assoc String.eqb c v); [discriminate|congruence]. }
      split.
      { intros c Hd Hc. apply Hnone; [assumption|]. unfold v1. rewrite assoc_alter, Hc.
        now destruct (String.eqb c (class p)). }
      { intros c w Hw.
        destruct (String.eqb_spec c (class p)) as [->|Hne].
        - assert (w0 = w) by congruence. subst w0.
          destruct (Hdisc (class p)
                      (App.Word.mk (App.Word.discovered w) (App.Word.count w + 1)))
            as (w' & Hw' & Hd').
          { unfold v1. now rewrite assoc_alter, String.eqb_refl, Hv. }
          exists w'. auto.
        - apply Hdisc. unfold v1. rewrite assoc_alter.
          destruct (String.eqb_spec c (class p)); [congruence|exact Hw]. }
    + destruct (dict (class p)) as [e|] eqn:Hd.
      * (* a new word *)
        set (v1 := v ++ [(class p, App.Word.mk (clock i) 1)]).
        destruct (IH (S i) v1 true) as (v' & nw' & Hrun & Hsnap & Hcount & Hnone & Hdisc).
        exists v', nw'. split; [exact Hrun|].
        split; [intros Hnw; destruct (Hsnap Hnw) as [Habs _]; discriminate Habs|].
        split.
        { intros c Hc. rewrite occurrences_cons, Hcount.
          - unfold v1, counted. rewrite assoc_str_app.
            destruct (String.eqb_spec (class p) c) as [<-|Hne].
            + rewrite Hv. simpl. rewrite String.eqb_refl. simpl. lia.
            + destruct (assoc String.eqb c v); [lia|]. simpl.
              destruct (String.eqb_spec c (class p)); [congruence|lia].
          - destruct Hc as [Hc|Hc]; [now left|right].
            unfold v1. rewrite assoc_str_app.
            destruct (assoc String.eqb c v); [discriminate|congruence]. }
        split.
        { intros c Hdc Hc. apply Hnone; [assumption|]. unfold v1.
          rewrite assoc_str_app, Hc. simpl.
          destruct (String.eqb_spec c (class p)); [congruence|reflexivity]. }
        { intros c w Hw. apply Hdisc. unfold v1. now rewrite assoc_str_app, Hw. }
      * (* a class the dictionary does not know *)
        destruct (IH (S i) v nw) as (v' & nw' & Hrun & Hsnap & Hcount & Hnone & Hdisc).
        exists v', nw'. split; [exact Hrun|]. split; [exact Hsnap|].
        split; [|split; assumption].
        intros c Hc. rewrite occurrences_cons, (Hcount c Hc).
        destruct (String.eqb_spec (class p) c) as [<-|Hne]; [|lia].
        destruct Hc as [Hc|Hc]; congruence.
Qed.

End Vocabulary.

Lemma trackWords_undefined (clock : nat -> Z) (i : nat) (preds : list Pred)
    (v : App.Vocab) (nw : bool) :
  fst (fst (App.trackWords None clock i preds v nw)) = v.
Proof. destruct preds; reflexivity. Qed.

Section AppInvariants.

Variable DICT : option (string -> option DictEntry).
Variable SIZE_RANGES : option (string -> option SizeRange).

Lemma trackVocab_persisted (clock : nat -> Z) (preds : list Pred) (st : App.Store) :
  persisted st -> persisted (snd (App.trackVocab DICT clock preds st)).
Proof.
  unfold persisted, App.trackVocab. intros H. destruct DICT as [dict|].
  - destruct (trackWords_spec dict clock preds 0%nat (App.vocab st) false)
      as (v' & nw' & -> & Hsnap & _).
    simpl. destruct nw'; simpl.
    + apply snapshotOf_refl.
    + destruct (Hsnap eq_refl) as [_ Hs]. exact (snapshotOf_trans _ _ _ H Hs).
  - pose proof (trackWords_undefined clock 0 preds (App.vocab st) false) as Hv.
    destruct (App.trackWords None clock 0 preds (App.vocab st) false)
      as [[v' nw'] completed].
    simpl in Hv. subst v'. destruct preds; simpl in *.
    + destruct completed; simpl.
      * destruct nw'; simpl; [apply snapshotOf_refl|exact H].
      * exact H.
    + destruct completed; simpl.
      * destruct nw'; simpl; [apply snapshotOf_refl|exact H].
      * exact H.
Qed.

(** What a returning call confirms carries boxes. *)
Lemma filter_result_boxed (cands : Candidates) (clock : nat -> Z)
    (rawPreds : list RawDetection) (w h : Q) (result : list Pred) :
  fst (filter DICT SIZE_RANGES cands clock rawPreds w h) = Ok result ->
  Forall boxed result.
Proof.
  unfold filter.
  destruct (pipeline DICT SIZE_RANGES rawPreds w h) as [resolved|]; [|discriminate].
  destruct (trackLoop clock 0 resolved (mkTracking cands [] [])) as [t completed] eqn:E.
  destruct completed; [|discriminate]. simpl. intros [= <-].
  assert (Hloop : forall l i t0 t1,
            trackLoop clock i l t0 = (t1, true) ->
            Forall boxed (confirmed t0) -> Forall boxed (confirmed t1)).
  { induction l as [|p ps IH]; simpl; intros i t0 t1 H H0.
    - now injection H as <-.
    - destruct (trackOne (clock i) t0 p) as [t'|] eqn:E1; [|discriminate].
      apply (IH _ _ _ H).
      pose proof (trackOne_boxed _ _ _ _ E1) as Hp.
      apply trackOne_effect in E1.
      destruct E1 as [k _ _ _ ->|k c _ _ _ ->|k kNew c _ _ _ _ ->].
      + exact H0.
      + destruct (Z.geb _ _); [|exact H0].
        apply Forall_app. split; [exact H0|]. now repeat constructor.
      + apply Forall_app. split; [exact H0|]. now repeat constructor. }
  exact (Hloop resolved 0%nat _ _ E (Forall_nil _)).
Qed.

Lemma appReachable_invariant (st : App.State) :
  appReachable DICT SIZE_RANGES st ->
  reachable DICT SIZE_RANGES (App.tracked st)
  /\ Forall boxed (App.currentDetections st)
  /\ agesWithin (App.smoothed st)
  /\ persisted (App.store st).
Proof.
  induction 1 as [item|now clock vocabClock rawPreds vw vh cw ch st _ IH
                  |st _ IH|st _ IH].
  - simpl. split; [constructor|]. split; [constructor|].
    split; [split; constructor|]. unfold persisted. simpl. apply snapshotOf_refl.
  - destruct IH as (Ht & Hc & Hs & Hp). unfold App.detectLoop.
    pose proof (reach_filter DICT SIZE_RANGES _ clock rawPreds vw vh Ht) as Ht'.
    pose proof (filter_result_boxed (App.tracked st) clock rawPreds vw vh) as Hb.
    destruct (filter DICT SIZE_RANGES (App.tracked st) clock rawPreds vw vh)
      as [[preds|] cands]; simpl in *; [|auto].
    specialize (Hb preds eq_refl).
    pose proof (renderSmooth_agesWithin DICT vw vh cw ch preds _ Hs) as Hs'.
    destruct (App.renderSmooth DICT vw vh cw ch preds (App.smoothed st))
      as [[labels|] sm]; simpl in *; [|auto].
    pose proof (trackVocab_persisted vocabClock preds _ Hp) as Hp'.
    destruct (App.trackVocab DICT vocabClock preds (App.store st))
      as [[[]|] sto]; simpl in *; [|auto].
    destruct (Qgtb _ _); simpl; auto.
  - destruct IH as (Ht & Hc & Hs & Hp). simpl.
    split; [now apply reach_reset|]. split; [assumption|].
    split; [|assumption]. rewrite clearSmooth_empty. split; constructor.
  - destruct IH as (Ht & Hc & Hs & Hp). simpl.
    repeat split; try assumption; try apply Hs. unfold persisted. simpl. constructor.
Qed.

End AppInvariants.

Lemma assoc_str_unique {V : Type} (k : string) (v : V) (m : list (string * V)) :
  NoDup (map fst m) -> In (k, v) m -> assoc String.eqb k m = Some v.
Proof.
  induction m as [|[k0 v0] l IH]; simpl; intros Hu Hin; [destruct Hin|].
  inversion Hu as [|? ? Hk0 Hl]; subst.
  destruct Hin as [[= -> ->]|Hin].
  - now rewrite String.eqb_refl.
  - destruct (String.eqb_spec k k0) as [->|Hne]; [|now apply IH].
    destruct Hk0. change k0 with (fst (k0, v)). now apply in_map.
Qed.

(** X13.  The labels of a frame.  In every state of the page, each label
    that [renderSmooth] draws belongs to an entry of [smoothed] whose age
    is from 1 to [GRACE]: the smoother has aged every entry by the time the
    draw loop runs, so the case [s.age === 0] of the opacity never applies.
    The opacity factor is [1 - age / 15], at most 14/15 even for an object
    detected in this very frame, and never negative. *)
Theorem drawn_labels_fade (DICT : option (string -> option DictEntry))
    (SIZE_RANGES : option (string -> option SizeRange)) (st : App.State)
    (vw vh cw ch : Q) (preds : list Pred) (labels : list App.Label) (l : App.Label) :
  let call := App.renderSmooth DICT vw vh cw ch preds (App.smoothed st) in
  appReachable DICT SIZE_RANGES st ->
  fst call = Ok labels ->
  In l labels ->
  exists s,
    assoc String.eqb (App.label_cls l) (snd call) = Some s
    /\ (1 <= App.Smooth.age s <= App.GRACE)%Z
    /\ App.label_fade l == 1 - inject_Z (App.Smooth.age s) / 15
    /\ 0 <= App.label_fade l /\ App.label_fade l <= 14 # 15.
Proof.
  intros call Hreach Hres Hin. subst call.
  destruct (appReachable_invariant DICT SIZE_RANGES st Hreach) as (_ & _ & Hages & _).
  unfold App.renderSmooth in *.
  match type of Hres with
  | context [App.feedSmooth ?a ?b ?c ?d preds (App.smoothed st)] =>
      pose proof (feedSmooth_agesWithin a b c d preds _ Hages) as Hfed;
      destruct (App.feedSmooth a b c d preds (App.smoothed st)) as [sm1 completed]
  end.
  simpl in Hfed. destruct completed; [|discriminate Hres]. simpl in *.
  destruct (draw_In DICT cw ch _ labels l Hres Hin)
    as (s & dict & Hs & Hl & Hgrace & _).
  pose proof (ageSmooth_agesWithin sm1 Hfed) as [Hu _].
  destruct (ageSmooth_In _ _ _ Hs) as (s0 & Hs0 & Heq & _).
  pose proof (proj1 (Forall_forall _ _) (proj2 Hfed) _ Hs0) as H0. simpl in H0.
  assert (Hage : (1 <= App.Smooth.age s <= App.GRACE)%Z).
  { rewrite Heq in Hgrace |- *. unfold aged, App.GRACE in *. simpl in *. lia. }
  exists s. split; [now apply assoc_str_unique|]. split; [exact Hage|].
  rewrite Hl. exact (fade_window s Hage).
Qed.

(** A "cup" confirmed on a fresh page. *)
Lemma drawn_labels_fade_witness :
  Forall (fun l =>
            exists s,
              assoc String.eqb (App.label_cls l)
                (snd (App.renderSmooth everyClass 640 480 800 600 [cupPred]
                        (App.smoothed freshPage))) = Some s
              /\ (1 <= App.Smooth.age s <= App.GRACE)%Z
              /\ App.label_fade l == 1 - inject_Z (App.Smooth.age s) / 15
              /\ 0 <= App.label_fade l /\ App.label_fade l <= 14 # 15)
    (returned (fst (App.renderSmooth everyClass 640 480 800 600 [cupPred]
                      (App.smoothed freshPage)))).
Proof.
  apply Forall_forall. intros l Hl.
  refine (drawn_labels_fade everyClass None freshPage 640 480 800 600 [cupPred]
            _ l _ _ Hl).
  - apply app_init.
  - vm_compute. reflexivity.
Defined.

(** ** Labels without a detection *)

Section Expiry.

Variable DICT : option (string -> option DictEntry).

Lemma applyRender_agesWithin (sm : App.Smoothed) (r : Render) :
  agesWithin sm -> agesWithin (applyRender DICT sm r).
Proof. apply renderSmooth_agesWithin. Qed.

Lemma applyRender_unseen (c : string) (sm : App.Smoothed) (r : Render) :
  agesWithin sm ->
  withoutClass c (r_preds r) ->
  assoc String.eqb c (applyRender DICT sm r) =
  match assoc String.eqb c sm with
  | Some s => if Z.gtb (App.Smooth.age s + 1) 30 then None else Some (aged 1 s)
  | None => None
  end.
Proof.
  intros Hages Hr. unfold applyRender, App.renderSmooth.
  match goal with
  | |- context [App.feedSmooth ?a ?b ?d ?e (r_preds r) sm] =>
      destruct (feedSmooth_other a b d e c (r_preds r) Hr sm) as [Hc Ha];
      pose proof (feedSmooth_agesWithin a b d e (r_preds r) sm Hages) as Hfed;
      destruct (App.feedSmooth a b d e (r_preds r) sm) as [sm1 completed]
  end.
  simpl in *. subst completed. simpl. rewrite <- Ha.
  apply assoc_ageSmooth. apply Hfed.
Qed.

Lemma unseen_stays_absent (c : string) (calls : list Render) :
  Forall (fun r => withoutClass c (r_preds r)) calls ->
  forall sm,
    agesWithin sm -> assoc String.eqb c sm = None ->
    assoc String.eqb c (fold_left (applyRender DICT) calls sm) = None.
Proof.
  induction 1 as [|r rs Hr _ IH]; simpl; intros sm Hages Hc; [assumption|].
  apply IH; [now apply applyRender_agesWithin|].
  now rewrite (applyRender_unseen c sm r Hages Hr), Hc.
Qed.

Lemma unseen_ages (c : string) (calls : list Render) :
  Forall (fun r => withoutClass c (r_preds r)) calls ->
  forall sm s,
    agesWithin sm -> assoc String.eqb c sm = Some s ->
    assoc String.eqb c (fold_left (applyRender DICT) calls sm) =
    if Z.gtb (App.Smooth.age s + Z.of_nat (length calls)) 30 then None
    else Some (aged (Z.of_nat (length calls)) s).
Proof.
  induction 1 as [|r rs Hr Hrs IH]; intros sm s Hages Hc.
  - cbn [fold_left length]. change (Z.of_nat 0) with 0%Z.
    pose proof (proj1 (Forall_forall _ _) (proj2 Hages) _ (assoc_str_In _ _ _ Hc)) as H0.
    simpl in H0.
    destruct (Z.gtb_spec (App.Smooth.age s + 0) 30) as [Hgt|_]; [lia|].
    rewrite Hc. f_equal. destruct s. unfold aged. simpl. f_equal. lia.
  - cbn [fold_left length].
    pose proof (applyRender_unseen c sm r Hages Hr) as Hstep. rewrite Hc in Hstep.
    pose proof (applyRender_agesWithin sm r Hages) as Hages'.
    destruct (Z.gtb_spec (App.Smooth.age s + 1) 30) as [Hgt|Hle].
    + rewrite (unseen_stays_absent c rs Hrs _ Hages' Hstep).
      destruct (Z.gtb_spec (App.Smooth.age s + Z.of_nat (S (length rs))) 30); [reflexivity|lia].
    + rewrite (IH _ _ Hages' Hstep). simpl App.Smooth.age.
      replace (App.Smooth.age s + 1 + Z.of_nat (length rs))%Z
        with (App.Smooth.age s + Z.of_nat (S (length rs)))%Z by lia.
      destruct (Z.gtb _ _); [reflexivity|].
      f_equal. unfold aged. simpl. f_equal. lia.
Qed.

End Expiry.

(** X14.  The life of a label without detections.  An entry of
    [smoothed] whose class no confirmed detection carries for [m]
    consecutive calls of [renderSmooth] keeps its position and size and is
    [m] frames older after them, as long as its age stays at most 30; once
    the age would pass 30 the entry is deleted, and it stays away for the
    rest of the run. *)
Theorem label_expiry_law (DICT : option (string -> option DictEntry))
    (sm : App.Smoothed) (c : string) (s : App.Smooth.t) (calls : list Render) :
  let m := Z.of_nat (length calls) in
  let after := fold_left (applyRender DICT) calls sm in
  agesWithin sm ->
  assoc String.eqb c sm = Some s ->
  Forall (fun r => withoutClass c (r_preds r)) calls ->
  ((App.Smooth.age s + m <= 30)%Z ->
     assoc String.eqb c after =
     Some (App.Smooth.mk (App.Smooth.x s) (App.Smooth.y s) (App.Smooth.w s)
             (App.Smooth.h s) (App.Smooth.age s + m) (App.Smooth.n s)))
  /\ ((30 < App.Smooth.age s + m)%Z -> assoc String.eqb c after = None).
Proof.
  intros m after Hages Hc Hcalls. subst m after.
  rewrite (unseen_ages DICT c calls Hcalls sm s Hages Hc).
  destruct (Z.gtb_spec (App.Smooth.age s + Z.of_nat (length calls)) 30) as [Hgt|Hle].
  - split; [lia|reflexivity].
  - split; [reflexivity|lia].
Qed.

(** The "cup" label over two frames that show a person only. *)
Lemma label_expiry_law_witness :
  assoc String.eqb "cup"%string
    (fold_left (applyRender everyClass)
       [ mkRender 640 480 800 600
           [mkPred "person" (Some (mkBBox 400 200 80 200)) 0.9 0.9 1.0];
         mkRender 640 480 800 600 [] ]
       [("cup"%string, cupEntry)])
  = Some (App.Smooth.mk 200 100 50 40 (1 + 2) 1).
Proof.
  refine (proj1 (label_expiry_law everyClass [("cup"%string, cupEntry)] "cup"%string cupEntry
                   [ mkRender 640 480 800 600
                       [mkPred "person" (Some (mkBBox 400 200 80 200)) 0.9 0.9 1.0];
                     mkRender 640 480 800 600 [] ] _ eq_refl _) _).
  - split; [repeat constructor; simpl; tauto|repeat constructor; simpl; lia].
  - repeat constructor; [now exists (mkBBox 400 200 80 200)|discriminate].
  - simpl. lia.
Defined.

(** ** The smoother between the old and the new position *)

Lemma between_start (a b : Q) : between a b a.
Proof. unfold between. destruct (Qlt_le_dec a b); [left|right]; split; lra. Qed.

Lemma lerp_between (a b v : Q) :
  between a b v -> between a b (App.lerp v b App.SMOOTH).
Proof.
  unfold between, App.lerp, App.SMOOTH.
  intros [[H1 H2]|[H1 H2]]; [left|right]; split; lra.
Qed.

Lemma smoothFrame_agesWithin (c : string) (rx ry rw rh : Q) (sm : App.Smoothed) :
  agesWithin sm -> agesWithin (smoothFrame c rx ry rw rh sm).
Proof.
  intros H. unfold smoothFrame.
  now apply ageSmooth_agesWithin, updateSmooth_agesWithin.
Qed.

(** X15.  The smoother never overshoots.  Over [k] frames in each of
    which the one update of the smoother is for the class [c], at the same
    raw position, each of the four smoothed numbers stays between the value
    it started from and its raw value: [x_k] lies between [x_0] and [rx],
    and in the same way for [y], [w] and [h].  The entry counts the [k]
    updates, and its age is 1 after every such frame. *)
Theorem smoothing_never_overshoots (c : string) (rx ry rw rh : Q) (sm : App.Smoothed)
    (s : App.Smooth.t) (k : nat) :
  let after := Nat.iter k (smoothFrame c rx ry rw rh) sm in
  agesWithin sm ->
  assoc String.eqb c sm = Some s ->
  exists e,
    assoc String.eqb c after = Some e
    /\ between (App.Smooth.x s) rx (App.Smooth.x e)
    /\ between (App.Smooth.y s) ry (App.Smooth.y e)
    /\ between (App.Smooth.w s) rw (App.Smooth.w e)
    /\ between (App.Smooth.h s) rh (App.Smooth.h e)
    /\ App.Smooth.n e = (App.Smooth.n s + Z.of_nat k)%Z
    /\ (k <> 0%nat -> App.Smooth.age e = 1%Z).
Proof.
  intros after Hages Hs. subst after.
  assert (Hinv : agesWithin (Nat.iter k (smoothFrame c rx ry rw rh) sm)
                 /\ exists e,
    assoc String.eqb c (Nat.iter k (smoothFrame c rx ry rw rh) sm) = Some e
    /\ between (App.Smooth.x s) rx (App.Smooth.x e)
    /\ between (App.Smooth.y s) ry (App.Smooth.y e)
    /\ between (App.Smooth.w s) rw (App.Smooth.w e)
    /\ between (App.Smooth.h s) rh (App.Smooth.h e)
    /\ App.Smooth.n e = (App.Smooth.n s + Z.of_nat k)%Z
    /\ (k <> 0%nat -> App.Smooth.age e = 1%Z)).
  { induction k as [|k [Hk (e & He & Hx & Hy & Hw & Hh & Hn & _)]].
    - split; [exact Hages|]. exists s. cbn [Nat.iter Z.of_nat].
      split; [exact Hs|]. do 4 (split; [apply between_start|]).
      split; [lia|]. intros H. now elim H.
    - cbn [Nat.iter]. split; [now apply smoothFrame_agesWithin|].
      set (m := Nat.iter k (smoothFrame c rx ry rw rh) sm) in *.
      assert (Hnext : assoc String.eqb c (smoothFrame c rx ry rw rh m) =
                      Some (aged 1 (smoothedEntry rx ry rw rh (Some e)))).
      { unfold smoothFrame.
        rewrite assoc_ageSmooth
          by (apply (updateSmooth_agesWithin c rx ry rw rh m Hk)).
        now rewrite assoc_updateSmooth, String.eqb_refl, He. }
      exists (aged 1 (smoothedEntry rx ry rw rh (Some e))). split; [exact Hnext|].
      cbn [aged smoothedEntry App.Smooth.x App.Smooth.y App.Smooth.w App.Smooth.h
           App.Smooth.n App.Smooth.age].
      split; [now apply lerp_between|].
      split; [now apply lerp_between|].
      split; [now apply lerp_between|].
      split; [now apply lerp_between|].
      split; [lia|reflexivity]. }
  exact (proj2 Hinv).
Qed.

(** Two frames on a "cup" that has moved to the right. *)
Lemma smoothing_never_overshoots_witness :
  exists e,
    assoc String.eqb "cup"%string
      (Nat.iter 2 (smoothFrame "cup" 300 100 50 40) [("cup"%string, cupEntry)]) = Some e
    /\ between (App.Smooth.x cupEntry) 300 (App.Smooth.x e)
    /\ between (App.Smooth.y cupEntry) 100 (App.Smooth.y e)
    /\ between (App.Smooth.w cupEntry) 50 (App.Smooth.w e)
    /\ between (App.Smooth.h cupEntry) 40 (App.Smooth.h e)
    /\ App.Smooth.n e = (App.Smooth.n cupEntry + Z.of_nat 2)%Z
    /\ (2%nat <> 0%nat -> App.Smooth.age e = 1%Z).
Proof.
  refine (smoothing_never_overshoots "cup" 300 100 50 40 [("cup"%string, cupEntry)]
            cupEntry 2 _ eq_refl).
  split; [repeat constructor; simpl; tauto|repeat constructor; simpl; lia].
Defined.

(** ** What the vocabulary counts and what it stores *)

(** X16.  The count of a word.  With the dictionary loaded, [trackVocab]
    returns, and for every class that the dictionary knows or the
    vocabulary already lists, the count after the call is the count before
    it (0 for a class not yet listed) plus the number of confirmed
    detections of that class; a class that is neither known nor listed
    stays out of the vocabulary; a listed word keeps the date of its
    discovery. *)
Theorem vocabulary_count_law (dict : string -> option DictEntry) (clock : nat -> Z)
    (preds : list Pred) (st : App.Store) (c : string) :
  let call := App.trackVocab (Some dict) clock preds st in
  fst call = Ok tt
  /\ (dict c <> None \/ assoc String.eqb c (App.vocab st) <> None ->
      counted c (App.vocab (snd call)) =
      (counted c (App.vocab st) + occurrences c preds)%Z)
  /\ (dict c = None -> assoc String.eqb c (App.vocab st) = None ->
      assoc String.eqb c (App.vocab (snd call)) = None)
  /\ (forall w, assoc String.eqb c (App.vocab st) = Some w ->
      exists w', assoc String.eqb c (App.vocab (snd call)) = Some w'
                 /\ App.Word.discovered w' = App.Word.discovered w).
Proof.
  intros call. subst call. unfold App.trackVocab.
  destruct (trackWords_spec dict clock preds 0%nat (App.vocab st) false)
    as (v' & nw' & -> & _ & Hcount & Hnone & Hdisc).
  simpl. split; [reflexivity|]. split; [apply Hcount|]. split; [apply Hnone|].
  intros w. apply Hdisc.
Qed.

Lemma snapshotOf_keys (a b : App.Vocab) : snapshotOf a b -> map fst a = map fst b.
Proof.
  induction 1 as [|x y l l' (Hk & _) _ IH]; simpl; [reflexivity|]. now rewrite Hk, IH.
Qed.

(** X17.  What a reload reads back.  In every state of the page, the
    vocabulary that [JSON.parse(localStorage.getItem('ll_vocab') || '{}')]
    would return lists exactly the words of [state.vocab], in the same
    order and with the same dates of discovery, and none of its counts
    exceeds the current one: the item is written only when a new word
    arrives, so a reload loses no word but may lose counts. *)
Theorem stored_vocabulary_is_snapshot (DICT : option (string -> option DictEntry))
    (SIZE_RANGES : option (string -> option SizeRange)) (st : App.State) :
  let stored := App.vocab (App.loadVocab (App.ll_vocab (App.store st))) in
  let current := App.vocab (App.store st) in
  appReachable DICT SIZE_RANGES st ->
  map fst stored = map fst current
  /\ Forall2 (fun a b =>
                fst a = fst b
                /\ App.Word.discovered (snd a) = App.Word.discovered (snd b)
                /\ (App.Word.count (snd a) <= App.Word.count (snd b))%Z)
       stored current.
Proof.
  intros stored current Hreach. subst stored current.
  destruct (appReachable_invariant DICT SIZE_RANGES st Hreach) as (_ & _ & _ & Hp).
  split; [exact (snapshotOf_keys _ _ Hp)|exact Hp].
Qed.

(** ** The quiz score *)

Lemma quizReachable_counters (q : App.Quiz) :
  quizReachable q -> (0 <= App.quizCorrect q <= App.quizTotal q)%Z.
Proof.
  induction 1 as [|q revealed _ IH|q _ IH|q _ IH].
  - simpl. lia.
  - unfold App.clickLabel. destruct (App.quizMode q); [|exact IH].
    destruct revealed; cbn [fst negb App.quizCorrect App.quizTotal]; lia.
  - exact IH.
  - simpl. lia.
Qed.

(** X18.  The quiz score.  Whatever the user clicks, the counter of
    revealed labels is between 0 and the counter of clicks, and the
    percentage [updateStats] shows is between 0 and 100. *)
Theorem quiz_score_bounds (q : App.Quiz) (pct : Z) :
  quizReachable q ->
  App.quizScore q = Some pct ->
  (0 <= App.quizCorrect q <= App.quizTotal q)%Z /\ (0 <= pct <= 100)%Z.
Proof.
  intros Hq Hs. pose proof (quizReachable_counters q Hq) as [Hlo Hhi].
  split; [lia|]. unfold App.quizScore in Hs.
  destruct (Z.gtb_spec (App.quizTotal q) 0) as [Hpos|]; [|discriminate].
  injection Hs as <-. unfold Math_round.
  set (c := App.quizCorrect q) in *. set (t := App.quizTotal q) in *.
  assert (Ht : 0 < inject_Z t) by (change 0 with (inject_Z 0); now rewrite <- Zlt_Qlt).
  assert (Hc0 : 0 <= inject_Z c) by (change 0 with (inject_Z 0); now rewrite <- Zle_Qle).
  assert (Hct : inject_Z c <= inject_Z t) by now rewrite <- Zle_Qle.
  assert (Hr0 : 0 <= inject_Z c / inject_Z t).
  { apply Qle_shift_div_l; [exact Ht|]. now rewrite Qmult_0_l. }
  assert (Hr1 : inject_Z c / inject_Z t <= 1).
  { apply Qle_shift_div_r; [exact Ht|]. now rewrite Qmult_1_l. }
  set (v := inject_Z c / inject_Z t) in *.
  split.
  - assert (H : (Qfloor 0 <= Qfloor (v * 100 + (1 # 2)))%Z)
      by (apply Qfloor_resp_le; lra).
    exact H.
  - assert (H : (Qfloor (v * 100 + (1 # 2)) <= Qfloor (100 + (1 # 2)))%Z)
      by (apply Qfloor_resp_le; lra).
    exact H.
Qed.

(** Reveal, hide, reveal: two of three. *)
Lemma quiz_score_bounds_witness :
  (0 <= 2 <= 3)%Z /\ (0 <= 67 <= 100)%Z.
Proof.
  exact (quiz_score_bounds
           (fst (App.clickLabel
                   (fst (App.clickLabel
                           (fst (App.clickLabel (App.toggleQuiz (App.mkQuiz false 0 0))
                                   false))
                           true))
                   false))
           67
           (quiz_click _ false
              (quiz_click _ true
                 (quiz_click _ false (quiz_toggle _ quiz_init))))
           eq_refl).
Defined.

(** A page after its first frame. *)
Lemma stored_vocabulary_is_snapshot_witness :
  map fst
    (App.vocab
       (App.loadVocab
          (App.ll_vocab
             (App.store
                (App.detectLoop everyClass None 0 stillClock stillClock
                   [cupAt 0.5] 640 480 800 600 freshPage)))))
  = map fst
      (App.vocab
         (App.store
            (App.detectLoop everyClass None 0 stillClock stillClock
               [cupAt 0.5] 640 480 800 600 freshPage))).
Proof.
  refine (proj1 (stored_vocabulary_is_snapshot everyClass None
                   (App.detectLoop everyClass None 0 stillClock stillClock
                      [cupAt 0.5] 640 480 800 600 freshPage) _)).
  apply app_frame, app_init.
Defined.

(** ** A turn of the processing loop *)

Section Frame.

Variable dict : string -> option DictEntry.
Variable SIZE_RANGES : option (string -> option SizeRange).

Lemma draw_total (cw ch : Q) (sm : App.Smoothed) :
  exists labels, App.draw (Some dict) cw ch sm = Ok labels.
Proof.
  induction sm as [|[c s] rest (labels & IH)]; simpl; [eauto|].
  destruct (Z.gtb _ _); [eauto|].
  destruct (dict c); [|eauto]. rewrite IH. simpl. eauto.
Qed.

Lemma trackWords_known (clock : nat -> Z) (preds : list Pred) (p : Pred) :
  In p preds -> dict (class p) <> None ->
  forall i v nw,
  exists w,
    assoc String.eqb (class p)
      (fst (fst (App.trackWords (Some dict) clock i preds v nw))) = Some w.
Proof.
  intros Hin Hd. induction preds as [|q qs IH]; [destruct Hin|].
  intros i v nw. cbn [App.trackWords App.lookup].
  assert (Hkeep : forall j v1 nw1 w1,
            assoc String.eqb (class p) v1 = Some w1 ->
            exists w, assoc String.eqb (class p)
                        (fst (fst (App.trackWords (Some dict) clock j qs v1 nw1)))
                      = Some w).
  { intros j v1 nw1 w1 Hw1.
    destruct (trackWords_spec dict clock qs j v1 nw1)
      as (v' & nw' & -> & _ & _ & _ & Hdisc).
    destruct (Hdisc _ _ Hw1) as (w' & Hw' & _). now exists w'. }
  destruct Hin as [->|Hin].
  - destruct (assoc String.eqb (class p) v) as [w0|] eqn:Hv.
    + assert (Hgoal : exists w,
                assoc String.eqb (class p)
                  (fst (fst (App.trackWords (Some dict) clock (S i) qs
                     (App.alter (class p)
                        (fun w => App.Word.mk (App.Word.discovered w)
                                    (App.Word.count w + 1)) v) nw))) = Some w).
      { eapply Hkeep. now rewrite assoc_alter, String.eqb_refl, Hv. }
      destruct (dict (class p)); exact Hgoal.
    + destruct (dict (class p)) as [e|]; [|congruence].
      eapply Hkeep. rewrite assoc_str_app, Hv. simpl. now rewrite String.eqb_refl.
  - destruct (assoc String.eqb (class q) v);
      destruct (dict (class q)); now apply IH.
Qed.

End Frame.

(** X19.  From the tracker to the page.  In every state of a page whose
    dictionary is loaded, a turn of the processing loop does one of two
    things.  If [filter] throws, the turn changes nothing at all: tracker,
    labels, vocabulary and counters are as before.  If [filter] returns,
    the turn runs to its end: the detections it confirmed are the current
    ones, each of their classes has an entry of age 1 in [smoothed], and
    each class the dictionary knows is a word of the vocabulary and of its
    stored copy. *)
Theorem confirmed_classes_reach_the_page (dict : string -> option DictEntry)
    (SIZE_RANGES : option (string -> option SizeRange)) (st : App.State)
    (now : Q) (clock vocabClock : nat -> Z) (rawPreds : list RawDetection)
    (vw vh cw ch : Q) :
  let call := filter (Some dict) SIZE_RANGES (App.tracked st) clock rawPreds vw vh in
  let st' := App.detectLoop (Some dict) SIZE_RANGES now clock vocabClock rawPreds
               vw vh cw ch st in
  appReachable (Some dict) SIZE_RANGES st ->
  (fst call = TypeError -> st' = st)
  /\ (forall preds, fst call = Ok preds ->
        App.tracked st' = snd call
        /\ App.currentDetections st' = preds
        /\ forall p, In p preds ->
             (exists s, assoc String.eqb (class p) (App.smoothed st') = Some s
                        /\ App.Smooth.age s = 1%Z)
             /\ (dict (class p) <> None ->
                 (exists w, assoc String.eqb (class p) (App.vocab (App.store st'))
                            = Some w)
                 /\ In (class p)
                      (map fst (App.vocab (App.loadVocab
                                             (App.ll_vocab (App.store st'))))))).
Proof.
  intros call st' Hreach.
  pose proof (app_frame (Some dict) SIZE_RANGES now clock vocabClock rawPreds
                vw vh cw ch st Hreach) as Hreach'.
  fold st' in Hreach'.
  destruct (appReachable_invariant _ _ _ Hreach') as (_ & _ & _ & Hpers').
  destruct (appReachable_invariant _ _ _ Hreach) as (Htr & _ & Hages & _).
  pose proof (failed_call_map (Some dict) SIZE_RANGES (App.tracked st) clock rawPreds
                vw vh (reachable_boxed _ _ _ Htr)) as Hfail.
  pose proof (filter_result_boxed (Some dict) SIZE_RANGES (App.tracked st) clock
                rawPreds vw vh) as Hboxed.
  fold call in Hfail, Hboxed.
  assert (Hst' : st' = App.detectLoop (Some dict) SIZE_RANGES now clock vocabClock
                         rawPreds vw vh cw ch st) by reflexivity.
  clearbody st'. unfold App.detectLoop in Hst'. fold call in Hst'.
  destruct call as [[preds|] cands]; simpl in *.
  - split; [discriminate|]. intros preds' [= <-].
    specialize (Hboxed preds eq_refl).
    (* the smoother *)
    unfold App.renderSmooth in Hst'.
    match type of Hst' with
    | context [App.feedSmooth ?a ?b ?c ?d preds (App.smoothed st)] =>
        pose proof (feedSmooth_total a b c d preds Hboxed (App.smoothed st)) as Hdone;
        pose proof (feedSmooth_agesWithin a b c d preds _ Hages) as Hfed;
        pose proof (fun p => feedSmooth_fresh a b c d preds p (App.smoothed st)) as Hfresh;
        destruct (App.feedSmooth a b c d preds (App.smoothed st)) as [sm1 completed]
    end.
    simpl in Hdone, Hfed. subst completed.
    destruct (draw_total dict cw ch (App.ageSmooth sm1)) as (labels & Hdraw).
    rewrite Hdraw in Hst'. simpl in Hst'.
    (* the vocabulary *)
    unfold App.trackVocab in Hst'.
    pose proof (fun p Hin Hd => trackWords_known dict vocabClock preds p Hin Hd
                                  0%nat (App.vocab (App.store st)) false) as Hknown.
    destruct (trackWords_spec dict vocabClock preds 0%nat (App.vocab (App.store st)) false)
      as (v' & nw' & Hrun & _).
    rewrite Hrun in Hst', Hknown. simpl in Hst', Hknown.
    assert (Hfields : App.tracked st' = cands /\ App.currentDetections st' = preds
                      /\ App.smoothed st' = App.ageSmooth sm1
                      /\ App.vocab (App.store st') = v').
    { destruct (Qgtb _ _) in Hst'; subst st'; simpl; auto. }
    destruct Hfields as (Ht & Hc & Hs & Hv).
    split; [exact Ht|]. split; [exact Hc|].
    intros p Hp. split.
    + destruct (Hfresh p sm1 eq_refl (or_introl Hp)) as (s & Hs1 & Hage).
      rewrite Hs, (assoc_ageSmooth sm1 (class p) (proj1 Hfed)), Hs1, Hage.
      simpl. exists (aged 1 s). split; [reflexivity|]. simpl. lia.
    + intros Hd. destruct (Hknown p Hp Hd) as (w & Hw). rewrite Hv.
      split; [now exists w|].
      change (In (class p)
                (map fst (App.vocab (App.loadVocab (App.ll_vocab (App.store st')))))).
      unfold persisted in Hpers'. rewrite (snapshotOf_keys _ _ Hpers'), Hv.
      change (class p) with (fst (class p, w)). apply in_map.
      now apply assoc_str_In.
  - split; [|discriminate]. intros _. rewrite (Hfail eq_refl) in Hst'.
    subst st'. now destruct st.
Qed.

(** The frame that confirms the "cup", after seven frames on it. *)
Lemma confirmed_classes_reach_the_page_witness :
  let st := Nat.iter 7
              (App.detectLoop everyClass None 0 stillClock stillClock
                 [cupAt 0.5] 640 480 800 600) freshPage in
  let st' := App.detectLoop everyClass None 0 stillClock stillClock
               [cupAt 0.5] 640 480 800 600 st in
  App.currentDetections st' = [cupPred]
  /\ (exists s, assoc String.eqb "cup"%string (App.smoothed st') = Some s
                /\ App.Smooth.age s = 1%Z)
  /\ (exists w, assoc String.eqb "cup"%string (App.vocab (App.store st')) = Some w)
  /\ In "cup"%string
       (map fst (App.vocab (App.loadVocab (App.ll_vocab (App.store st'))))).
Proof.
  intros st st'.
  assert (Hreach : appReachable everyClass None st).
  { subst st. generalize 7%nat. intros n.
    induction n as [|n IH]; [apply app_init|]. cbn [Nat.iter]. now apply app_frame. }
  destruct (confirmed_classes_reach_the_page (fun _ => Some (mkEntry None)) None st
              0 stillClock stillClock [cupAt 0.5] 640 480 800 600 Hreach)
    as [_ Hok].
  destruct (Hok [cupPred]) as (_ & Hc & Hp); [vm_compute; reflexivity|].
  destruct (Hp cupPred (or_introl eq_refl)) as [Hs Hv].
  destruct Hv as [Hw Hin]; [discriminate|].
  split; [exact Hc|]. split; [exact Hs|]. split; [exact Hw|exact Hin].
Defined.

(** * Properties of the pipeline of detector.js *)












(** ** Confirmation in detector.js *)

Section DetectorDelay.

Variable DICT : option (string -> option DictEntry).
Variable SIZE_RANGES : option (string -> option SizeRange).

Lemma detector_pipeline_single (p : RawDetection) (w h : Q) :
  Detector.validateSize DICT SIZE_RANGES p (w * h) = Ok true ->
  Detector.pipeline DICT SIZE_RANGES [p] w h = Ok [p].
Proof.
  intros Hv. unfold Detector.pipeline. simpl. rewrite Hv. simpl.
  now destruct (Detector.confuseMap (raw_class p)).
Qed.

Lemma detector_filter_single_create (clock : nat -> Z) (p : RawDetection) (b : BBox)
    (w h : Q) :
  Detector.validateSize DICT SIZE_RANGES p (w * h) = Ok true ->
  raw_bbox p = Some b ->
  exists k,
    Detector.filter DICT SIZE_RANGES [] clock [p] w h
    = (Ok [], [(k, Detector.newCandidate p)]).
Proof.
  intros Hv Hb. unfold Detector.filter. rewrite (detector_pipeline_single p w h Hv).
  simpl. unfold Detector.trackOne. simpl. unfold Detector.freshKey. rewrite Hb. simpl.
  rewrite key_eqb_refl. simpl. rewrite key_eqb_refl. simpl. eauto.
Qed.

Lemma detector_filter_single_match (k : Key) (c : Candidate.t) (clock : nat -> Z)
    (p : RawDetection) (b : BBox) (w h : Q) :
  Detector.validateSize DICT SIZE_RANGES p (w * h) = Ok true ->
  raw_bbox p = Some b -> 0 < box_w b -> 0 < box_h b ->
  Candidate.cls c = raw_class p -> Candidate.bbox c = Some b ->
  Detector.filter DICT SIZE_RANGES [(k, c)] clock [p] w h =
  (Ok (if Z.geb (Candidate.frames c + 1) Detector.CONFIRM_FRAMES then [p] else []),
   [(k, Detector.bump p c)]).
Proof.
  intros Hv Hb Hw Hh Hcls Hcb. unfold Detector.filter.
  rewrite (detector_pipeline_single p w h Hv).
  assert (Hone : Detector.trackOne (clock 0%nat) (Detector.mkTracking [(k, c)] [] []) p =
                 Ok (Detector.mkTracking [(k, Detector.bump p c)] [k]
                       (if Z.geb (Candidate.frames c + 1) Detector.CONFIRM_FRAMES
                        then [p] else []))).
  { unfold Detector.trackOne. simpl. rewrite Hcls, String.eqb_refl, Hcb, Hb. simpl.
    assert (Hi : Qgtb (iou b b) 0.25 = true).
    { apply Qgtb_true. rewrite (iou_self b Hw Hh). reflexivity. }
    rewrite Hi. simpl. rewrite key_eqb_refl. simpl. rewrite key_eqb_refl. simpl.
    reflexivity. }
  simpl. rewrite Hone. destruct (Z.geb _ _); simpl; now rewrite key_eqb_refl.
Qed.

Lemma rawFeed_S (clocks : nat -> nat -> Z) (n call : nat) (cands : Candidates)
    (rawPreds : list RawDetection) (w h : Q) :
  rawFeed DICT SIZE_RANGES clocks (S n) call cands rawPreds w h =
  (fst (Detector.filter DICT SIZE_RANGES cands (clocks call) rawPreds w h)
     :: fst (rawFeed DICT SIZE_RANGES clocks n (S call)
               (snd (Detector.filter DICT SIZE_RANGES cands (clocks call) rawPreds w h))
               rawPreds w h),
   snd (rawFeed DICT SIZE_RANGES clocks n (S call)
          (snd (Detector.filter DICT SIZE_RANGES cands (clocks call) rawPreds w h))
          rawPreds w h)).
Proof. reflexivity. Qed.

Lemma detector_feed_steady (clocks : nat -> nat -> Z) (k : Key) (p : RawDetection)
    (b : BBox) (w h : Q) :
  Detector.validateSize DICT SIZE_RANGES p (w * h) = Ok true ->
  raw_bbox p = Some b -> 0 < box_w b -> 0 < box_h b ->
  forall n call c,
    Candidate.cls c = raw_class p -> Candidate.bbox c = Some b ->
    fst (rawFeed DICT SIZE_RANGES clocks n call [(k, c)] [p] w h) =
    map (fun j => Ok (if Z.geb (Candidate.frames c + 1 + Z.of_nat j)
                           Detector.CONFIRM_FRAMES
                      then [p] else []))
        (seq 0 n).
Proof.
  intros Hv Hb Hw Hh.
  induction n as [|n IH]; intros call c Hcls Hcb; [reflexivity|].
  rewrite rawFeed_S.
  rewrite (detector_filter_single_match k c (clocks call) p b w h) by assumption.
  cbn [fst snd]. rewrite (IH (S call) (Detector.bump p c)) by (simpl; assumption).
  cbn [seq map]. rewrite Z.add_0_r. f_equal.
  rewrite <- seq_shift, map_map. apply map_ext. intros j.
  cbn [Detector.bump Candidate.frames].
  replace (Candidate.frames c + 1 + 1 + Z.of_nat j)%Z
    with (Candidate.frames c + 1 + Z.of_nat (S j))%Z by lia.
  reflexivity.
Qed.

End DetectorDelay.

(** X21.  Confirmation in [detector.js].  Calls of its [filter] on one
    and the same detection, with a box of positive width and height that
    passes the size validation, from the empty candidate map: the first four
    calls return nothing, and every call from the fifth on returns the
    detection, however long the run. *)
Theorem detector_confirmation_delay (DICT : option (string -> option DictEntry))
    (SIZE_RANGES : option (string -> option SizeRange))
    (clocks : nat -> nat -> Z) (p : RawDetection) (b : BBox)
    (videoWidth videoHeight : Q) (n : nat) :
  raw_bbox p = Some b -> 0 < box_w b -> 0 < box_h b ->
  Detector.validateSize DICT SIZE_RANGES p (videoWidth * videoHeight) = Ok true ->
  fst (rawFeed DICT SIZE_RANGES clocks n 0 [] [p] videoWidth videoHeight) =
  map (fun j => Ok (if Nat.leb 4 j then [p] else [])) (seq 0 n).
Proof.
  intros Hb Hw Hh Hv. destruct n as [|n]; [reflexivity|].
  rewrite rawFeed_S.
  destruct (detector_filter_single_create DICT SIZE_RANGES (clocks 0%nat) p b
              videoWidth videoHeight Hv Hb) as (k & ->).
  cbn [fst snd].
  rewrite (detector_feed_steady DICT SIZE_RANGES clocks k p b videoWidth videoHeight
             Hv Hb Hw Hh n 1%nat (Detector.newCandidate p) eq_refl Hb).
  cbn [seq map]. f_equal.
  rewrite <- seq_shift, map_map. apply map_ext. intros j.
  cbn [Detector.newCandidate Candidate.frames]. unfold Detector.CONFIRM_FRAMES.
  destruct (Z.geb_spec (1 + 1 + Z.of_nat j) 5) as [Hge|Hlt];
    destruct (Nat.leb_spec 4 (S j)) as [Hle|Hgt]; try reflexivity; lia.
Qed.

(** Seven calls on the "cup". *)
Lemma detector_confirmation_delay_witness :
  fst (rawFeed None None tickingClocks 7 0 [] [cupAt 0.5] 640 480) =
  [Ok []; Ok []; Ok []; Ok []; Ok [cupAt 0.5]; Ok [cupAt 0.5]; Ok [cupAt 0.5]].
Proof.
  refine (detector_confirmation_delay None None tickingClocks (cupAt 0.5) region
            640 480 7 eq_refl _ _ eq_refl).
  - reflexivity.
  - reflexivity.
Defined.

(** * Scores and positions *)

(** ** Scores and the floor of step 4 *)

Section ScoreFloor.

Variable DICT : option (string -> option DictEntry).
Variable SIZE_RANGES : option (string -> option SizeRange).

(** A resolved detection has an adjusted score of at least 0.45, and a raw
    score of at least the adjusted one. *)
Lemma pipeline_scores (rawPreds : list RawDetection) (w h : Q) (resolved : list Pred) :
  pipeline DICT SIZE_RANGES rawPreds w h = Ok resolved ->
  Forall (fun q => 0.45 <= score q /\ score q <= _origScore q) resolved.
Proof.
  intros H. apply Forall_forall. intros q Hq.
  destruct (pipeline_provenance DICT SIZE_RANGES _ _ _ _ _ H Hq) as (d & _ & Hd).
  assert (Hfloor : 0.45 <= score q).
  { rewrite pipeline_admitted in H. bind_ok H. bind_ok H.
    destruct (admitted_shape _ _ _ _ _ _ E) as (_ & _ & _ & _ & _ & Hfl).
    destruct (nms_shape _ _ _ E0) as (added & -> & Hadded). simpl in *.
    destruct (confusion_In _ _ _ _ H Hq) as [[]|Hk].
    exact (proj1 (Forall_forall _ _) Hfl q (subseq_In _ _ _ Hadded Hk)). }
  split; [exact Hfloor|].
  unfold scoreOne in Hd. bind_ok Hd. injection Hd as <-. simpl in *.
  pose proof (aspectScore_min _ _ _ E) as Hlo.
  pose proof (aspectScore_max _ _ _ E) as Hhi.
  nra.
Qed.

Lemma trackOne_scores (now : Z) (t t' : Tracking) (p : Pred) :
  0.45 <= score p -> score p <= _origScore p ->
  trackOne now t p = Ok t' ->
  scoresAboveFloor (candidates t) /\ Forall (fun r => 0.45 <= score r) (confirmed t) ->
  scoresAboveFloor (candidates t') /\ Forall (fun r => 0.45 <= score r) (confirmed t').
Proof.
  intros Hp Ho H [Hc Hr]. apply trackOne_effect in H.
  assert (Hstore : forall k c, assoc key_eqb k (candidates t) = Some c ->
                               0.45 <= Candidate.score c).
  { intros k c Hk. apply assoc_key_In in Hk.
    exact (proj1 (Forall_forall _ _) Hc _ Hk). }
  unfold scoresAboveFloor in *.
  destruct H as [k Hk -> _ ->|k c Hk -> _ ->|k kNew c Hk Hge -> _ ->].
  - split; [|assumption]. apply Forall_app. split; [assumption|].
    repeat constructor. exact Hp.
  - pose proof (Hstore k c Hk) as Hs. split.
    + apply update_Forall; [|assumption]. intros c0 _. simpl. lra.
    + destruct (Z.geb _ _); [|assumption].
      apply Forall_app. split; [assumption|]. repeat constructor. exact Hp.
  - pose proof (Hstore k c Hk) as Hs. split.
    + apply update_Forall; [|assumption]. intros c0 _. simpl. lra.
    + apply Forall_app. split; [assumption|]. repeat constructor. simpl. lra.
Qed.

Lemma trackLoop_scores (clock : nat -> Z) (resolved : list Pred) :
  Forall (fun q => 0.45 <= score q /\ score q <= _origScore q) resolved ->
  forall i t t' completed,
    trackLoop clock i resolved t = (t', completed) ->
    scoresAboveFloor (candidates t) /\ Forall (fun r => 0.45 <= score r) (confirmed t) ->
    scoresAboveFloor (candidates t') /\ Forall (fun r => 0.45 <= score r) (confirmed t').
Proof.
  induction 1 as [|p ps [Hp Ho] _ IH]; simpl; intros i t t' completed H Ht.
  - now injection H as <- <-.
  - destruct (trackOne (clock i) t p) as [t1|] eqn:E.
    + apply (IH _ _ _ _ H). exact (trackOne_scores _ _ _ _ Hp Ho E Ht).
    + now injection H as <- <-.
Qed.

Lemma decay_scores (seen : list Key) (cands : Candidates) :
  scoresAboveFloor cands -> scoresAboveFloor (decay seen cands).
Proof.
  unfold scoresAboveFloor. induction 1 as [|[k c] l Hc _ IH]; simpl; [constructor|].
  destruct (has k seen); [now constructor|].
  destruct (Z.leb _ _); [assumption|]. now constructor.
Qed.

Lemma filter_scores (cands : Candidates) (clock : nat -> Z)
    (rawPreds : list RawDetection) (w h : Q) :
  scoresAboveFloor cands ->
  scoresAboveFloor (snd (filter DICT SIZE_RANGES cands clock rawPreds w h))
  /\ Forall (fun r => 0.45 <= score r)
       (returned (fst (filter DICT SIZE_RANGES cands clock rawPreds w h))).
Proof.
  intros Hc. unfold filter.
  destruct (pipeline DICT SIZE_RANGES rawPreds w h) as [resolved|] eqn:Hpipe;
    [|split; [assumption|constructor]].
  destruct (trackLoop clock 0 resolved (mkTracking cands [] [])) as [t completed] eqn:E.
  destruct (trackLoop_scores clock resolved (pipeline_scores _ _ _ _ Hpipe)
              0%nat _ _ _ E (conj Hc (Forall_nil _))) as [Hc' Hr'].
  destruct completed; simpl.
  - split; [now apply decay_scores|assumption].
  - split; [assumption|constructor].
Qed.

End ScoreFloor.

(** X22.  The score floor holds behind step 4 as well.  In every state
    the tracker can be in, each candidate has a score of at least 0.45, and
    every detection a call confirms has a score of at least 0.45: the
    blended score of a candidate is a mean of scores that passed the floor,
    and the score a locked class is confirmed with is such a blend. *)
Theorem scores_stay_above_floor (DICT : option (string -> option DictEntry))
    (SIZE_RANGES : option (string -> option SizeRange))
    (cands : Candidates) (clock : nat -> Z) (rawPreds : list RawDetection)
    (videoWidth videoHeight : Q) :
  let call := filter DICT SIZE_RANGES cands clock rawPreds videoWidth videoHeight in
  reachable DICT SIZE_RANGES cands ->
  Forall (fun kc => 0.45 <= Candidate.score (snd kc)) cands
  /\ Forall (fun kc => 0.45 <= Candidate.score (snd kc)) (snd call)
  /\ forall result, fst call = Ok result -> Forall (fun r => 0.45 <= score r) result.
Proof.
  intros call Hreach. subst call.
  assert (Hc : scoresAboveFloor cands).
  { induction Hreach as [|cands0 clock0 raw0 w0 h0 _ IH|cands0 _ _].
    - constructor.
    - exact (proj1 (filter_scores DICT SIZE_RANGES cands0 clock0 raw0 w0 h0 IH)).
    - rewrite reset_empty. constructor. }
  destruct (filter_scores DICT SIZE_RANGES cands clock rawPreds videoWidth videoHeight Hc)
    as [Hc' Hr].
  split; [exact Hc|]. split; [exact Hc'|].
  intros result Hres. rewrite Hres in Hr. exact Hr.
Qed.

(** The call that confirms the "bowl" of fit 0.6 as the locked "cup". *)
Lemma scores_stay_above_floor_witness :
  Forall (fun r => 0.45 <= score r)
    (returned
       (fst (filter None None
               (snd (feed None None (fun _ => stillClock) 12 0 [] [cupAt 0.5] 640 480))
               stillClock [bowlAt 0.6] 640 480))).
Proof.
  refine (proj2 (proj2 (scores_stay_above_floor None None
            (snd (feed None None (fun _ => stillClock) 12 0 [] [cupAt 0.5] 640 480))
            stillClock [bowlAt 0.6] 640 480 _)) _ _).
  - apply reachable_feed, reach_init.
  - vm_compute. reflexivity.
Defined.

(** ** Moving the scene *)

Lemma aspectScore_shift (dx dy : Q) (cls : string) (bb : option BBox) :
  aspectScore cls (option_map (shiftBox dx dy) bb) = aspectScore cls bb.
Proof. unfold aspectScore. now destruct bb. Qed.

Lemma scoreOne_shift (dx dy : Q) (d : RawDetection) :
  scoreOne (shiftRaw dx dy d) = mapRes (shiftPred dx dy) (scoreOne d).
Proof.
  unfold scoreOne, shiftRaw. cbn [raw_class raw_bbox raw_score].
  rewrite aspectScore_shift. now destruct (aspectScore _ _).
Qed.

Lemma mapM_shift (dx dy : Q) (l : list RawDetection) :
  mapM scoreOne (map (shiftRaw dx dy) l) =
  mapRes (map (shiftPred dx dy)) (mapM scoreOne l).
Proof.
  induction l as [|d l IH]; simpl; [reflexivity|].
  rewrite scoreOne_shift, IH.
  destruct (scoreOne d); simpl; [|reflexivity]. now destruct (mapM scoreOne l).
Qed.

Lemma insertDesc_shift (dx dy : Q) (p : Pred) (l : list Pred) :
  insertDesc (shiftPred dx dy p) (map (shiftPred dx dy) l) =
  map (shiftPred dx dy) (insertDesc p l).
Proof.
  induction l as [|q l IH]; simpl; [reflexivity|].
  destruct (Qltb (score p) (score q)); simpl; [now rewrite IH|reflexivity].
Qed.

Lemma sortDesc_shift (dx dy : Q) (l : list Pred) :
  sortDesc (map (shiftPred dx dy) l) = map (shiftPred dx dy) (sortDesc l).
Proof.
  induction l as [|p l IH]; simpl; [reflexivity|]. now rewrite IH, insertDesc_shift.
Qed.

Section Shift.

Variable DICT : option (string -> option DictEntry).
Variable SIZE_RANGES : option (string -> option SizeRange).

Lemma validateSize_shift (dx dy : Q) (p : Pred) (area : Q) :
  validateSize DICT SIZE_RANGES (shiftPred dx dy p) area =
  validateSize DICT SIZE_RANGES p area.
Proof.
  unfold validateSize, shiftPred. cbn [class bbox].
  destruct DICT as [dict|]; [|reflexivity].
  destruct SIZE_RANGES as [ranges|]; [|reflexivity].
  destruct (dict (class p)) as [entry|]; [|reflexivity].
  destruct (size entry) as [sz|]; [|reflexivity].
  destruct (String.eqb sz ""); [reflexivity|]. now destruct (bbox p).
Qed.

Lemma filterM_shift (dx dy : Q) (area : Q) (l : list Pred) :
  filterM (fun p => validateSize DICT SIZE_RANGES p area) (map (shiftPred dx dy) l) =
  mapRes (map (shiftPred dx dy))
    (filterM (fun p => validateSize DICT SIZE_RANGES p area) l).
Proof.
  induction l as [|p l IH]; simpl; [reflexivity|].
  rewrite validateSize_shift, IH.
  destruct (validateSize DICT SIZE_RANGES p area) as [keep|]; simpl; [|reflexivity].
  destruct (filterM _ l); simpl; [|reflexivity]. now destruct keep.
Qed.

Lemma scoreFloor_shift (dx dy : Q) (l : list Pred) :
  List.filter scoreFloor (map (shiftPred dx dy) l) =
  map (shiftPred dx dy) (List.filter scoreFloor l).
Proof.
  induction l as [|p l IH]; [reflexivity|]. cbn [List.filter map].
  change (scoreFloor (shiftPred dx dy p)) with (scoreFloor p).
  destruct (scoreFloor p); cbn [map]; now rewrite IH.
Qed.

End Shift.

(** X23.  Steps 1 to 4 do not read the position of a box.  Moving the
    boxes of the input, all by the same vector, moves the boxes of the
    detections that pass the size validation and the score floor by that
    vector and changes nothing else: the same detections are admitted, in
    the same order and with the same scores, and steps 1 to 4 throw on the
    moved input exactly when they throw on the original. *)
Theorem admission_ignores_position (DICT : option (string -> option DictEntry))
    (SIZE_RANGES : option (string -> option SizeRange))
    (dx dy : Q) (rawPreds : list RawDetection) (videoWidth videoHeight : Q) :
  admitted DICT SIZE_RANGES (map (shiftRaw dx dy) rawPreds) videoWidth videoHeight =
  match admitted DICT SIZE_RANGES rawPreds videoWidth videoHeight with
  | Ok preds => Ok (map (shiftPred dx dy) preds)
  | TypeError => TypeError
  end.
Proof.
  unfold admitted. rewrite mapM_shift.
  destruct (mapM scoreOne rawPreds) as [scored|]; simpl; [|reflexivity].
  rewrite sortDesc_shift, filterM_shift.
  destruct (filterM _ (sortDesc scored)) as [sized|]; simpl; [|reflexivity].
  now rewrite scoreFloor_shift.
Qed.

(** * Input items and the steps that read their box *)

Lemma mapM_fails {A B : Type} (f : A -> Res B) (l : list A) (a : A) :
  In a l -> f a = TypeError -> mapM f l = TypeError.
Proof.
  induction l as [|x l IH]; simpl; [tauto|].
  intros [->|Hin] Hf; [now rewrite Hf|].
  rewrite (IH Hin Hf). now destruct (f x).
Qed.

Lemma mapM_image {A B : Type} (f : A -> Res B) (l : list A) (l' : list B)
    (a : A) (b : B) :
  mapM f l = Ok l' -> In a l -> f a = Ok b -> In b l'.
Proof.
  revert l'. induction l as [|x l IH]; simpl; intros l' H Hin Hf; [tauto|].
  bind_ok H. bind_ok H. injection H as <-.
  destruct Hin as [->|Hin].
  - left. congruence.
  - right. now apply (IH _ eq_refl).
Qed.

Lemma filterM_fails {A : Type} (f : A -> Res bool) (l : list A) (a : A) :
  In a l -> f a = TypeError -> filterM f l = TypeError.
Proof.
  induction l as [|x l IH]; simpl; [tauto|].
  intros [->|Hin] Hf; [now rewrite Hf|].
  rewrite (IH Hin Hf). now destruct (f x).
Qed.

Lemma filterM_keeps {A : Type} (f : A -> Res bool) (l l' : list A) (a : A) :
  filterM f l = Ok l' -> In a l -> f a = Ok true -> In a l'.
Proof.
  revert l'. induction l as [|x l IH]; simpl; intros l' H Hin Hf; [tauto|].
  bind_ok H. bind_ok H. injection H as <-.
  destruct Hin as [->|Hin].
  - rewrite Hf in E. injection E as <-. now left.
  - specialize (IH _ eq_refl Hin Hf). destruct a0; [now right|assumption].
Qed.

Lemma filterM_cases {A : Type} (f : A -> Res bool) (l : list A) :
  filterM f l =
  if forallb (returns f) l then Ok (List.filter (verdict f) l) else TypeError.
Proof.
  induction l as [|a l IH]; simpl; [reflexivity|].
  unfold returns at 1, verdict at 1. rewrite IH.
  destruct (f a) as [keep|]; simpl; [|reflexivity].
  now destruct (forallb (returns f) l).
Qed.

Lemma mapM_cases {A B : Type} (f : A -> Res B) (l1 l2 : list A) (a : A) (b : B) :
  f a = Ok b ->
  mapM f (l1 ++ a :: l2) = TypeError /\ mapM f (l1 ++ l2) = TypeError
  \/ exists s1 s2, mapM f (l1 ++ a :: l2) = Ok (s1 ++ b :: s2)
                   /\ mapM f (l1 ++ l2) = Ok (s1 ++ s2).
Proof.
  intros Hf. rewrite !mapM_app. simpl. rewrite Hf. simpl.
  destruct (mapM f l1) as [s1|]; simpl; [|now left].
  destruct (mapM f l2) as [s2|]; simpl; [|now left].
  right. now exists s1, s2.
Qed.

Lemma forallb_sortDesc (g : Pred -> bool) (l : list Pred) :
  forallb g (sortDesc l) = forallb g l.
Proof.
  apply eq_true_iff_eq. rewrite !forallb_forall.
  split; intros H x Hx; apply H; now apply sortDesc_In.
Qed.

Section Boxless.

Variable DICT : option (string -> option DictEntry).
Variable SIZE_RANGES : option (string -> option SizeRange).

(** An item that steps 1 and 3 return on and that step 3 or step 4 drops
    leaves no trace in the pipeline. *)
Lemma pipeline_drops (l1 l2 : list RawDetection) (d : RawDetection)
    (q : Pred) (keep : bool) (w h : Q) :
  scoreOne d = Ok q ->
  validateSize DICT SIZE_RANGES q (w * h) = Ok keep ->
  keep = false \/ score q < 0.45 ->
  pipeline DICT SIZE_RANGES (l1 ++ d :: l2) w h =
  pipeline DICT SIZE_RANGES (l1 ++ l2) w h.
Proof.
  intros Hd Hv Hdrop. unfold pipeline.
  destruct (mapM_cases scoreOne l1 l2 d q Hd) as [[-> ->]|(s1 & s2 & -> & ->)];
    [reflexivity|].
  simpl. set (vs := fun p => validateSize DICT SIZE_RANGES p (w * h)).
  rewrite !filterM_cases, !forallb_sortDesc, !forallb_app. simpl.
  assert (Hret : returns vs q = true) by (unfold returns, vs; now rewrite Hv).
  rewrite Hret. simpl.
  destruct (forallb (returns vs) s1 && forallb (returns vs) s2); [|reflexivity].
  simpl. rewrite !filter_sortDesc, !filter_app. simpl.
  assert (Hq : verdict vs q && scoreFloor q = false).
  { unfold verdict, vs. rewrite Hv. destruct Hdrop as [->|Hlow]; [reflexivity|].
    unfold scoreFloor. rewrite (proj2 (Qgeb_false _ _) Hlow). apply andb_false_r. }
  destruct (verdict vs q); simpl in *; [rewrite Hq|]; reflexivity.
Qed.

(** Step 5 reads the box of every item but a single one. *)
Lemma nms_reads (preds : list Pred) :
  forall k ks result, nms preds (k :: ks) = Ok result -> Forall boxed preds.
Proof.
  induction preds as [|p ps IH]; intros k ks result H; [constructor|].
  cbn [nms] in H. bind_ok H.
  destruct (nmsDominated_boxed _ _ _ _ E) as [Hp _].
  constructor; [exact Hp|].
  destruct a; [exact (IH k ks result H)|exact (IH k (ks ++ [p]) result H)].
Qed.

Lemma nms_boxless (preds kept : list Pred) (q : Pred) :
  nms preds [] = Ok kept -> In q preds -> bbox q = None -> preds = [q].
Proof.
  intros H Hin Hq.
  assert (Hno : ~ boxed q) by (intros (b & Hb); congruence).
  destruct preds as [|p [|p2 ps]]; [destruct Hin| |].
  - destruct Hin as [->|[]]. reflexivity.
  - exfalso. apply Hno.
    change (nms (p :: p2 :: ps) []) with (nms (p2 :: ps) [p]) in H.
    pose proof (nms_reads _ _ _ _ H) as Hall.
    assert (Hp : boxed p).
    { cbn [nms] in H. bind_ok H. now destruct (nmsDominated_boxed _ _ _ _ E). }
    exact (proj1 (Forall_forall _ _) (Forall_cons _ Hp Hall) q Hin).
Qed.

(** A detection without a box that reaches step 5 makes the call throw. *)
Lemma filter_boxless_throws (cands : Candidates) (clock : nat -> Z)
    (rawPreds : list RawDetection) (d : RawDetection) (w h : Q) :
  In d rawPreds -> raw_bbox d = None ->
  scoreOne d = TypeError
  \/ (exists q, scoreOne d = Ok q
        /\ (validateSize DICT SIZE_RANGES q (w * h) = TypeError
            \/ (validateSize DICT SIZE_RANGES q (w * h) = Ok true
                /\ 0.45 <= score q))) ->
  filter DICT SIZE_RANGES cands clock rawPreds w h = (TypeError, cands).
Proof.
  intros Hin Hbox Hcase. unfold filter.
  destruct (pipeline DICT SIZE_RANGES rawPreds w h) as [resolved|] eqn:Hpipe;
    [|reflexivity].
  assert (Hres : exists q, resolved = [q] /\ bbox q = None).
  { revert Hpipe. unfold pipeline. intros H.
    destruct Hcase as [Hs|(q & Hs & Hv)];
      [now rewrite (mapM_fails scoreOne rawPreds d Hin Hs) in H|].
    bind_ok H. rename a into scored.
    assert (Hq : In q (sortDesc scored)).
    { apply sortDesc_In. exact (mapM_image scoreOne rawPreds scored d q E Hin Hs). }
    destruct Hv as [Hv|[Hv Hfloor]];
      [now rewrite (filterM_fails _ _ q Hq Hv) in H|].
    bind_ok H. rename a into sized. bind_ok H. rename a into kept.
    assert (Hadm : In q (List.filter scoreFloor sized)).
    { apply filter_In. split.
      - exact (filterM_keeps _ _ _ q E0 Hq Hv).
      - now apply Qgeb_true. }
    assert (Hnone : bbox q = None).
    { rewrite (proj1 (scoreOne_bbox d q Hs)). exact Hbox. }
    rewrite (nms_boxless _ _ q E1 Hadm Hnone) in E1. exists q.
    injection E1 as <-. split; [|exact Hnone].
    simpl in H. destruct (confuseMap (class q)); simpl in H; now injection H as <-. }
  destruct Hres as (q & -> & Hnone). cbn [trackLoop].
  destruct (trackOne (clock 0%nat) (mkTracking cands [] []) q) as [t'|] eqn:Et;
    [|reflexivity].
  apply trackOne_boxed in Et as (b & Hb). congruence.
Qed.

End Boxless.

Lemma scoreOne_boxless (d : RawDetection) :
  raw_bbox d = None ->
  scoreOne d =
  if hinted (raw_class d) then TypeError
  else Ok (mkPred (raw_class d) None (raw_score d * 1.0) (raw_score d) 1.0).
Proof.
  intros Hbox. unfold scoreOne, aspectScore, hinted. rewrite Hbox.
  now destruct (assoc String.eqb (raw_class d) ASPECT_HINTS).
Qed.

Lemma validateSize_boxless (DICT : option (string -> option DictEntry))
    (SIZE_RANGES : option (string -> option SizeRange)) (q : Pred) (area : Q) :
  bbox q = None ->
  validateSize DICT SIZE_RANGES q area =
  if sizeChecked DICT SIZE_RANGES (class q) then TypeError else Ok true.
Proof.
  intros Hbox. unfold validateSize, sizeChecked. rewrite Hbox.
  destruct DICT as [dict|]; [|reflexivity].
  destruct SIZE_RANGES as [ranges|]; [|reflexivity].
  destruct (dict (class q)) as [entry|]; [|reflexivity].
  destruct (size entry) as [sz|]; [|reflexivity].
  now destruct (String.eqb sz "").
Qed.

Section Fate.

Variable DICT : option (string -> option DictEntry).
Variable SIZE_RANGES : option (string -> option SizeRange).

Lemma filter_drops (cands : Candidates) (clock : nat -> Z)
    (l1 l2 : list RawDetection) (d : RawDetection) (q : Pred) (keep : bool) (w h : Q) :
  scoreOne d = Ok q ->
  validateSize DICT SIZE_RANGES q (w * h) = Ok keep ->
  keep = false \/ score q < 0.45 ->
  filter DICT SIZE_RANGES cands clock (l1 ++ d :: l2) w h =
  filter DICT SIZE_RANGES cands clock (l1 ++ l2) w h.
Proof.
  intros Hd Hv Hdrop. unfold filter.
  now rewrite (pipeline_drops DICT SIZE_RANGES l1 l2 d q keep w h Hd Hv Hdrop).
Qed.

End Fate.

(** C2, as the code has it.  [filter] validates nothing; what happens to an
    item follows from the steps that read its box.
    - On a candidate map the tracker can be in and a list of raw detections
      that all carry a box, a call of [filter] returns.
    - An item with a box whose adjusted score is below 0.45 is dropped on
      its own, whatever the other items are: the call does what a call
      without it does, with the same return value or exception and the
      same map afterwards.
    - An item without a box is dropped on its own in the same sense when
      nothing reads its box: its class has no aspect hint, the dictionary
      gives the class no size, and its score is below 0.45.
    - In every other case an item without a box makes the call throw, and
      the call leaves the candidate map as it was. *)
Theorem input_item_fate (DICT : option (string -> option DictEntry))
    (SIZE_RANGES : option (string -> option SizeRange)) :
  (forall cands clock rawPreds videoWidth videoHeight,
      reachable DICT SIZE_RANGES cands ->
      Forall rawBoxed rawPreds ->
      exists result,
        fst (filter DICT SIZE_RANGES cands clock rawPreds videoWidth videoHeight)
        = Ok result)
  /\ (forall cands clock before d after q videoWidth videoHeight,
        rawBoxed d ->
        scoreOne d = Ok q ->
        score q < 0.45 ->
        filter DICT SIZE_RANGES cands clock (before ++ d :: after) videoWidth videoHeight
        = filter DICT SIZE_RANGES cands clock (before ++ after) videoWidth videoHeight)
  /\ (forall cands clock before d after videoWidth videoHeight,
        raw_bbox d = None ->
        readsBox DICT SIZE_RANGES (raw_class d) = false ->
        raw_score d < 0.45 ->
        filter DICT SIZE_RANGES cands clock (before ++ d :: after) videoWidth videoHeight
        = filter DICT SIZE_RANGES cands clock (before ++ after) videoWidth videoHeight)
  /\ (forall cands clock rawPreds d videoWidth videoHeight,
        In d rawPreds ->
        raw_bbox d = None ->
        readsBox DICT SIZE_RANGES (raw_class d) = true \/ 0.45 <= raw_score d ->
        filter DICT SIZE_RANGES cands clock rawPreds videoWidth videoHeight
        = (TypeError, cands)).
Proof.
  split; [|split; [|split]].
  - intros cands clock rawPreds videoWidth videoHeight Hreach Hraw.
    apply filter_total; [assumption|]. now apply (reachable_boxed DICT SIZE_RANGES).
  - intros cands clock before d after q w h Hd Hq Hlow.
    assert (Hb : boxed q).
    { destruct (scoreOne_total d Hd) as (q' & Hq' & Hbq). congruence. }
    destruct (validateSize_total DICT SIZE_RANGES q (w * h) Hb) as (keep & Hv).
    apply (filter_drops DICT SIZE_RANGES cands clock before after d q keep w h Hq Hv).
    now right.
  - intros cands clock before d after w h Hbox Hread Hlow.
    apply orb_false_iff in Hread as [Hhint Hsize].
    pose proof (scoreOne_boxless d Hbox) as Hq. rewrite Hhint in Hq.
    apply (filter_drops DICT SIZE_RANGES cands clock before after d _ true w h Hq).
    + rewrite validateSize_boxless by reflexivity. cbn [class]. now rewrite Hsize.
    + right. cbn [score]. lra.
  - intros cands clock rawPreds d w h Hin Hbox Hcase.
    apply (filter_boxless_throws DICT SIZE_RANGES cands clock rawPreds d w h Hin Hbox).
    pose proof (scoreOne_boxless d Hbox) as Hq.
    destruct (hinted (raw_class d)) eqn:Hhint; [now left|].
    right. eexists. split; [exact Hq|].
    rewrite validateSize_boxless by reflexivity. cbn [class score].
    destruct (sizeChecked DICT SIZE_RANGES (raw_class d)) eqn:Hsize; [now left|].
    right. split; [reflexivity|].
    destruct Hcase as [Hread|Hs]; [|lra].
    unfold readsBox in Hread. rewrite Hhint, Hsize in Hread. discriminate Hread.
Qed.

(** A call on the shelf returns; a "bowl" of score 0.3 next to the "cup" of
    the scene changes nothing, and neither does a "person" of score 0.3
    without a box; a "person" of score 0.9 without a box makes the call
    throw. *)
Lemma input_item_fate_witness :
  (exists result, fst (filter None None [] stillClock shelf 640 480) = Ok result)
  /\ filter None None [] stillClock ([cupAt 0.5] ++ bowlAt 0.3 :: []) 640 480
     = filter None None [] stillClock ([cupAt 0.5] ++ []) 640 480
  /\ filter None None [] stillClock ([cupAt 0.5] ++ mkRaw "person" None 0.3 :: []) 640 480
     = filter None None [] stillClock ([cupAt 0.5] ++ []) 640 480
  /\ filter None None [] stillClock [cupAt 0.5; mkRaw "person" None 0.9] 640 480
     = (TypeError, []).
Proof.
  destruct (input_item_fate None None) as (Hreturns & Hlow & Hunread & Hthrows).
  split; [|split; [|split]].
  - apply Hreturns.
    + constructor.
    + repeat constructor; eexists; reflexivity.
  - apply Hlow with (q := bowlPred 0.3).
    + eexists; reflexivity.
    + reflexivity.
    + reflexivity.
  - apply Hunread; reflexivity.
  - apply Hthrows with (d := mkRaw "person" None 0.9).
    + simpl. tauto.
    + reflexivity.
    + right. simpl. lra.
Defined.

(** C2 as stated fails on a missing box.  A "cup" without [bbox] makes
    step 1 read an index of [undefined]: the call throws and leaves the map
    as it was, whatever else the list holds and whatever the dictionary.  On
    the eighth call of a run on the "cup" of the scene, which would confirm
    it, the same item makes the call throw.  And a box of width 0 is not
    dropped as such: with no dictionary loaded the pipeline resolves a "cup"
    of raw score 1 on a box of width 0, at adjusted score 0.5. *)
Lemma missing_bbox_counterexample :
  (forall DICT SIZE_RANGES cands clock rest videoWidth videoHeight,
      filter DICT SIZE_RANGES cands clock (mkRaw "cup" None 0.9 :: rest)
        videoWidth videoHeight = (TypeError, cands))
  /\ (let cands :=
        snd (feed None None (fun _ => stillClock) 7 0 [] [cupAt 0.5] 640 480) in
      map class (returned (fst (filter None None cands stillClock [cupAt 0.5] 640 480)))
      = ["cup"%string]
      /\ fst (filter None None cands stillClock
                [mkRaw "cup" None 0.9; cupAt 0.5] 640 480) = TypeError)
  /\ pipeline None None [mkRaw "cup" (Some (mkBBox 100 100 0 40)) 1] 640 480
     = Ok [mkPred "cup" (Some (mkBBox 100 100 0 40)) (1 * 0.5) 1 0.5].
Proof.
  split; [reflexivity|]. split; [|reflexivity].
  split; vm_compute; reflexivity.
Qed.

(** * Streaks and the number of detections *)

Lemma streaksAtMost_mono (n m : Z) (cands : Candidates) :
  (n <= m)%Z -> streaksAtMost n cands -> streaksAtMost m cands.
Proof.
  intros Hnm. unfold streaksAtMost. apply Forall_impl. intros kc H. lia.
Qed.

Lemma stepEffect_streaks (p : Pred) (t t' : Tracking) (n : Z) :
  stepEffect p t t' -> (0 <= n)%Z ->
  streaksAtMost n (candidates t) ->
  streaksAtMost (n + 1) (candidates t')
  /\ (confirmed t' = confirmed t \/ (CONFIRM_FRAMES <= n + 1)%Z).
Proof.
  intros [k Hk -> _ Hc|k c Hk -> _ Hc|k kNew c Hk Hge -> _ Hc] Hn H.
  - split; [|now left]. apply Forall_app. split.
    + apply (streaksAtMost_mono n); [lia|assumption].
    + repeat constructor. simpl. lia.
  - assert (Hfc : (Candidate.frames c <= n)%Z).
    { apply assoc_key_In in Hk. exact (proj1 (Forall_forall _ _) H _ Hk). }
    split.
    + apply update_Forall; [|apply (streaksAtMost_mono n); [lia|assumption]].
      intros c0 _. simpl. lia.
    + rewrite Hc. destruct (Z.geb_spec (Candidate.frames c + 1) CONFIRM_FRAMES);
        [right; lia|now left].
  - assert (Hfc : (Candidate.frames c <= n)%Z).
    { apply assoc_key_In in Hk. exact (proj1 (Forall_forall _ _) H _ Hk). }
    split.
    + apply update_Forall; [|apply (streaksAtMost_mono n); [lia|assumption]].
      intros c0 _. simpl. lia.
    + right. unfold CONFIRM_FRAMES, CLASS_LOCK_FRAMES in *. lia.
Qed.

Lemma trackLoop_streaks (clock : nat -> Z) (resolved : list Pred) :
  forall i t n,
    (0 <= n)%Z ->
    streaksAtMost n (candidates t) ->
    confirmed t = [] \/ (CONFIRM_FRAMES <= n)%Z ->
    let t' := fst (trackLoop clock i resolved t) in
    streaksAtMost (n + Z.of_nat (length resolved)) (candidates t')
    /\ (confirmed t' = [] \/ (CONFIRM_FRAMES <= n + Z.of_nat (length resolved))%Z).
Proof.
  induction resolved as [|p ps IH]; intros i t n Hn Hs Hc; cbn [trackLoop length].
  - simpl. split; [apply (streaksAtMost_mono n); [lia|assumption]|].
    destruct Hc; [now left|right; lia].
  - destruct (trackOne (clock i) t p) as [t1|] eqn:E.
    + apply trackOne_effect in E.
      destruct (stepEffect_streaks p t t1 n E Hn Hs) as [Hs1 Hc1].
      assert (Hc1' : confirmed t1 = [] \/ (CONFIRM_FRAMES <= n + 1)%Z).
      { destruct Hc1 as [->|]; [|now right]. destruct Hc; [now left|right; lia]. }
      destruct (IH (S i) t1 (n + 1)%Z ltac:(lia) Hs1 Hc1') as [H1 H2].
      replace (n + Z.of_nat (S (length ps)))%Z
        with (n + 1 + Z.of_nat (length ps))%Z by lia.
      split; assumption.
    + simpl. split; [apply (streaksAtMost_mono n); [lia|assumption]|].
      destruct Hc; [now left|right; lia].
Qed.

Lemma decay_streaks (n : Z) (nowKeys : list Key) (cands : Candidates) :
  streaksAtMost n cands -> streaksAtMost n (decay nowKeys cands).
Proof.
  intros H. apply Forall_forall. intros [k c'] Hin.
  destruct (decay_In _ _ _ _ Hin) as (c & Hc & _ & Hcase).
  pose proof (proj1 (Forall_forall _ _) H _ Hc) as Hle. simpl in *.
  destruct Hcase as [[_ ->]|(_ & -> & _)]; [exact Hle|].
  unfold DECAY_RATE. lia.
Qed.

Lemma confusionScan_length (p : Pred) (grp : nat) (resolved resolved' : list Pred)
    (dominated : bool) :
  confusionScan p grp resolved = Ok (dominated, resolved') ->
  length resolved' = length resolved.
Proof.
  revert resolved' dominated.
  induction resolved as [|r rs IH]; simpl; intros resolved' dominated H.
  - now injection H as <- <-.
  - bind_ok H. destruct a.
    + now injection H as <- <-.
    + bind_ok H. destruct a as [d rs']. injection H as <- <-.
      simpl. f_equal. exact (IH _ _ eq_refl).
Qed.

Lemma confusion_length (kept : list Pred) :
  forall resolved result,
    confusion kept resolved = Ok result ->
    (length result <= length resolved + length kept)%nat.
Proof.
  induction kept as [|p ps IH]; simpl; intros resolved result H.
  - injection H as <-. lia.
  - destruct (confuseMap (class p)) as [grp|].
    + bind_ok H. destruct a as [d resolved'].
      apply confusionScan_length in E. apply IH in H.
      destruct d; [|rewrite length_app in H; simpl in H]; lia.
    + apply IH in H. rewrite length_app in H. simpl in H. lia.
Qed.

Section Streaks.

Variable DICT : option (string -> option DictEntry).
Variable SIZE_RANGES : option (string -> option SizeRange).

Lemma pipeline_length (rawPreds : list RawDetection) (w h : Q) (resolved : list Pred) :
  pipeline DICT SIZE_RANGES rawPreds w h = Ok resolved ->
  (length resolved <= length rawPreds)%nat.
Proof.
  unfold pipeline. intros H. bind_ok H. bind_ok H. bind_ok H.
  rename a into scored, a0 into sized, a1 into kept.
  apply confusion_length in H. simpl in H.
  destruct (nms_shape _ _ _ E1) as (added & -> & Hadded). simpl in H.
  apply subseq_length in Hadded.
  pose proof (subseq_length _ _ (filter_subseq scoreFloor sized)) as H4.
  pose proof (subseq_length _ _ (filterM_subseq _ _ _ E0)) as H3.
  rewrite sortDesc_length, (mapM_length _ _ _ E) in H3. lia.
Qed.

(** A call on a map of streaks of at most [n] leaves streaks of at most [n]
    plus the number of its detections, and confirms nothing unless that
    bound reaches [CONFIRM_FRAMES]. *)
Lemma filter_streaks (cands : Candidates) (clock : nat -> Z)
    (rawPreds : list RawDetection) (w h : Q) (n : Z) :
  (0 <= n)%Z -> streaksAtMost n cands ->
  let call := filter DICT SIZE_RANGES cands clock rawPreds w h in
  streaksAtMost (n + Z.of_nat (length rawPreds)) (snd call)
  /\ (forall result, fst call = Ok result ->
        result = [] \/ (CONFIRM_FRAMES <= n + Z.of_nat (length rawPreds))%Z).
Proof.
  intros Hn Hs. unfold filter.
  destruct (pipeline DICT SIZE_RANGES rawPreds w h) as [resolved|] eqn:Hpipe.
  - apply pipeline_length in Hpipe.
    destruct (trackLoop_streaks clock resolved 0%nat (mkTracking cands [] []) n Hn Hs
                (or_introl eq_refl)) as [H1 H2].
    destruct (trackLoop clock 0 resolved (mkTracking cands [] [])) as [t completed].
    simpl in H1, H2.
    assert (Hle : (n + Z.of_nat (length resolved) <= n + Z.of_nat (length rawPreds))%Z)
      by lia.
    destruct completed; simpl.
    + split.
      * apply decay_streaks. now apply (streaksAtMost_mono _ _ _ Hle).
      * intros result [= <-]. destruct H2; [now left|right; lia].
    + split; [now apply (streaksAtMost_mono _ _ _ Hle)|discriminate].
  - simpl. split; [apply (streaksAtMost_mono n); [lia|assumption]|discriminate].
Qed.

Lemma detectionsOf_nonneg (op : Op) : (0 <= detectionsOf op)%Z.
Proof. destruct op; simpl; lia. Qed.

Lemma detectionsIn_nonneg (ops : list Op) : (0 <= detectionsIn ops)%Z.
Proof.
  induction ops as [|op ops IH]; simpl; [lia|].
  pose proof (detectionsOf_nonneg op). lia.
Qed.

Lemma history_streaks (calls : list Op) :
  forall cands n,
    (0 <= n)%Z -> streaksAtMost n cands ->
    streaksAtMost (n + detectionsIn calls)
      (fold_left (applyOp DICT SIZE_RANGES) calls cands).
Proof.
  induction calls as [|op ops IH]; intros cands n Hn Hs; simpl.
  - now replace (n + 0)%Z with n by lia.
  - replace (n + (detectionsOf op + detectionsIn ops))%Z
      with (n + detectionsOf op + detectionsIn ops)%Z by lia.
    pose proof (detectionsOf_nonneg op).
    apply IH; [lia|].
    destruct op as [clock rawPreds w h|]; simpl.
    + exact (proj1 (filter_streaks cands clock rawPreds w h n Hn Hs)).
    + rewrite reset_empty. constructor.
Qed.

End Streaks.

(** C8.  [reset] leaves the empty map, the one of a fresh tracker, whatever
    the map was: no streak and no lock is carried over.  So after [reset] a
    detection on a box of positive width and height that the pipeline
    resolves, alone in its frame, is confirmed again only on the eighth of
    eight consecutive calls, as from the start.  In general a streak grows
    with every detection that matches the candidate, not with every call:
    after [reset] and any calls, a call confirms nothing unless the calls
    since the [reset], this one included, were handed at least
    [CONFIRM_FRAMES] raw detections in all. *)
Theorem reset_clears_hysteresis (DICT : option (string -> option DictEntry))
    (SIZE_RANGES : option (string -> option SizeRange)) :
  (forall cands, reset cands = [])
  /\ (forall cands clocks call d videoWidth videoHeight p b,
        raw_bbox d = Some b -> 0 < box_w b -> 0 < box_h b ->
        pipeline DICT SIZE_RANGES [d] videoWidth videoHeight = Ok [p] ->
        fst (feed DICT SIZE_RANGES clocks 8 call (reset cands) [d]
               videoWidth videoHeight) =
        [Ok []; Ok []; Ok []; Ok []; Ok []; Ok []; Ok []; Ok [p]])
  /\ (forall cands calls clock rawPreds videoWidth videoHeight result,
        let after := fold_left (applyOp DICT SIZE_RANGES) calls (reset cands) in
        fst (filter DICT SIZE_RANGES after clock rawPreds videoWidth videoHeight)
        = Ok result ->
        result <> [] ->
        (CONFIRM_FRAMES <= detectionsIn calls + Z.of_nat (length rawPreds))%Z).
Proof.
  split; [apply reset_empty|]. split.
  - intros cands clocks call d videoWidth videoHeight p b Hb Hw Hh Hpipe.
    rewrite reset_empty.
    apply (feed_from_empty DICT SIZE_RANGES clocks [d] _ _ p b call Hpipe);
      try assumption.
    now rewrite (single_resolved_bbox DICT SIZE_RANGES d _ _ p Hpipe).
  - intros cands calls clock rawPreds w h result after Hres Hne.
    assert (Hs : streaksAtMost (0 + detectionsIn calls) after).
    { apply history_streaks; [lia|]. rewrite reset_empty. constructor. }
    pose proof (detectionsIn_nonneg calls) as Hn.
    destruct (filter_streaks DICT SIZE_RANGES after clock rawPreds w h
                (0 + detectionsIn calls) ltac:(lia) Hs) as [_ Hc].
    destruct (Hc result Hres) as [->|H]; [now elim Hne|lia].
Qed.

(** After a [reset] of the map that eight calls on the "cup" of the scene
    left, eight more calls confirm it on the eighth; and the call that
    confirms one of the two people is the one with which the calls since
    the [reset] have been handed eight detections. *)
Lemma reset_clears_hysteresis_witness :
  let cands := snd (feed None None tickingClocks 8 0 [] [cupAt 0.5] 640 480) in
  let frame := OpFilter stillClock twoPeople 640 480 in
  fst (feed None None tickingClocks 8 8 (reset cands) [cupAt 0.5] 640 480) =
  [Ok []; Ok []; Ok []; Ok []; Ok []; Ok []; Ok []; Ok [cupPred]]
  /\ (CONFIRM_FRAMES <= detectionsIn [frame; frame; frame]
                        + Z.of_nat (length twoPeople))%Z.
Proof.
  intros cands frame.
  destruct (reset_clears_hysteresis None None) as (_ & Hsingle & Hbound).
  split.
  - apply (Hsingle cands tickingClocks 8%nat (cupAt 0.5) 640 480 cupPred region);
      reflexivity.
  - apply (Hbound cands [frame; frame; frame] stillClock twoPeople 640 480
             [mkPred "person" (Some (mkBBox 50 0 100 80)) (0.8 * 1.0) 0.8 1.0]).
    + vm_compute. reflexivity.
    + discriminate.
Defined.

(** C8 as stated fails on two detections that match one candidate.  Two
    people side by side, of boxes that overlap with IoU 1/3: step 5 keeps
    both (1/3 is not above 0.35) and both match the one "person" candidate
    (1/3 is above 0.25), so its streak grows by two in every call.  After a
    [reset], the fourth call confirms the second of the two, not the
    eighth. *)
Lemma reset_run_counterexample :
  let cands := snd (feed None None tickingClocks 8 0 [] [cupAt 0.5] 640 480) in
  fst (feed None None tickingClocks 4 8 (reset cands) twoPeople 640 480) =
  [Ok []; Ok []; Ok [];
   Ok [mkPred "person" (Some (mkBBox 50 0 100 80)) (0.8 * 1.0) 0.8 1.0]].
Proof. vm_compute. reflexivity. Qed.
